(** * A shallow embedding of the mini React compiler

    The development follows the compiler's own files:
    - [types.ts]              the IR ([Instruction], [Value], [ValueInfo], ...);
    - [LoweredJavaScript.ts]  [eachValue];
    - [Transform.ts]          [getDeclaration], [lowerBabelInstr], [readInstructions];
    - [Analysis.ts]           [isHookCall], [isExpensiveOperation], [analyze];
    - [CodeGen.ts]            [DisjointSet], [getInstructionScopeRanges],
                              [makeReactiveInstrs], [instrToExpression], [codegenJS];
    - [index.ts]              [extractIdentifiers], [hasExpensiveOperation] and the
                              [FunctionDeclaration] visitor.

    JavaScript [Map]s and [Set]s iterate in insertion order, so they are
    association lists and duplicate-free lists here; an exception is an
    error result; what lowering writes to the console is an explicit list of
    log lines (the log lines of the other modules are left out); recursion
    that follows ids ([find], [instrToExpression]) is bounded by a fuel. *)

From Stdlib Require Import String Ascii ZArith Bool Arith Lia PeanoNat.
From Stdlib Require Import DecimalString List Sorted.
Import ListNotations.

Set Implicit Arguments.
Set Warnings "-register-all".

(* ================================================================== *)
(** ** JavaScript containers *)

(** Keys of a [Map]: a type with a boolean equality that decides [=]
    (numbers and strings, compared by SameValueZero). *)
Class Key (K : Type) := {
  keq : K -> K -> bool;
  keq_spec : forall a b, keq a b = true <-> a = b
}.

#[export] Instance Key_nat : Key nat :=
  {| keq := Nat.eqb; keq_spec := Nat.eqb_eq |}.

#[export] Instance Key_string : Key string :=
  {| keq := String.eqb; keq_spec := String.eqb_eq |}.

(** [Map<K, V>]: entries in insertion order. *)
Module JsMap.
Section Ops.
Context {K V : Type} `{Key K}.

Definition t := list (K * V).

Fixpoint get (m : t) (k : K) : option V :=
  match m with
  | [] => None
  | (k', v) :: m' => if keq k k' then Some v else get m' k
  end.

Definition has (m : t) (k : K) : bool :=
  match get m k with Some _ => true | None => false end.

(** [m.set(k, v)]: an existing key keeps its place, a new key goes last. *)
Fixpoint set (m : t) (k : K) (v : V) : t :=
  match m with
  | [] => [(k, v)]
  | (k', v') :: m' =>
      if keq k k' then (k, v) :: m' else (k', v') :: set m' k v
  end.

Definition size (m : t) : nat := length m.
Definition keys (m : t) : list K := map fst m.
Definition values (m : t) : list V := map snd m.
End Ops.
End JsMap.

(** [Set<T>]: elements in insertion order, none twice. *)
Module JsSet.
Section Ops.
Context {T : Type} `{Key T}.

Definition t := list T.

Definition has (s : t) (x : T) : bool := existsb (keq x) s.

Definition add (s : t) (x : T) : t := if has s x then s else s ++ [x].

Definition size (s : t) : nat := length s.

(** [new Set(xs)] *)
Definition of_list (xs : list T) : t := fold_left add xs [].
End Ops.
End JsSet.

(* ================================================================== *)
(** ** types.ts *)

Definition InstrId := nat.

(** JavaScript numbers occurring in literals are modelled on the integers. *)
Definition number := Z.

Inductive Literal :=
| LitString (s : string)
| LitNumber (n : number)
| LitBoolean (b : bool).

Inductive Value :=
| RValue (value : InstrId)
| LiteralValue (value : Literal).

(** [property: string | number] of a [ReadProperty]. *)
Inductive PropertyKey :=
| PropString (s : string)
| PropNumber (n : number).

(** The instruction kinds; [loc] is never read by the compiler and is left out.
    ([Declare_] is the kind ["Declare"].) *)
Inductive Instruction :=
| Call (receiver : InstrId) (property : option string) (arguments : list Value)
| Object (properties : list (string * Value))
| ReadProperty (object : InstrId) (property : PropertyKey)
| Declare_ (lhs : string) (rhs : InstrId)
| Param (name : string)
| LoadConstant (variableName : string)
| Return (value : option InstrId).

Definition FunctionBody := list (InstrId * Instruction).

Record ValueInfo := mkValueInfo {
  dependencies : option (list InstrId);
  instructions : option (list InstrId);
  shouldMemo : option bool
}.

Definition ValueInfos := list (InstrId * ValueInfo).

Record ReactiveBlock := mkReactiveBlock {
  instrs : list (InstrId * Instruction);
  decls : list InstrId;
  deps : list InstrId
}.

Inductive ReactiveInstruction :=
| RBlock (b : ReactiveBlock)
| RInstr (id : InstrId) (instr : Instruction).

(* ================================================================== *)
(** ** LoweredJavaScript.ts *)

Definition rvalues (vs : list Value) : list InstrId :=
  flat_map (fun v => match v with RValue i => [i] | LiteralValue _ => [] end) vs.

(** The ids an instruction consumes, in the order the generator yields them. *)
Definition eachValue (instr : Instruction) : list InstrId :=
  match instr with
  | Call receiver _ arguments => receiver :: rvalues arguments
  | Object properties => rvalues (map snd properties)
  | ReadProperty object _ => [object]
  | Declare_ _ rhs => [rhs]
  | Return (Some v) => [v]
  | Return None => []
  | Param _ => []
  | LoadConstant _ => []
  end.

(* ================================================================== *)
(** ** Strings *)

(** [s.includes(sub)] *)
Fixpoint includes (sub s : string) : bool :=
  String.prefix sub s ||
  match s with
  | EmptyString => false
  | String _ s' => includes sub s'
  end.

(** [s.split(sep)[0]] for a one-character separator. *)
Fixpoint splitHead (sep : ascii) (s : string) : string :=
  match s with
  | EmptyString => EmptyString
  | String c s' => if Ascii.eqb c sep then EmptyString else String c (splitHead sep s')
  end.

(** Truthiness of a [string | null]: [null] and the empty string are falsy. *)
Definition truthy (p : option string) : bool :=
  match p with
  | Some (String _ _) => true
  | _ => false
  end.

Definition strIn (s : string) (l : list string) : bool := existsb (String.eqb s) l.

(* ================================================================== *)
(** ** Analysis.ts *)

Definition isHookCall (instr : Instruction) (func : FunctionBody) : bool :=
  match instr with
  | Call receiver _ _ =>
      match JsMap.get func receiver with
      | Some (LoadConstant variableName) => String.prefix "use" variableName
      | _ => false
      end
  | _ => false
  end.

Definition expensiveMethods : list string :=
  ["map"; "filter"; "reduce"; "sort"; "find"; "findIndex"]%string.

Definition expensiveFunctions : list string :=
  ["Math.sqrt"; "Math.pow"; "Math.sin"; "Math.cos"]%string.

Definition isExpensiveOperation (instr : Instruction) (func : FunctionBody) : bool :=
  match instr with
  | Call receiver property _ =>
      if truthy property then
        match property with
        | Some p => strIn p expensiveMethods
        | None => false
        end
      else
        match JsMap.get func receiver with
        | Some (LoadConstant variableName) =>
            existsb (fun fn => includes (splitHead "."%char fn) variableName)
                    expensiveFunctions
        | _ => false
        end
  | Object _ => true
  | _ => false
  end.

(** [for (const used of eachValue(instr)) { if (set.has(used)) set.add(id) }] *)
Definition markIfUses (id : InstrId) (instr : Instruction) (marked : list InstrId)
  : list InstrId :=
  fold_left (fun s used => if JsSet.has s used then JsSet.add s id else s)
            (eachValue instr) marked.

Definition isParam (instr : Instruction) : bool :=
  match instr with
  | Param _ => true
  | _ => false
  end.

(** One iteration of the may-change sweep: [mayChange] is the set so far. *)
Definition mayChangeStep (func : FunctionBody) (mayChange : list InstrId)
    (entry : InstrId * Instruction) : list InstrId :=
  let (id, instr) := entry in
  if isParam instr || isHookCall instr func then JsSet.add mayChange id
  else markIfUses id instr mayChange.

Definition getValuesThatMayChange (func : FunctionBody) : list InstrId :=
  fold_left (mayChangeStep func) func [].

Definition isObjectOrCall (instr : Instruction) : bool :=
  match instr with
  | Object _ | Call _ _ _ => true
  | _ => false
  end.

Definition writableStep (maybeWritable : list InstrId)
    (entry : InstrId * Instruction) : list InstrId :=
  let (id, instr) := entry in
  if isObjectOrCall instr then JsSet.add maybeWritable id
  else markIfUses id instr maybeWritable.

Definition getWritableValues (func : FunctionBody) : list InstrId :=
  fold_left writableStep func [].

(** Exceptions. *)
Inductive Result (A : Type) :=
| Ok (a : A)
| Throw (msg : string).
Arguments Throw {A} msg.

Definition bindR {A B} (r : Result A) (k : A -> Result B) : Result B :=
  match r with
  | Ok a => k a
  | Throw msg => Throw msg
  end.

Notation "x <- c ;; k" := (bindR c (fun x => k))
  (at level 61, c at next level, right associativity).

Fixpoint foldM {A B} (f : A -> B -> Result A) (l : list B) (a : A) : Result A :=
  match l with
  | [] => Ok a
  | b :: l' => a' <- f a b ;; foldM f l' a'
  end.

(** Step 1 of [analyze], for one entry. *)
Definition dependenciesOf (mayChange : list InstrId) (instr : Instruction)
  : list InstrId :=
  fold_left
    (fun ds used => if JsSet.has mayChange used then JsSet.add ds used else ds)
    (eachValue instr) [].

Definition analyzeStep1 (func : FunctionBody) (mayChange : list InstrId)
    (result : ValueInfos) (entry : InstrId * Instruction) : ValueInfos :=
  let (id, instr) := entry in
  let dependencies := dependenciesOf mayChange instr in
  JsMap.set result id
    {| shouldMemo :=
         Some (isExpensiveOperation instr func
               && (0 <? JsSet.size dependencies));
       dependencies := Some dependencies;
       instructions := None |}.

(** [result.get(used)!.instructions ??= new Set(); ....add(id)]: the
    non-null assertion throws a [TypeError] on a missing entry. *)
Definition recordMutator (id : InstrId) (result : ValueInfos) (used : InstrId)
  : Result ValueInfos :=
  match JsMap.get result used with
  | None => Throw "TypeError: result.get(used) is undefined"
  | Some info =>
      let current := match instructions info with Some s => s | None => [] end in
      Ok (JsMap.set result used
            {| shouldMemo := shouldMemo info;
               dependencies := dependencies info;
               instructions := Some (JsSet.add current id) |})
  end.

Definition analyzeStep2 (writableValues : list InstrId)
    (result : ValueInfos) (entry : InstrId * Instruction) : Result ValueInfos :=
  let (id, instr) := entry in
  match instr with
  | Call _ _ _ =>
      foldM (fun res used =>
               if JsSet.has writableValues used then recordMutator id res used
               else Ok res)
            (eachValue instr) result
  | _ => Ok result
  end.

Definition analyze (func : FunctionBody) : Result ValueInfos :=
  let mayChange := getValuesThatMayChange func in
  let result := fold_left (analyzeStep1 func mayChange) func [] in
  let writableValues := getWritableValues func in
  foldM (analyzeStep2 writableValues) func result.

Definition shouldMemoize (info : ValueInfo) : bool :=
  match shouldMemo info, dependencies info with
  | Some true, Some ds => 0 <? JsSet.size ds
  | _, _ => false
  end.

(* ================================================================== *)
(** ** The host AST

    The node kinds of Babel's AST that the compiler inspects or builds.
    Children are untyped, as in [NodePath<t.Node>]; [OtherNode] stands for
    every kind without a constructor of its own. *)

Inductive ArrayPatternElement :=
| ElemIdentifier (name : string)
| ElemOther (type : string)
| ElemHole.

(** The [id] of a [VariableDeclarator]. *)
Inductive LVal :=
| LIdentifier (name : string)
| LArrayPattern (elements : list ArrayPatternElement)
| LOther (type : string).

Inductive PatternKey :=
| KeyIdentifier (name : string)
| KeyOther (type : string).

Inductive PatternProperty :=
| PatObjectProperty (key : PatternKey)
| PatOther (type : string).

Inductive FunctionParam :=
| ParamIdentifier (name : string)
| ParamObjectPattern (properties : list PatternProperty)
| ParamOther (type : string).

Inductive Node :=
| Identifier (name : string)
| StringLiteral (value : string)
| NumericLiteral (value : number)
| BooleanLiteral (value : bool)
| MemberExpression (object property : Node) (computed : bool)
| ObjectExpression (properties : list Node)
| ObjectProperty (key value : Node)
| SpreadElement (argument : Node)
| CallExpression (callee : Node) (arguments : list Node)
| ArrowFunctionExpression (params : list FunctionParam) (body : Node)
| FunctionExpression (params : list FunctionParam) (body : Node)
| BlockStatement (body : list Node)
| BinaryExpression (operator : string) (left right : Node)
| ArrayExpression (elements : list Node)
| ReturnStatement (argument : option Node)
| VariableDeclaration (kind : string) (declarations : list Node)
| VariableDeclarator (id : LVal) (init : option Node)
| ExpressionStatement (expression : Node)
| OtherNode (type : string).

Definition nodeType (n : Node) : string :=
  match n with
  | Identifier _ => "Identifier"
  | StringLiteral _ => "StringLiteral"
  | NumericLiteral _ => "NumericLiteral"
  | BooleanLiteral _ => "BooleanLiteral"
  | MemberExpression _ _ _ => "MemberExpression"
  | ObjectExpression _ => "ObjectExpression"
  | ObjectProperty _ _ => "ObjectProperty"
  | SpreadElement _ => "SpreadElement"
  | CallExpression _ _ => "CallExpression"
  | ArrowFunctionExpression _ _ => "ArrowFunctionExpression"
  | FunctionExpression _ _ => "FunctionExpression"
  | BlockStatement _ => "BlockStatement"
  | BinaryExpression _ _ _ => "BinaryExpression"
  | ArrayExpression _ => "ArrayExpression"
  | ReturnStatement _ => "ReturnStatement"
  | VariableDeclaration _ _ => "VariableDeclaration"
  | VariableDeclarator _ _ => "VariableDeclarator"
  | ExpressionStatement _ => "ExpressionStatement"
  | OtherNode type => type
  end.

Record FunctionDeclaration := mkFunctionDeclaration {
  fn_id : option string;
  fn_params : list FunctionParam;
  fn_body : list Node
}.

(** [String(n)] for a number and a boolean. The digits are those of
    JavaScript for the integers it prints in full (magnitude below 10^21,
    exactly represented); the text is only ever the name of a constant. *)
Definition numberToString (n : number) : string :=
  NilZero.string_of_int (Z.to_int n).

Definition natToString (n : nat) : string :=
  NilZero.string_of_uint (Nat.to_uint n).

Definition booleanToString (b : bool) : string :=
  if b then "true"%string else "false"%string.

Fixpoint join (sep : string) (l : list string) : string :=
  match l with
  | [] => EmptyString
  | [s] => s
  | s :: l' => (s ++ sep ++ join sep l')%string
  end.

Fixpoint mapi {A B} (f : nat -> A -> B) (i : nat) (l : list A) : list B :=
  match l with
  | [] => []
  | a :: l' => f i a :: mapi f (S i) l'
  end.

(* ================================================================== *)
(** ** Transform.ts *)

(** What [console.log] receives while lowering. [LogInstr] is [logInstr]:
    the printed instruction, kept as the instruction itself. *)
Inductive LogLine :=
| LogInstr (id : InstrId) (instr : Instruction)
| LogSkipPattern (type : string)
| LogSkipInstruction (type : string).

Record LowerState := mkLowerState {
  st_body : FunctionBody;
  st_console : list LogLine
}.

(** Lowering mutates the [FunctionBody], writes to the console, and may throw. *)
Definition Lower (A : Type) := LowerState -> Result (A * LowerState).

Definition ret {A} (a : A) : Lower A := fun st => Ok (a, st).

Definition bind {A B} (m : Lower A) (k : A -> Lower B) : Lower B :=
  fun st =>
    match m st with
    | Ok (a, st') => k a st'
    | Throw msg => Throw msg
    end.

Definition throw {A} (msg : string) : Lower A := fun _ => Throw msg.

Declare Scope lower_scope.
Delimit Scope lower_scope with lower.
Notation "x <~ c ;; k" := (bind c (fun x => k))
  (at level 61, c at next level, right associativity) : lower_scope.
Notation "c ;;; k" := (bind c (fun _ => k))
  (at level 61, right associativity) : lower_scope.

Definition assertsValid (cond : bool) (msg : string) : Lower unit :=
  if cond then ret tt else throw ("Invalid syntax. " ++ msg)%string.

Definition consoleLog (line : LogLine) : Lower unit :=
  fun st => Ok (tt, {| st_body := st_body st;
                       st_console := st_console st ++ [line] |}).

Definition stateSize : Lower nat := fun st => Ok (JsMap.size (st_body st), st).

(** [const currValue = state.size; state.set(currValue, instr);
     logInstr(state, currValue); return currValue] *)
Definition emit (instr : Instruction) : Lower InstrId :=
  fun st =>
    let currValue := JsMap.size (st_body st) in
    let body' := JsMap.set (st_body st) currValue instr in
    match JsMap.get body' currValue with
    | Some logged =>
        Ok (currValue, {| st_body := body';
                          st_console := st_console st ++ [LogInstr currValue logged] |})
    | None => Throw "TypeError: func.get(id) is undefined"
    end.

Fixpoint getDeclaration (func : FunctionBody) (variableName : string)
  : option InstrId :=
  match func with
  | [] => None
  | (id, instr) :: func' =>
      match instr with
      | Declare_ lhs _ =>
          if String.eqb lhs variableName then Some id
          else getDeclaration func' variableName
      | Param name =>
          if String.eqb name variableName then Some id
          else getDeclaration func' variableName
      | _ => getDeclaration func' variableName
      end
  end.

Definition arrayPatternName (elements : list ArrayPatternElement) : string :=
  ("[" ++ join ", "
            (mapi (fun i el =>
                     match el with
                     | ElemIdentifier name => name
                     | _ => "_" ++ natToString i
                     end) 0 elements)
       ++ "]")%string.

Section LowerLoops.
Variable lower : Node -> Lower InstrId.

Local Open Scope lower_scope.

(** A literal operand is inlined, anything else is lowered to an id. *)
Definition lowerOperand (value : Node) : Lower Value :=
  match value with
  | StringLiteral v => ret (LiteralValue (LitString v))
  | NumericLiteral v => ret (LiteralValue (LitNumber v))
  | BooleanLiteral v => ret (LiteralValue (LitBoolean v))
  | _ => id <~ lower value ;; ret (RValue id)
  end.

(** [for (const prop of instr.get("properties"))] *)
Fixpoint lowerProperties (props : list Node)
    (propertyValues : list (string * Value)) : Lower (list (string * Value)) :=
  match props with
  | [] => ret propertyValues
  | ObjectProperty key value :: props' =>
      match key with
      | Identifier name =>
          loweredValue <~ lowerOperand value ;;
          lowerProperties props' (JsMap.set propertyValues name loweredValue)
      | _ => throw "Invalid syntax. Only identifier keys supported"
      end
  | _ :: props' => lowerProperties props' propertyValues
  end.

(** [for (const arg of instr.get("arguments"))] *)
Fixpoint lowerArguments (args : list Node) (argumentValues : list Value)
  : Lower (list Value) :=
  match args with
  | [] => ret argumentValues
  | arg :: args' =>
      v <~ lowerOperand arg ;;
      lowerArguments args' (argumentValues ++ [v])
  end.

(** [for (const decl of declarations)] *)
Fixpoint lowerDeclarators (declarations : list Node) (lastValue : InstrId)
  : Lower InstrId :=
  match declarations with
  | [] => ret lastValue
  | VariableDeclarator id init :: declarations' =>
      match init with
      | None => throw "Invalid syntax. Variable must have initializer"
      | Some init =>
          match id with
          | LIdentifier name =>
              initValue <~ lower init ;;
              currValue <~ emit (Declare_ name initValue) ;;
              lowerDeclarators declarations' currValue
          | LArrayPattern elements =>
              initValue <~ lower init ;;
              currValue <~ emit (Declare_ (arrayPatternName elements) initValue) ;;
              lowerDeclarators declarations' currValue
          | LOther type =>
              consoleLog (LogSkipPattern type) ;;;
              lowerDeclarators declarations' lastValue
          end
      end
  | _ :: declarations' => lowerDeclarators declarations' lastValue
  end.
End LowerLoops.

Local Open Scope lower_scope.

Fixpoint lowerBabelInstr (instr : Node) : Lower InstrId :=
  match instr with
  | MemberExpression object property _ =>
      objectValue <~ lowerBabelInstr object ;;
      propertyName <~
        match property with
        | Identifier name => ret (PropString name)
        | NumericLiteral value => ret (PropNumber value)
        | StringLiteral value => ret (PropString value)
        | _ => throw ("Unsupported property type: " ++ nodeType property)%string
        end ;;
      emit (ReadProperty objectValue propertyName)
  | ObjectExpression properties =>
      propertyValues <~ lowerProperties lowerBabelInstr properties [] ;;
      emit (Object propertyValues)
  | CallExpression callee arguments =>
      target <~
        match callee with
        | MemberExpression object property _ =>
            receiverValue <~ lowerBabelInstr object ;;
            match property with
            | Identifier name => ret (receiverValue, Some name)
            | _ => throw "Invalid syntax. Only identifier properties supported"
            end
        | _ =>
            receiverValue <~ lowerBabelInstr callee ;;
            ret (receiverValue, None)
        end ;;
      argumentValues <~ lowerArguments lowerBabelInstr arguments [] ;;
      emit (Call (fst target) (snd target) argumentValues)
  | ReturnStatement argument =>
      match argument with
      | Some arg =>
          argumentValue <~ lowerBabelInstr arg ;;
          emit (Return (Some argumentValue))
      | None => emit (Return None)
      end
  | VariableDeclaration _ declarations =>
      lastValue <~ stateSize ;;
      lowerDeclarators lowerBabelInstr declarations lastValue
  | Identifier name =>
      fun st =>
        match getDeclaration (st_body st) name with
        | Some localDeclaration => ret localDeclaration st
        | None => emit (LoadConstant name) st
        end
  | ExpressionStatement expression => lowerBabelInstr expression
  | StringLiteral value => emit (LoadConstant value)
  | NumericLiteral value => emit (LoadConstant (numberToString value))
  | BooleanLiteral value => emit (LoadConstant (booleanToString value))
  | ArrowFunctionExpression _ _ | FunctionExpression _ _ =>
      emit (LoadConstant "function")
  | _ =>
      consoleLog (LogSkipInstruction (nodeType instr)) ;;;
      emit (LoadConstant ("unsupported_" ++ nodeType instr)%string)
  end.

(** The [Param] instructions of one parameter. *)
Fixpoint lowerPatternProperties (properties : list PatternProperty)
    (instrs : FunctionBody) : Result FunctionBody :=
  match properties with
  | [] => Ok instrs
  | PatObjectProperty (KeyIdentifier name) :: properties' =>
      lowerPatternProperties properties'
        (JsMap.set instrs (JsMap.size instrs) (Param name))
  | PatObjectProperty (KeyOther _) :: _ =>
      Throw "Invalid syntax. Cannot handle non-identifier key in destructured param"
  | PatOther type :: _ =>
      Throw ("Invalid syntax. Cannot handle " ++ type ++ " in param")
  end.

Definition lowerParam (instrs : FunctionBody) (param : FunctionParam)
  : Result FunctionBody :=
  match param with
  | ParamObjectPattern properties => lowerPatternProperties properties instrs
  | ParamIdentifier name =>
      Ok (JsMap.set instrs (JsMap.size instrs) (Param name))
  | ParamOther type =>
      Throw ("Invalid syntax. Cannot handle non-identifier param " ++ type)
  end.

Fixpoint lowerStatements (stmts : list Node) : Lower unit :=
  match stmts with
  | [] => ret tt
  | s :: stmts' => lowerBabelInstr s ;;; lowerStatements stmts'
  end.

(** [readInstructions]: the lowered body and what was logged. *)
Definition readInstructions (func : FunctionDeclaration)
  : Result (FunctionBody * list LogLine) :=
  instrs <- foldM lowerParam (fn_params func) [] ;;
  match lowerStatements (fn_body func)
          {| st_body := instrs; st_console := [] |} with
  | Ok (_, st) => Ok (st_body st, st_console st)
  | Throw msg => Throw msg
  end.

(* ================================================================== *)
(** ** CodeGen.ts: the disjoint-set *)

Record DisjointSet := mkDisjointSet {
  parent : list (InstrId * InstrId);
  rank : list (InstrId * nat)
}.

Definition emptyDisjointSet : DisjointSet := {| parent := []; rank := [] |}.

(** [this.rank.get(x) || 0] *)
Definition rankOf (ds : DisjointSet) (x : InstrId) : nat :=
  match JsMap.get (rank ds) x with Some r => r | None => 0 end.

Definition maxRank (ds : DisjointSet) : nat :=
  fold_right Nat.max 0 (JsMap.values (rank ds)).

(** [find], with path compression. The recursion follows parent links, so
    it is bounded by a fuel; [None] says the fuel ran out. *)
Fixpoint findFuel (fuel : nat) (ds : DisjointSet) (item : InstrId)
  : option (DisjointSet * InstrId) :=
  match fuel with
  | 0 => None
  | S fuel' =>
      let ds1 :=
        if JsMap.has (parent ds) item then ds
        else {| parent := JsMap.set (parent ds) item item;
                rank := JsMap.set (rank ds) item 0 |} in
      match JsMap.get (parent ds1) item with
      | None => None
      | Some p =>
          if negb (p =? item) then
            match findFuel fuel' ds1 p with
            | None => None
            | Some (ds2, root) =>
                let ds3 := {| parent := JsMap.set (parent ds2) item root;
                              rank := rank ds2 |} in
                match JsMap.get (parent ds3) item with
                | Some r => Some (ds3, r)
                | None => None
                end
            end
          else Some (ds1, p)
      end
  end.

(** Ranks grow strictly along parent links, so a walk to the root takes at
    most [maxRank + 1] calls. *)
Definition find (ds : DisjointSet) (item : InstrId)
  : option (DisjointSet * InstrId) :=
  findFuel (S (maxRank ds)) ds item.

Definition unionTwo (ds : DisjointSet) (a b : InstrId) : option DisjointSet :=
  match find ds a with
  | None => None
  | Some (ds1, rootA) =>
      match find ds1 b with
      | None => None
      | Some (ds2, rootB) =>
          if rootA =? rootB then Some ds2
          else
            let rankA := rankOf ds2 rootA in
            let rankB := rankOf ds2 rootB in
            if rankA <? rankB then
              Some {| parent := JsMap.set (parent ds2) rootA rootB;
                      rank := rank ds2 |}
            else if rankB <? rankA then
              Some {| parent := JsMap.set (parent ds2) rootB rootA;
                      rank := rank ds2 |}
            else
              Some {| parent := JsMap.set (parent ds2) rootB rootA;
                      rank := JsMap.set (rank ds2) rootA (rankA + 1) |}
      end
  end.

Fixpoint unionWith (first : InstrId) (rest : list InstrId) (ds : DisjointSet)
  : option DisjointSet :=
  match rest with
  | [] => Some ds
  | x :: rest' =>
      match unionTwo ds first x with
      | Some ds' => unionWith first rest' ds'
      | None => None
      end
  end.

(** [union(items)] *)
Definition union (ds : DisjointSet) (items : list InstrId) : option DisjointSet :=
  match items with
  | first :: (_ :: _) as rest => unionWith first rest ds
  | _ => Some ds
  end.

(** The loop of [buildSets] over [this.parent.keys()]. [find] on a member
    adds no key, so the keys read first are those the iterator visits. *)
Fixpoint groupItems (items : list InstrId) (ds : DisjointSet)
    (groups : list (InstrId * list InstrId))
  : option (list (InstrId * list InstrId)) :=
  match items with
  | [] => Some groups
  | item :: items' =>
      match find ds item with
      | None => None
      | Some (ds', root) =>
          let group := match JsMap.get groups root with
                       | Some g => g
                       | None => []
                       end in
          groupItems items' ds' (JsMap.set groups root (group ++ [item]))
      end
  end.

Definition buildSets (ds : DisjointSet) : option (list (list InstrId)) :=
  match groupItems (JsMap.keys (parent ds)) ds [] with
  | Some groups =>
      Some (filter (fun group => 1 <? length group) (JsMap.values groups))
  | None => None
  end.

(* ================================================================== *)
(** ** CodeGen.ts: scope ranges *)

Record Range := mkRange { r_start : InstrId; r_end : InstrId }.

(** [Math.min(...set)] and [Math.max(...set)] of a non-empty list. *)
Definition minOf (l : list nat) : nat :=
  match l with
  | [] => 0
  | x :: l' => fold_left Nat.min l' x
  end.

Definition maxOf (l : list nat) : nat :=
  match l with
  | [] => 0
  | x :: l' => fold_left Nat.max l' x
  end.

Definition rangeOf (set : list InstrId) : Range :=
  {| r_start := minOf set; r_end := maxOf set |}.

(** [ranges.sort((a, b) => a.start - b.start)]: a stable sort. *)
Fixpoint insertRange (r : Range) (sorted : list Range) : list Range :=
  match sorted with
  | [] => [r]
  | x :: sorted' =>
      if r_start r <? r_start x then r :: x :: sorted'
      else x :: insertRange r sorted'
  end.

Definition sortRanges (ranges : list Range) : list Range :=
  fold_left (fun sorted r => insertRange r sorted) ranges [].

(** The merge loop: [previous] is the span being grown. *)
Fixpoint mergeLoop (previous : Range) (ranges : list Range) : list Range :=
  match ranges with
  | [] => [previous]
  | r :: ranges' =>
      if r_start r <=? r_end previous then
        mergeLoop {| r_start := r_start previous;
                     r_end := Nat.max (r_end previous) (r_end r) |} ranges'
      else previous :: mergeLoop r ranges'
  end.

Definition mergeRanges (ranges : list Range) : list Range :=
  match ranges with
  | [] => []
  | first :: rest => mergeLoop first rest
  end.

Definition scopeUnionStep (valuesInfo : ValueInfos) (ds : DisjointSet)
    (entry : InstrId * Instruction) : option DisjointSet :=
  let (id, _) := entry in
  match JsMap.get valuesInfo id with
  | Some info =>
      if shouldMemoize info then
        let instrs := match instructions info with Some s => s | None => [] end in
        union ds (instrs ++ [id])
      else Some ds
  | None => Some ds
  end.

Fixpoint foldO {A B} (f : A -> B -> option A) (l : list B) (a : A) : option A :=
  match l with
  | [] => Some a
  | b :: l' => match f a b with Some a' => foldO f l' a' | None => None end
  end.

Definition mutatingSetsOf (func : FunctionBody) (valuesInfo : ValueInfos)
  : option (list (list InstrId)) :=
  match foldO (scopeUnionStep valuesInfo) func emptyDisjointSet with
  | Some mutatingSetBuilder => buildSets mutatingSetBuilder
  | None => None
  end.

Definition getInstructionScopeRanges (func : FunctionBody) (valuesInfo : ValueInfos)
  : option (list Range) :=
  match mutatingSetsOf func valuesInfo with
  | Some mutatingSets =>
      Some (mergeRanges (sortRanges (map rangeOf mutatingSets)))
  | None => None
  end.

(* ================================================================== *)
(** ** CodeGen.ts: the reactive instruction sequence *)

(** [for (let i = from; i < to; i++) { const instr = func.get(i);
      if (instr != null) hir.push({ ...instr, id: i }) }] *)
Definition passThrough (func : FunctionBody) (from to : nat)
  : list ReactiveInstruction :=
  flat_map (fun i => match JsMap.get func i with
                     | Some instr => [RInstr i instr]
                     | None => []
                     end)
           (seq from (to - from)).

Definition blockStep (func : FunctionBody) (valuesInfo : ValueInfos)
    (currBlock : ReactiveBlock) (i : InstrId) : ReactiveBlock :=
  match JsMap.get func i with
  | Some instr =>
      let infoDeps :=
        match JsMap.get valuesInfo i with
        | Some info => match dependencies info with Some s => s | None => [] end
        | None => []
        end in
      {| deps := fold_left JsSet.add infoDeps (deps currBlock);
         decls := JsSet.add (decls currBlock) i;
         instrs := JsMap.set (instrs currBlock) i instr |}
  | None => currBlock
  end.

Definition makeBlock (func : FunctionBody) (valuesInfo : ValueInfos)
    (scope : Range) : ReactiveBlock :=
  fold_left (blockStep func valuesInfo)
            (seq (r_start scope) (S (r_end scope) - r_start scope))
            {| instrs := []; decls := []; deps := [] |}.

(** One iteration of [for (const scope of scopes)]; the state is [hir] and
    [startingInstrId]. [func.get(scope.start)!.kind] is only read when the
    span is a single id, and throws when that id is missing. *)
Definition scopeStep (func : FunctionBody) (valuesInfo : ValueInfos)
    (state : list ReactiveInstruction * nat) (scope : Range)
  : Result (list ReactiveInstruction * nat) :=
  let (hir, startingInstrId) := state in
  let hir := hir ++ passThrough func startingInstrId (r_start scope) in
  let startingInstrId := r_end scope + 1 in
  let block := Ok (hir ++ [RBlock (makeBlock func valuesInfo scope)],
                   startingInstrId) in
  if r_start scope =? r_end scope then
    match JsMap.get func (r_start scope) with
    | None => Throw "TypeError: firstInstr is undefined"
    | Some (Declare_ lhs rhs) =>
        Ok (hir ++ [RInstr (r_start scope) (Declare_ lhs rhs)], startingInstrId)
    | Some _ => block
    end
  else block.

Definition reactiveInstrsFrom (func : FunctionBody) (valuesInfo : ValueInfos)
    (scopes : list Range) : Result (list ReactiveInstruction) :=
  state <- foldM (scopeStep func valuesInfo) scopes ([], 0) ;;
  Ok (fst state ++ passThrough func (snd state) (JsMap.size func)).

(** [None]: [find] ran out of fuel. *)
Definition makeReactiveInstrs (func : FunctionBody) (valuesInfo : ValueInfos)
  : option (Result (list ReactiveInstruction)) :=
  match getInstructionScopeRanges func valuesInfo with
  | Some scopes => Some (reactiveInstrsFrom func valuesInfo scopes)
  | None => None
  end.

(* ================================================================== *)
(** ** CodeGen.ts: expressions and statements *)

Definition literalNode (l : Literal) : Node :=
  match l with
  | LitString s => StringLiteral s
  | LitNumber n => NumericLiteral n
  | LitBoolean b => BooleanLiteral b
  end.

Fixpoint mapM {A B} (f : A -> Result B) (l : list A) : Result (list B) :=
  match l with
  | [] => Ok []
  | a :: l' => b <- f a ;; bs <- mapM f l' ;; Ok (b :: bs)
  end.

(** [instrToExpression] calls itself on the instructions its operands name.
    The fuel bounds the depth of that recursion. *)
Fixpoint instrToExpressionFuel (fuel : nat) (instr : Instruction)
    (func : FunctionBody) : Result Node :=
  match fuel with
  | 0 => Throw "RangeError: Maximum call stack size exceeded"
  | S fuel' =>
      let ofId (id : InstrId) : Result Node :=
        match JsMap.get func id with
        | Some i => instrToExpressionFuel fuel' i func
        | None => Throw "TypeError: instr is undefined"
        end in
      let ofValue (v : Value) : Result Node :=
        match v with
        | LiteralValue l => Ok (literalNode l)
        | RValue id => ofId id
        end in
      match instr with
      | Call receiver property arguments =>
          match JsMap.get func receiver with
          | None => Throw "TypeError: instr is undefined"
          | Some receiverInstr =>
              callee <-
                (if truthy property then
                   obj <- instrToExpressionFuel fuel' receiverInstr func ;;
                   Ok (MemberExpression obj
                         (Identifier (match property with
                                      | Some p => p
                                      | None => EmptyString
                                      end)) false)
                 else instrToExpressionFuel fuel' receiverInstr func) ;;
              args <- mapM ofValue arguments ;;
              Ok (CallExpression callee args)
          end
      | Object properties =>
          props <- mapM (fun kv : string * Value =>
                           valueExpr <- ofValue (snd kv) ;;
                           Ok (ObjectProperty (Identifier (fst kv)) valueExpr))
                        properties ;;
          Ok (ObjectExpression props)
      | LoadConstant variableName => Ok (Identifier variableName)
      | ReadProperty object property =>
          obj <- ofId object ;;
          match property with
          | PropString p => Ok (MemberExpression obj (Identifier p) false)
          | PropNumber n => Ok (MemberExpression obj (NumericLiteral n) true)
          end
      | _ => Ok (Identifier "unknown")
      end
  end.

(** A chain of operand references longer than the body repeats an id, and
    then the source recurses forever; so this fuel loses no result. *)
Definition instrToExpression (instr : Instruction) (func : FunctionBody)
  : Result Node :=
  instrToExpressionFuel (S (JsMap.size func)) instr func.

Definition getDependencyNames (deps : list InstrId) (func : FunctionBody)
  : list string :=
  flat_map (fun dep => match JsMap.get func dep with
                       | Some (Param name) => [name]
                       | Some (Declare_ lhs _) => [lhs]
                       | _ => []
                       end) deps.

(** [prunedInstrs]: dependencies produced inside the block are dropped. *)
Definition pruneBlock (instr : ReactiveInstruction) : ReactiveInstruction :=
  match instr with
  | RBlock b =>
      RBlock {| instrs := instrs b;
                decls := decls b;
                deps := filter (fun dep => negb (JsMap.has (instrs b) dep))
                               (deps b) |}
  | RInstr _ _ => instr
  end.

(** The first member of the block whose info has a truthy [shouldMemo]. *)
Fixpoint mainOperationOf (info : ValueInfos) (members : list (InstrId * Instruction))
  : option (InstrId * Instruction) :=
  match members with
  | [] => None
  | (id, blockInstr) :: members' =>
      match JsMap.get info id with
      | Some instrInfo =>
          match shouldMemo instrInfo with
          | Some true => Some (id, blockInstr)
          | _ => mainOperationOf info members'
          end
      | None => mainOperationOf info members'
      end
  end.

(** [const memoized<N> = useMemo(() => computation, [deps])] *)
Definition memoDeclaration (memoIndex : nat) (computation : Node)
    (depNames : list string) : Node :=
  VariableDeclaration "const"
    [VariableDeclarator
       (LIdentifier ("memoized" ++ natToString memoIndex)%string)
       (Some (CallExpression (Identifier "useMemo")
                [ArrowFunctionExpression [] computation;
                 ArrayExpression (map Identifier depNames)]))].

(** One iteration of [for (const instr of prunedInstrs)]; the state is
    [statements] and [memoIndex]. *)
Definition codegenStep (func : FunctionBody) (info : ValueInfos)
    (state : list Node * nat) (instr : ReactiveInstruction)
  : Result (list Node * nat) :=
  let (statements, memoIndex) := state in
  match instr with
  | RBlock b =>
      if 0 <? JsSet.size (deps b) then
        match mainOperationOf info (instrs b) with
        | Some (_, mainOperation) =>
            let depNames := getDependencyNames (deps b) func in
            computation <- instrToExpression mainOperation func ;;
            Ok (statements ++ [memoDeclaration memoIndex computation depNames],
                memoIndex + 1)
        | None => Ok state
        end
      else Ok state
  | RInstr _ _ => Ok state
  end.

Definition codegenFrom (func : FunctionBody) (info : ValueInfos)
    (reactiveInstrs : list ReactiveInstruction) : Result (list Node) :=
  state <- foldM (codegenStep func info) (map pruneBlock reactiveInstrs) ([], 0) ;;
  Ok (fst state).

Definition codegenJS (func : FunctionBody) (info : ValueInfos)
  : option (Result (list Node)) :=
  match makeReactiveInstrs func info with
  | Some r => Some (reactiveInstrs <- r ;; codegenFrom func info reactiveInstrs)
  | None => None
  end.

(* ================================================================== *)
(** ** index.ts *)

(** [traverse] of [extractIdentifiers]: the names pushed, in order. *)
Fixpoint traverse (n : Node) : list string :=
  match n with
  | Identifier name => [name]
  | MemberExpression object property computed =>
      traverse object ++ (if computed then traverse property else [])
  | CallExpression callee arguments =>
      traverse callee ++ flat_map traverse arguments
  | ArrowFunctionExpression _ body | FunctionExpression _ body =>
      match body with
      | BlockStatement stmts => flat_map traverse stmts
      | _ => traverse body
      end
  | ObjectExpression properties =>
      flat_map (fun prop =>
                  match prop with
                  | ObjectProperty _ value => traverse value
                  | SpreadElement argument => traverse argument
                  | _ => []
                  end) properties
  | BinaryExpression _ lhs rhs => traverse lhs ++ traverse rhs
  | ReturnStatement (Some argument) => traverse argument
  | _ => []
  end.

Definition extractIdentifiers (node : Node) : list string :=
  JsSet.of_list (traverse node).

(** The test shared by [hasExpensiveOperation] and the rewrite loop: the
    initializer is a call of a member whose property is an identifier naming
    an expensive method. *)
Definition isExpensiveMethodCall (init : Node) : bool :=
  match init with
  | CallExpression (MemberExpression _ (Identifier name) _) _ =>
      strIn name expensiveMethods
  | _ => false
  end.

Definition hasExpensiveOperation (declarations : list Node) : bool :=
  existsb (fun decl =>
             match decl with
             | VariableDeclarator _ (Some init) => isExpensiveMethodCall init
             | _ => false
             end) declarations.

Definition excludeList : list string :=
  ["item"; "Math"; "console"; "window"; "document"]%string.

Definition memoDependencies (originalCall : Node) : list string :=
  filter (fun id => negb (strIn id excludeList)) (extractIdentifiers originalCall).

(** [decl.init = memoCall] *)
Definition rewriteDeclarator (decl : Node) : Node :=
  match decl with
  | VariableDeclarator id (Some originalCall) =>
      if isExpensiveMethodCall originalCall then
        VariableDeclarator id
          (Some (CallExpression (Identifier "useMemo")
                   [ArrowFunctionExpression [] originalCall;
                    ArrayExpression
                      (map Identifier (memoDependencies originalCall))]))
      else decl
  | _ => decl
  end.

(** Step 4 on one statement of the body. *)
Definition rewriteStatement (stmt : Node) : Node :=
  match stmt with
  | VariableDeclaration kind declarations =>
      if hasExpensiveOperation declarations
      then VariableDeclaration kind (map rewriteDeclarator declarations)
      else stmt
  | _ => stmt
  end.

Definition statementRewritten (stmt : Node) : bool :=
  match stmt with
  | VariableDeclaration _ declarations => hasExpensiveOperation declarations
  | _ => false
  end.

Record Compiled := mkCompiled {
  out_body : list Node;
  hasAnyOptimizations : bool
}.

(** The [FunctionDeclaration] visitor, steps 1 to 4 and 6: the new body of
    the function. *)
Definition compileFunction (func : FunctionDeclaration)
  : option (Result Compiled) :=
  match readInstructions func with
  | Throw msg => Some (Throw msg)
  | Ok (instrs, _) =>
      match analyze instrs with
      | Throw msg => Some (Throw msg)
      | Ok info =>
          match codegenJS instrs info with
          | None => None
          | Some (Throw msg) => Some (Throw msg)
          | Some (Ok generatedBody) =>
              let originalBody := map rewriteStatement (fn_body func) in
              Some (Ok {| out_body :=
                            match generatedBody with
                            | [] => originalBody
                            | _ => generatedBody ++ originalBody
                            end;
                          hasAnyOptimizations :=
                            (0 <? length generatedBody)
                            || existsb statementRewritten (fn_body func) |})
          end
      end
  end.

(* ================================================================== *)
(** ** The specification's vocabulary *)

(** The may-change set as the specification words it, for the instructions
    swept so far: an instruction is may-change when it is a seed (a [Param]
    or a hook call), or when it consumes an id that was may-change before it
    was swept; what was may-change stays so. *)
Inductive MayChangeAfter (func : FunctionBody)
  : list (InstrId * Instruction) -> InstrId -> Prop :=
| mc_seed swept id instr :
    isParam instr || isHookCall instr func = true ->
    MayChangeAfter func (swept ++ [(id, instr)]) id
| mc_propagate swept id instr used :
    In used (eachValue instr) ->
    MayChangeAfter func swept used ->
    MayChangeAfter func (swept ++ [(id, instr)]) id
| mc_earlier swept entry id :
    MayChangeAfter func swept id ->
    MayChangeAfter func (swept ++ [entry]) id.

Definition MayChange (func : FunctionBody) (id : InstrId) : Prop :=
  MayChangeAfter func func id.

(** What step 1 of [analyze] records for an instruction. *)
Definition infoOf (func : FunctionBody) (instr : Instruction) : ValueInfo :=
  let ds := dependenciesOf (getValuesThatMayChange func) instr in
  {| shouldMemo := Some (isExpensiveOperation instr func && (0 <? JsSet.size ds));
     dependencies := Some ds;
     instructions := None |}.

(** The part of a [ValueInfo] that step 2 of [analyze] never writes. *)
Definition memoPart (info : ValueInfo) : option (list InstrId) * option bool :=
  (dependencies info, shouldMemo info).

Definition sameMemoPart (r r' : ValueInfos) : Prop :=
  JsMap.keys r' = JsMap.keys r /\
  forall id, option_map memoPart (JsMap.get r' id) = option_map memoPart (JsMap.get r id).

(** Babel's node types keep statements, declarators and object members
    out of the places whose value the compiler lowers to an operand (the
    object of a member access, a callee, an argument, a property value, an
    initializer, the argument of a [return], the expression of an expression
    statement). *)
Definition isOperand (n : Node) : bool :=
  match n with
  | ReturnStatement _ | VariableDeclaration _ _ | VariableDeclarator _ _
  | ExpressionStatement _ | BlockStatement _ | ObjectProperty _ _ => false
  | _ => true
  end.

Fixpoint wellTyped (n : Node) : bool :=
  match n with
  | MemberExpression object _ _ => isOperand object && wellTyped object
  | ObjectExpression properties =>
      forallb (fun prop =>
                 match prop with
                 | ObjectProperty _ value => isOperand value && wellTyped value
                 | _ => true
                 end) properties
  | CallExpression callee arguments =>
      isOperand callee && wellTyped callee
      && forallb (fun arg => isOperand arg && wellTyped arg) arguments
  | ReturnStatement (Some argument) => isOperand argument && wellTyped argument
  | VariableDeclaration _ declarations =>
      forallb (fun decl =>
                 match decl with
                 | VariableDeclarator _ (Some init) => isOperand init && wellTyped init
                 | _ => true
                 end) declarations
  | ExpressionStatement expression => isOperand expression && wellTyped expression
  | _ => true
  end.

(** The number of nodes a lowering visits at most; proofs about
    [lowerBabelInstr] go by induction on it. *)
Fixpoint nodeSize (n : Node) : nat :=
  match n with
  | MemberExpression object _ _ => S (nodeSize object)
  | ObjectExpression properties => S (list_sum (map nodeSize properties))
  | ObjectProperty _ value => S (nodeSize value)
  | CallExpression callee arguments =>
      S (nodeSize callee + list_sum (map nodeSize arguments))
  | ReturnStatement (Some argument) => S (nodeSize argument)
  | VariableDeclaration _ declarations => S (list_sum (map nodeSize declarations))
  | VariableDeclarator _ (Some init) => S (nodeSize init)
  | ExpressionStatement expression => S (nodeSize expression)
  | _ => 1
  end.

(** Ids are positions: the keys are [0 .. size-1] in order. *)
Definition dense {V} (m : list (InstrId * V)) : Prop :=
  JsMap.keys m = seq 0 (length m).

(** Every operand reference is to a strictly smaller id. *)
Definition backRefs (func : FunctionBody) : Prop :=
  forall id instr, In (id, instr) func ->
  forall used, In used (eachValue instr) -> used < id.

Definition valueBelow (n : nat) (v : Value) : Prop :=
  match v with
  | RValue id => id < n
  | LiteralValue _ => True
  end.

(** A lowered body is well formed when its ids are dense and no instruction
    refers forward. *)
Definition wellFormed (func : FunctionBody) : Prop := dense func /\ backRefs func.

(** What lowering one node guarantees. *)
Definition LowerOk (lower : Node -> Lower InstrId) (n : Node) : Prop :=
  forall st id st',
    wellFormed (st_body st) -> wellTyped n = true ->
    lower n st = Ok (id, st') ->
    wellFormed (st_body st') /\
    length (st_body st) <= length (st_body st') /\
    (isOperand n = true -> id < length (st_body st')).

(** The node kinds [lowerBabelInstr] has no branch for: they reach its
    fallback. *)
Definition isUnmodeled (n : Node) : bool :=
  match n with
  | ObjectProperty _ _ | SpreadElement _ | BlockStatement _
  | BinaryExpression _ _ _ | ArrayExpression _ | VariableDeclarator _ _
  | OtherNode _ => true
  | _ => false
  end.

(** An instruction that binds [name]: what [getDeclaration] looks for. *)
Definition declares (name : string) (instr : Instruction) : bool :=
  match instr with
  | Declare_ lhs _ => String.eqb lhs name
  | Param n => String.eqb n name
  | _ => false
  end.

(** *** The disjoint-set, abstractly *)

(** [Root ds x r]: following parent links from [x] ends at the root [r]. *)
Inductive Root (ds : DisjointSet) : InstrId -> InstrId -> Prop :=
| Root_self x :
    JsMap.get (parent ds) x = Some x -> Root ds x x
| Root_step x p r :
    JsMap.get (parent ds) x = Some p -> p <> x -> Root ds p r -> Root ds x r.

Definition SameSet (ds : DisjointSet) (x y : InstrId) : Prop :=
  exists r, Root ds x r /\ Root ds y r.

(** The invariant of the structure: parents are members, ranks grow
    strictly along parent links, only members have a rank. *)
Record DisjointSetInv (ds : DisjointSet) : Prop := {
  inv_closed : forall x p, JsMap.get (parent ds) x = Some p ->
                           In p (JsMap.keys (parent ds));
  inv_rank : forall x p, JsMap.get (parent ds) x = Some p -> p <> x ->
                         rankOf ds x < rankOf ds p;
  inv_rank_keys : forall x, In x (JsMap.keys (rank ds)) ->
                            In x (JsMap.keys (parent ds));
  inv_NoDup : NoDup (JsMap.keys (parent ds))
}.

(** The equivalence generated by a list of unions: [Connected edges x y]
    when a chain of the unions, in either direction, links [x] to [y]. *)
Inductive Connected (edges : list (InstrId * InstrId))
  : InstrId -> InstrId -> Prop :=
| Connected_refl x : Connected edges x x
| Connected_edge a b : In (a, b) edges -> Connected edges a b
| Connected_sym x y : Connected edges x y -> Connected edges y x
| Connected_trans x y z :
    Connected edges x y -> Connected edges y z -> Connected edges x z.

(** What [find] guarantees. *)
Definition FindPost (ds : DisjointSet) (x : InstrId)
    (ds' : DisjointSet) (r : InstrId) : Prop :=
  DisjointSetInv ds' /\
  Root ds' x r /\
  (forall y ry, Root ds y ry -> Root ds' y ry) /\
  JsMap.keys (parent ds') =
    (if JsMap.has (parent ds) x then JsMap.keys (parent ds)
     else JsMap.keys (parent ds) ++ [x]) /\
  (forall y, rankOf ds' y = rankOf ds y) /\
  maxRank ds' = maxRank ds /\
  (JsMap.has (parent ds) x = false -> r = x).

(** The structure represents the equivalence generated by [edges]: two
    members are in the same set exactly when they are connected, and the
    unions made so far are between members. *)
Definition Represents (ds : DisjointSet) (edges : list (InstrId * InstrId)) : Prop :=
  (forall a b, In (a, b) edges ->
     In a (JsMap.keys (parent ds)) /\ In b (JsMap.keys (parent ds))) /\
  (forall x y, SameSet ds x y <->
     In x (JsMap.keys (parent ds)) /\ In y (JsMap.keys (parent ds)) /\
     Connected edges x y).

(** [info.instructions || new Set()]: the mutator set of an instruction. *)
Definition mutatorsOf (info : ValueInfo) : list InstrId :=
  match instructions info with Some s => s | None => [] end.




(** The pairs [union(items)] passes to [unionTwo], latest first. *)
Definition unionEdges (items : list InstrId) : list (InstrId * InstrId) :=
  match items with
  | first :: (_ :: _) as rest => rev (map (pair first) rest)
  | _ => []
  end.

(** The pairs one iteration of [getInstructionScopeRanges]'s loop unites. *)
Definition stepEdges (valuesInfo : ValueInfos) (entry : InstrId * Instruction)
  : list (InstrId * InstrId) :=
  match JsMap.get valuesInfo (fst entry) with
  | Some info =>
      if shouldMemoize info then unionEdges (mutatorsOf info ++ [fst entry])
      else []
  | None => []
  end.

(** [groups.get(root)], or no member yet. *)
Definition membersOf (groups : list (InstrId * list InstrId)) (root : InstrId)
  : list InstrId :=
  match JsMap.get groups root with Some g => g | None => [] end.

(** Spans in ascending order, each ending before the next one starts. *)
Inductive Ascending : list Range -> Prop :=
| Ascending_nil : Ascending []
| Ascending_one r : Ascending [r]
| Ascending_cons r1 r2 l :
    r_end r1 < r_start r2 -> Ascending (r2 :: l) -> Ascending (r1 :: r2 :: l).

Definition startsLe (a b : Range) : Prop := r_start a <= r_start b.

(** [inner] lies within [outer]. *)
Definition within (inner outer : Range) : Prop :=
  r_start outer <= r_start inner /\ r_end inner <= r_end outer.

(** What a reactive sequence holds, in order: a pass-through instruction
    is one entry, a block is the entries of its [instrs]. *)
Definition entriesOf (hir : list ReactiveInstruction) : list (InstrId * Instruction) :=
  flat_map (fun ri => match ri with
                      | RInstr id instr => [(id, instr)]
                      | RBlock b => instrs b
                      end) hir.

(** The entries of [func] at the ids [ids], in that order. *)
Definition entriesIn (func : FunctionBody) (ids : list InstrId)
  : list (InstrId * Instruction) :=
  flat_map (fun i => match JsMap.get func i with
                     | Some instr => [(i, instr)]
                     | None => []
                     end) ids.

Definition isBlock (ri : ReactiveInstruction) : bool :=
  match ri with
  | RBlock _ => true
  | RInstr _ _ => false
  end.

(** No [Param] and no hook call: nothing seeds the may-change sweep. *)
Definition noSeed (func : FunctionBody) : bool :=
  forallb (fun entry : InstrId * Instruction =>
             negb (isParam (snd entry) || isHookCall (snd entry) func)) func.

(** A memo declaration, as [codegenJS] builds it for one block. *)
Definition isMemoDeclarationOf (func : FunctionBody) (info : ValueInfos)
    (hir : list ReactiveInstruction) (stmt : Node) : Prop :=
  exists memoIndex block id mainOperation computation,
    In (RBlock block) hir /\
    In (id, mainOperation) (instrs block) /\
    (exists instrInfo, JsMap.get info id = Some instrInfo /\
                       shouldMemo instrInfo = Some true) /\
    instrToExpression mainOperation func = Ok computation /\
    stmt = memoDeclaration memoIndex computation
             (getDependencyNames
                (filter (fun dep => negb (JsMap.has (instrs block) dep)) (deps block))
                func).

(** The direct structural equivalent of an instruction, rebuilt recursively
    from its operands: a [Call] is a call expression, on a member of the
    receiver when the call names a method; an [Object] is an object literal
    with identifier keys; a [ReadProperty] is a member access, computed when
    the property is a number; a [LoadConstant] is a bare identifier. A
    literal operand is the literal itself. [Declare], [Return] and [Param]
    are statements and binders: they have no expression form, and nothing is
    asked of an expression standing for one. *)
Inductive hasShapeOf (func : FunctionBody) : Instruction -> Node -> Prop :=
| shape_Call receiver property arguments receiverInstr target args :
    JsMap.get func receiver = Some receiverInstr ->
    hasShapeOf func receiverInstr target ->
    Forall2 (valueHasShape func) arguments args ->
    hasShapeOf func (Call receiver property arguments)
      (CallExpression
         (match property with
          | Some (String c p) =>
              MemberExpression target (Identifier (String c p)) false
          | _ => target
          end) args)
| shape_Object properties props :
    Forall2 (propertyHasShape func) properties props ->
    hasShapeOf func (Object properties) (ObjectExpression props)
| shape_ReadProperty object property objectInstr obj :
    JsMap.get func object = Some objectInstr ->
    hasShapeOf func objectInstr obj ->
    hasShapeOf func (ReadProperty object property)
      (match property with
       | PropString p => MemberExpression obj (Identifier p) false
       | PropNumber n => MemberExpression obj (NumericLiteral n) true
       end)
| shape_LoadConstant variableName :
    hasShapeOf func (LoadConstant variableName) (Identifier variableName)
| shape_Declare lhs rhs e : hasShapeOf func (Declare_ lhs rhs) e
| shape_Return value e : hasShapeOf func (Return value) e
| shape_Param name e : hasShapeOf func (Param name) e
with valueHasShape (func : FunctionBody) : Value -> Node -> Prop :=
| shape_literal l : valueHasShape func (LiteralValue l) (literalNode l)
| shape_rvalue id instr e :
    JsMap.get func id = Some instr ->
    hasShapeOf func instr e ->
    valueHasShape func (RValue id) e
with propertyHasShape (func : FunctionBody) : string * Value -> Node -> Prop :=
| shape_property key value valueExpr :
    valueHasShape func value valueExpr ->
    propertyHasShape func (key, value)
      (ObjectProperty (Identifier key) valueExpr).

(* ================================================================== *)
(** ** Example programs *)

(** [function F(a, b) { const c = a.map(x => x * b); return c; }] *)
Definition scenarioA : FunctionDeclaration :=
  {| fn_id := Some "F"%string;
     fn_params := [ParamIdentifier "a"; ParamIdentifier "b"];
     fn_body :=
       [VariableDeclaration "const"
          [VariableDeclarator (LIdentifier "c")
             (Some (CallExpression
                      (MemberExpression (Identifier "a") (Identifier "map") false)
                      [ArrowFunctionExpression [ParamIdentifier "x"]
                         (BinaryExpression "*" (Identifier "x") (Identifier "b"))]))];
        ReturnStatement (Some (Identifier "c"))] |}.

(** The lowering of [scenarioA]. *)
Definition scenarioA_body : FunctionBody :=
  [(0, Param "a"); (1, Param "b"); (2, LoadConstant "function");
   (3, Call 0 (Some "map"%string) [RValue 2]); (4, Declare_ "c" 3);
   (5, Return (Some 4))].

(** [function G(n) { return Math.sqrt(n); }] *)
Definition mathSqrt : FunctionDeclaration :=
  {| fn_id := Some "G"%string;
     fn_params := [ParamIdentifier "n"];
     fn_body :=
       [ReturnStatement
          (Some (CallExpression
                   (MemberExpression (Identifier "Math") (Identifier "sqrt") false)
                   [Identifier "n"]))] |}.

Definition mathSqrt_body : FunctionBody :=
  [(0, Param "n"); (1, LoadConstant "Math");
   (2, Call 1 (Some "sqrt"%string) [RValue 0]); (3, Return (Some 2))].

(** [function H(x) { var x = g; return x; }] *)
Definition redeclared : FunctionDeclaration :=
  {| fn_id := Some "H"%string;
     fn_params := [ParamIdentifier "x"];
     fn_body :=
       [VariableDeclaration "var"
          [VariableDeclarator (LIdentifier "x") (Some (Identifier "g"))];
        ReturnStatement (Some (Identifier "x"))] |}.

(** [function K() { const c = arr.map(f); return c; }] *)
Definition noParams : FunctionDeclaration :=
  {| fn_id := Some "K"%string;
     fn_params := [];
     fn_body :=
       [VariableDeclaration "const"
          [VariableDeclarator (LIdentifier "c")
             (Some (CallExpression
                      (MemberExpression (Identifier "arr") (Identifier "map") false)
                      [Identifier "f"]))];
        ReturnStatement (Some (Identifier "c"))] |}.

(** [function R() { return x; }] *)
Definition returnsGlobal : FunctionDeclaration :=
  {| fn_id := Some "R"%string;
     fn_params := [];
     fn_body := [ReturnStatement (Some (Identifier "x"))] |}.

(** The lowering of [redeclared]. *)
Definition redeclared_body : FunctionBody :=
  [(0, Param "x"); (1, LoadConstant "g"); (2, Declare_ "x" 1);
   (3, Return (Some 0))].

(** [function V() { let v; }] *)
Definition noInitializer : FunctionDeclaration :=
  {| fn_id := Some "V"%string;
     fn_params := [];
     fn_body := [VariableDeclaration "let" [VariableDeclarator (LIdentifier "v") None]] |}.

(** [function P({ "k": v }) { }] *)
Definition stringKeyParam : FunctionDeclaration :=
  {| fn_id := Some "P"%string;
     fn_params := [ParamObjectPattern [PatObjectProperty (KeyOther "StringLiteral")]];
     fn_body := [] |}.

(** [function M(a) { return g({ x: a }); }] *)
Definition memoExample : FunctionDeclaration :=
  {| fn_id := Some "M"%string;
     fn_params := [ParamIdentifier "a"];
     fn_body :=
       [ReturnStatement
          (Some (CallExpression (Identifier "g")
                   [ObjectExpression
                      [ObjectProperty (Identifier "x") (Identifier "a")]]))] |}.

Definition memoExample_body : FunctionBody :=
  [(0, Param "a"); (1, LoadConstant "g");
   (2, Object [("x"%string, RValue 0)]); (3, Call 1 None [RValue 2]);
   (4, Return (Some 3))].

(** The analysis of [memoExample_body]. *)
Definition memoExample_info : ValueInfos :=
  [(0, {| dependencies := Some []; instructions := None; shouldMemo := Some false |});
   (1, {| dependencies := Some []; instructions := None; shouldMemo := Some false |});
   (2, {| dependencies := Some [0]; instructions := Some [3]; shouldMemo := Some true |});
   (3, {| dependencies := Some [2]; instructions := None; shouldMemo := Some false |});
   (4, {| dependencies := Some [3]; instructions := None; shouldMemo := Some false |})].

(** The lowering of [noParams]. *)
Definition noParams_body : FunctionBody :=
  [(0, LoadConstant "arr"); (1, LoadConstant "f");
   (2, Call 0 (Some "map"%string) [RValue 1]); (3, Declare_ "c" 2);
   (4, Return (Some 3))].

(** The lowering of [returnsGlobal]. *)
Definition returnsGlobal_body : FunctionBody :=
  [(0, LoadConstant "x"); (1, Return (Some 0))].

Definition returnsGlobal_info : ValueInfos :=
  [(0, {| dependencies := Some []; instructions := None; shouldMemo := Some false |});
   (1, {| dependencies := Some []; instructions := None; shouldMemo := Some false |})].

(** [a.map(x => x * b)], the initializer of [c] in [scenarioA]. *)
Definition scenarioA_call : Node :=
  CallExpression
    (MemberExpression (Identifier "a") (Identifier "map") false)
    [ArrowFunctionExpression [ParamIdentifier "x"]
       (BinaryExpression "*" (Identifier "x") (Identifier "b"))].

(** The analysis of [scenarioA_body]. *)
Definition scenarioA_info : ValueInfos :=
  [(0, {| dependencies := Some []; instructions := None; shouldMemo := Some false |});
   (1, {| dependencies := Some []; instructions := None; shouldMemo := Some false |});
   (2, {| dependencies := Some []; instructions := None; shouldMemo := Some false |});
   (3, {| dependencies := Some [0]; instructions := None; shouldMemo := Some true |});
   (4, {| dependencies := Some [3]; instructions := None; shouldMemo := Some false |});
   (5, {| dependencies := Some [4]; instructions := None; shouldMemo := Some false |})].

(* ================================================================== *)
(** ** Further vocabulary *)

(** The instructions [logInstr] printed, in the order of the log. *)
Definition loggedInstrs (log : list LogLine) : list (InstrId * Instruction) :=
  flat_map (fun line => match line with
                        | LogInstr id instr => [(id, instr)]
                        | _ => []
                        end) log.

(** [st'] is [st] with instructions appended at the next ids, each of them
    logged. *)
Definition Grows (st st' : LowerState) : Prop :=
  dense (st_body st) ->
  exists added,
    st_body st' = st_body st ++ added /\
    dense (st_body st') /\
    loggedInstrs (st_console st') = loggedInstrs (st_console st) ++ added.

(** A lowering computation that only appends. *)
Definition Appends {A} (m : Lower A) : Prop :=
  forall st a st', m st = Ok (a, st') -> Grows st st'.

(** The names bound by the parameters, in order: an identifier, or the keys
    of a destructured object. *)
Definition paramNames (params : list FunctionParam) : list string :=
  flat_map (fun param =>
              match param with
              | ParamIdentifier name => [name]
              | ParamObjectPattern properties =>
                  flat_map (fun property =>
                              match property with
                              | PatObjectProperty (KeyIdentifier name) => [name]
                              | _ => []
                              end) properties
              | ParamOther _ => []
              end) params.

(** Values numbered from [k] on. *)
Fixpoint indexedFrom {V} (k : nat) (l : list V) : list (InstrId * V) :=
  match l with
  | [] => []
  | v :: l' => (k, v) :: indexedFrom (S k) l'
  end.

(** The writable set in the words of [getWritableValues]: an instruction is
    writable when it is an [Object] or a [Call], or when it consumes an id
    that was writable before it was swept. *)
Inductive WritableAfter : list (InstrId * Instruction) -> InstrId -> Prop :=
| wr_seed swept id instr :
    isObjectOrCall instr = true ->
    WritableAfter (swept ++ [(id, instr)]) id
| wr_propagate swept id instr used :
    In used (eachValue instr) ->
    WritableAfter swept used ->
    WritableAfter (swept ++ [(id, instr)]) id
| wr_earlier swept entry id :
    WritableAfter swept id ->
    WritableAfter (swept ++ [entry]) id.

Definition isCall (instr : Instruction) : bool :=
  match instr with
  | Call _ _ _ => true
  | _ => false
  end.

(** [calcShouldMemo] of Transform.ts, which the printer uses. *)
Definition calcShouldMemo (info : ValueInfo) : bool :=
  match shouldMemo info with
  | Some b => b
  | None =>
      match dependencies info with
      | Some ds => 0 <? JsSet.size ds
      | None => false
      end
  end.

(** [info.dependencies], read as a list. *)
Definition dependenciesList (info : ValueInfo) : list InstrId :=
  match dependencies info with Some ds => ds | None => [] end.

(** The calls of [func] that consume [used]. *)
Definition CallConsuming (func : FunctionBody) (used m : InstrId) : Prop :=
  exists instr, In (m, instr) func /\ isCall instr = true /\
                In used (eachValue instr).

(** A disjoint-set as its clients build it: [new DisjointSet()] followed by
    any sequence of [union] calls. *)
Definition unions (calls : list (list InstrId)) : option DisjointSet :=
  foldO union calls emptyDisjointSet.

(** The instruction id [i] lies in the span. *)
Definition covers (r : Range) (i : InstrId) : Prop :=
  r_start r <= i <= r_end r.

(** The dependencies of a block that [codegenJS] keeps: those produced
    outside the block. *)
Definition prunedDeps (b : ReactiveBlock) : list InstrId :=
  filter (fun dep => negb (JsMap.has (instrs b) dep)) (deps b).

(** The ids of a span. *)
Definition idsOf (scope : Range) : list InstrId :=
  seq (r_start scope) (S (r_end scope) - r_start scope).

(* ================================================================== *)
(** ** index.ts, step 5: the import of [useMemo] *)

(** [spec.imported] of an [ImportSpecifier]. *)
Inductive ModuleExportName :=
| ExportIdentifier (name : string)
| ExportStringLiteral (value : string).

Inductive ImportSpecifierNode :=
| ImportSpecifier (local : string) (imported : ModuleExportName)
| ImportDefaultSpecifier (local : string)
| ImportNamespaceSpecifier (local : string).

(** The statements of a [Program]: the import declarations, and the others,
    which step 5 does not look into. *)
Inductive ProgramStatement :=
| ImportDeclaration (specifiers : list ImportSpecifierNode) (source : string)
| OtherStatement (node : Node).

(** [specifiers.some(spec => spec.type === "ImportSpecifier" &&
      spec.imported.type === "Identifier" && spec.imported.name === name)] *)
Definition importsName (name : string) (specifiers : list ImportSpecifierNode)
  : bool :=
  existsb (fun spec =>
             match spec with
             | ImportSpecifier _ (ExportIdentifier imported) =>
                 String.eqb imported name
             | _ => false
             end) specifiers.

(** [t.importSpecifier(t.identifier(name), t.identifier(name))] *)
Definition namedSpecifier (name : string) : ImportSpecifierNode :=
  ImportSpecifier name (ExportIdentifier name).

(** [if (!has) reactImport.specifiers.push(...)] *)
Definition ensureImported (name : string) (specifiers : list ImportSpecifierNode)
  : list ImportSpecifierNode :=
  if importsName name specifiers then specifiers
  else specifiers ++ [namedSpecifier name].

Definition isReactImport (stmt : ProgramStatement) : bool :=
  match stmt with
  | ImportDeclaration _ source => String.eqb source "react"
  | OtherStatement _ => false
  end.

(** [program.node.body.find(...)] and the update, in place, of the
    specifiers of the declaration it returns; [None] when it finds none. *)
Fixpoint updateReactImport (body : list ProgramStatement)
  : option (list ProgramStatement) :=
  match body with
  | [] => None
  | stmt :: body' =>
      match stmt with
      | ImportDeclaration specifiers source =>
          if String.eqb source "react" then
            Some (ImportDeclaration
                    (ensureImported "useState"
                       (ensureImported "useMemo" specifiers))
                    source :: body')
          else option_map (cons stmt) (updateReactImport body')
      | OtherStatement _ => option_map (cons stmt) (updateReactImport body')
      end
  end.

(** Step 5, on the body of the program. *)
Definition addUseMemoImport (hasAnyOptimizations : bool)
    (body : list ProgramStatement) : list ProgramStatement :=
  if hasAnyOptimizations then
    match updateReactImport body with
    | Some body' => body'
    | None => ImportDeclaration [namedSpecifier "useMemo"] "react" :: body
    end
  else body.

(** The first import declaration from ["react"]. *)
Definition reactImport (body : list ProgramStatement)
  : option (list ImportSpecifierNode) :=
  match List.find isReactImport body with
  | Some (ImportDeclaration specifiers _) => Some specifiers
  | _ => None
  end.

(* ================================================================== *)
(** ** What lowers

    The syntax on which [lowerBabelInstr] does not throw, read off its
    [assertsValid] calls and [throw] statements. *)

Section LowerableLoops.
Variable lowerable : Node -> bool.

(** A member of an object literal: an [ObjectProperty] needs an identifier
    key; other members are skipped. *)
Definition propertyLowerable (prop : Node) : bool :=
  match prop with
  | ObjectProperty (Identifier _) value => lowerable value
  | ObjectProperty _ _ => false
  | _ => true
  end.

(** A declarator needs an initializer; under a pattern that is skipped the
    initializer is not lowered. *)
Definition declaratorLowerable (decl : Node) : bool :=
  match decl with
  | VariableDeclarator (LOther _) (Some _) => true
  | VariableDeclarator _ (Some init) => lowerable init
  | VariableDeclarator _ None => false
  | _ => true
  end.
End LowerableLoops.

Definition propertyNameSupported (property : Node) : bool :=
  match property with
  | Identifier _ | NumericLiteral _ | StringLiteral _ => true
  | _ => false
  end.

Definition isIdentifier (n : Node) : bool :=
  match n with
  | Identifier _ => true
  | _ => false
  end.

Fixpoint lowerable (n : Node) : bool :=
  match n with
  | MemberExpression object property _ =>
      lowerable object && propertyNameSupported property
  | ObjectExpression properties =>
      forallb (propertyLowerable lowerable) properties
  | CallExpression callee arguments =>
      match callee with
      | MemberExpression object property _ =>
          lowerable object && isIdentifier property
      | _ => lowerable callee
      end && forallb lowerable arguments
  | ReturnStatement (Some argument) => lowerable argument
  | VariableDeclaration _ declarations =>
      forallb (declaratorLowerable lowerable) declarations
  | ExpressionStatement expression => lowerable expression
  | _ => true
  end.

Definition patternPropertyLowerable (property : PatternProperty) : bool :=
  match property with
  | PatObjectProperty (KeyIdentifier _) => true
  | _ => false
  end.

Definition paramLowerable (param : FunctionParam) : bool :=
  match param with
  | ParamIdentifier _ => true
  | ParamObjectPattern properties => forallb patternPropertyLowerable properties
  | ParamOther _ => false
  end.

(** A lowering computation returns on every state, or throws on every
    state. *)
Definition Decides {A} (m : Lower A) (returns : bool) : Prop :=
  forall st,
    if returns then exists a st', m st = Ok (a, st')
    else exists msg, m st = Throw msg.

(* ================================================================== *)
(** ** Further example programs *)

(** [function U(a, b) { return a[b + 1]; }] *)
Definition computedAccess : FunctionDeclaration :=
  {| fn_id := Some "U"%string;
     fn_params := [ParamIdentifier "a"; ParamIdentifier "b"];
     fn_body :=
       [ReturnStatement
          (Some (MemberExpression (Identifier "a")
                   (BinaryExpression "+" (Identifier "b") (NumericLiteral 1%Z))
                   true))] |}.

(** [function D(o) { const { p } = o; }] *)
Definition destructured : FunctionDeclaration :=
  {| fn_id := Some "D"%string;
     fn_params := [ParamIdentifier "o"];
     fn_body :=
       [VariableDeclaration "const"
          [VariableDeclarator (LOther "ObjectPattern")
             (Some (Identifier "o"))]] |}.

(** [function E(a) { return { ...a }; }] *)
Definition spreadMember : FunctionDeclaration :=
  {| fn_id := Some "E"%string;
     fn_params := [ParamIdentifier "a"];
     fn_body :=
       [ReturnStatement
          (Some (ObjectExpression [SpreadElement (Identifier "a")]))] |}.

(* ================================================================== *)
(** * Properties *)

(** ** Maps and sets *)

Section KeyFacts.
Context {K : Type} `{Key K}.

Lemma keq_refl (a : K) : keq a a = true.
Proof. now apply keq_spec. Qed.

Lemma keq_false (a b : K) : keq a b = false <-> a <> b.
Proof.
  split.
  - intros E Heq. apply keq_spec in Heq. congruence.
  - intros N. destruct (keq a b) eqn:E; [apply keq_spec in E; contradiction | reflexivity].
Qed.

Lemma keq_dec (a b : K) : {a = b} + {a <> b}.
Proof.
  destruct (keq a b) eqn:E.
  - left. now apply keq_spec.
  - right. now apply keq_false.
Qed.
End KeyFacts.

Section MapFacts.
Context {K V : Type} `{Key K}.
Implicit Types (m : list (K * V)) (k : K) (v : V).

Lemma get_set_same m k v : JsMap.get (JsMap.set m k v) k = Some v.
Proof.
  induction m as [|[k' v'] m IH]; simpl.
  - now rewrite keq_refl.
  - destruct (keq k k') eqn:E; simpl; rewrite ?keq_refl, ?E; auto.
Qed.

Lemma get_set_other m k k' v :
  k <> k' -> JsMap.get (JsMap.set m k v) k' = JsMap.get m k'.
Proof.
  intros N. induction m as [|[k0 v0] m IH]; simpl.
  - assert (keq k' k = false) as -> by (apply keq_false; congruence). reflexivity.
  - destruct (keq k k0) eqn:E; simpl.
    + apply keq_spec in E; subst k0.
      assert (keq k' k = false) as -> by (apply keq_false; congruence). reflexivity.
    + destruct (keq k' k0); auto.
Qed.

Lemma has_In m k : JsMap.has m k = true <-> In k (JsMap.keys m).
Proof.
  unfold JsMap.has. induction m as [|[k' v'] m IH]; simpl.
  - split; [discriminate | tauto].
  - destruct (keq k k') eqn:E.
    + apply keq_spec in E. subst. split; auto.
    + apply keq_false in E. rewrite IH. split; [auto | intros [?|?]; congruence].
Qed.

Lemma get_None m k : JsMap.get m k = None <-> ~ In k (JsMap.keys m).
Proof.
  rewrite <- has_In. unfold JsMap.has.
  destruct (JsMap.get m k); split; congruence.
Qed.

Lemma get_Some_In m k v : JsMap.get m k = Some v -> In (k, v) m.
Proof.
  induction m as [|[k' v'] m IH]; simpl; [discriminate|].
  destruct (keq k k') eqn:E.
  - apply keq_spec in E. intros [= ->]. subst. auto.
  - auto.
Qed.

Lemma In_get m k v : NoDup (JsMap.keys m) -> In (k, v) m -> JsMap.get m k = Some v.
Proof.
  induction m as [|[k' v'] m IH]; simpl; [tauto|].
  intros ND [E|I].
  - inversion E; subst. now rewrite keq_refl.
  - inversion ND; subst. destruct (keq k k') eqn:E.
    + apply keq_spec in E. subst. exfalso. apply H2.
      change k' with (fst (k', v)). now apply in_map.
    + auto.
Qed.

Lemma set_new m k v : ~ In k (JsMap.keys m) -> JsMap.set m k v = m ++ [(k, v)].
Proof.
  induction m as [|[k' v'] m IH]; simpl; auto.
  intros N. destruct (keq k k') eqn:E.
  - apply keq_spec in E. subst. tauto.
  - rewrite IH; auto.
Qed.

Lemma keys_set_old m k v : In k (JsMap.keys m) -> JsMap.keys (JsMap.set m k v) = JsMap.keys m.
Proof.
  induction m as [|[k' v'] m IH]; simpl; [tauto|].
  intros I. destruct (keq k k') eqn:E; simpl.
  - apply keq_spec in E. now subst.
  - apply keq_false in E. f_equal. apply IH. destruct I; congruence.
Qed.

Lemma keys_set m k v :
  JsMap.keys (JsMap.set m k v) =
    if JsMap.has m k then JsMap.keys m else JsMap.keys m ++ [k].
Proof.
  destruct (JsMap.has m k) eqn:E.
  - apply keys_set_old. now apply has_In.
  - rewrite set_new.
    + unfold JsMap.keys. now rewrite map_app.
    + rewrite <- has_In. congruence.
Qed.

Lemma keys_app m m' : JsMap.keys (m ++ m') = JsMap.keys m ++ JsMap.keys m'.
Proof. apply map_app. Qed.
End MapFacts.

Section SetFacts.
Context {T : Type} `{Key T}.
Implicit Types (s : list T) (x y : T).

Lemma set_has_In s x : JsSet.has s x = true <-> In x s.
Proof.
  unfold JsSet.has. rewrite existsb_exists. split.
  - intros (y & I & E). apply keq_spec in E. now subst.
  - intros I. exists x. split; auto. apply keq_refl.
Qed.

Lemma set_has_false s x : JsSet.has s x = false <-> ~ In x s.
Proof.
  rewrite <- set_has_In. destruct (JsSet.has s x); split; congruence.
Qed.

Lemma add_In s x y : In y (JsSet.add s x) <-> In y s \/ y = x.
Proof.
  unfold JsSet.add. destruct (JsSet.has s x) eqn:E.
  - apply set_has_In in E. split; [auto | intros [?| ->]; auto].
  - rewrite in_app_iff. simpl. split; intros [?|?]; auto.
    + destruct H0; [auto | tauto].
Qed.

Lemma add_NoDup s x : NoDup s -> NoDup (JsSet.add s x).
Proof.
  intros ND. unfold JsSet.add. destruct (JsSet.has s x) eqn:E; auto.
  apply set_has_false in E.
  apply NoDup_app; auto.
  - constructor; [simpl; tauto | constructor].
  - intros a Ia [<-|[]]. contradiction.
Qed.

Lemma add_incl s x : incl s (JsSet.add s x).
Proof. intros y I. apply add_In. auto. Qed.
End SetFacts.

(* ================================================================== *)
(** ** The dependency analyzer *)

Lemma markIfUses_In id instr marked x :
  In x (markIfUses id instr marked) <->
  In x marked \/ (x = id /\ exists used, In used (eachValue instr) /\ In used marked).
Proof.
  unfold markIfUses. generalize (eachValue instr) as l.
  intros l. revert marked. induction l as [|u l IH]; intros marked; simpl.
  - split; [auto | intros [?|(_ & ? & [] & _)]; auto].
  - rewrite IH. destruct (JsSet.has marked u) eqn:E.
    + apply set_has_In in E. split.
      * intros [I|(-> & used & Il & I)].
        -- apply add_In in I. destruct I as [I| ->]; eauto 6.
        -- right. split; auto. exists u. auto.
      * intros [I|(-> & used & Il & I)].
        -- left. apply add_In. auto.
        -- left. apply add_In. auto.
    + apply set_has_false in E. split.
      * intros [I|(-> & used & Il & I)]; eauto 7.
      * intros [I|(-> & used & [<-|Il] & I)]; eauto 7. contradiction.
Qed.

Lemma markIfUses_NoDup id instr marked :
  NoDup marked -> NoDup (markIfUses id instr marked).
Proof.
  unfold markIfUses. generalize (eachValue instr) as l.
  intros l. revert marked. induction l as [|u l IH]; intros marked ND; simpl; auto.
  apply IH. destruct (JsSet.has marked u); auto using add_NoDup.
Qed.

Lemma mayChangeStep_In func mayChange id instr x :
  In x (mayChangeStep func mayChange (id, instr)) <->
  In x mayChange \/
  (x = id /\ (isParam instr || isHookCall instr func = true \/
              exists used, In used (eachValue instr) /\ In used mayChange)).
Proof.
  unfold mayChangeStep. destruct (isParam instr || isHookCall instr func) eqn:E.
  - rewrite add_In. split; intros [?|?]; auto. right. tauto.
  - rewrite markIfUses_In. split; intros [?|(-> & ?)]; auto.
    right. split; auto. destruct H as [?|?]; [discriminate | auto].
Qed.

(** The sweep computes the may-change set of the specification. *)
Lemma sweep_MayChangeAfter func swept id :
  In id (fold_left (mayChangeStep func) swept []) <-> MayChangeAfter func swept id.
Proof.
  revert id. induction swept as [|[i instr] swept IH] using rev_ind; intros id.
  - simpl. split; [tauto|]. intros M. inversion M; subst;
      match goal with H : _ ++ [_] = [] |- _ => now destruct (app_cons_not_nil _ _ _ (eq_sym H)) end.
  - rewrite fold_left_app. cbn [fold_left]. rewrite mayChangeStep_In. split.
    + intros [I|(-> & [S|(used & Iu & I)])].
      * apply mc_earlier. now apply IH.
      * now apply mc_seed.
      * apply mc_propagate with used; auto. now apply IH.
    + intros M. inversion M as [sw j ins S E|sw j ins used Iu Mu E|sw e j Mj E]; subst;
        apply app_inj_tail in E; destruct E as [-> E].
      * inversion E; subst. auto.
      * inversion E; subst. right. split; auto. right. exists used. split; auto. now apply IH.
      * left. now apply IH.
Qed.

Lemma getValuesThatMayChange_spec func id :
  In id (getValuesThatMayChange func) <-> MayChange func id.
Proof. apply sweep_MayChangeAfter. Qed.

Lemma dependenciesOf_In mayChange instr u :
  In u (dependenciesOf mayChange instr) <->
  In u (eachValue instr) /\ In u mayChange.
Proof.
  unfold dependenciesOf.
  assert (G : forall l acc,
             In u (fold_left (fun ds used =>
                                if JsSet.has mayChange used then JsSet.add ds used else ds)
                             l acc) <->
             In u acc \/ (In u l /\ In u mayChange)).
  { induction l as [|x l IH]; intros acc; simpl.
    - tauto.
    - rewrite IH. destruct (JsSet.has mayChange x) eqn:E.
      + apply set_has_In in E. rewrite add_In. split.
        * intros [[?| ->]|[? ?]]; auto.
        * intros [?|[[->|?] ?]]; auto.
      + apply set_has_false in E. split.
        * intros [?|[? ?]]; auto.
        * intros [?|[[->|?] ?]]; auto. contradiction. }
  rewrite G. simpl. tauto.
Qed.

Lemma dependenciesOf_NoDup mayChange instr : NoDup (dependenciesOf mayChange instr).
Proof.
  unfold dependenciesOf.
  assert (G : forall l acc, NoDup acc ->
             NoDup (fold_left (fun ds used =>
                                 if JsSet.has mayChange used then JsSet.add ds used else ds)
                              l acc)).
  { induction l as [|x l IH]; intros acc ND; simpl; auto.
    apply IH. destruct (JsSet.has mayChange x); auto using add_NoDup. }
  apply G. constructor.
Qed.

Lemma analyzeStep1_fold func (l : FunctionBody) (acc : ValueInfos) :
  NoDup (JsMap.keys acc ++ JsMap.keys l) ->
  fold_left (analyzeStep1 func (getValuesThatMayChange func)) l acc =
  acc ++ map (fun e => (fst e, infoOf func (snd e))) l.
Proof.
  revert acc. induction l as [|[id instr] l IH]; intros acc ND; simpl.
  - now rewrite app_nil_r.
  - rewrite set_new.
    + rewrite IH.
      * now rewrite <- app_assoc.
      * rewrite keys_app. simpl. rewrite <- app_assoc. exact ND.
    + intros I. apply NoDup_remove_2 in ND. apply ND. apply in_or_app. auto.
Qed.

Lemma writableStep_In mw id instr x :
  In x (writableStep mw (id, instr)) -> In x mw \/ x = id.
Proof.
  unfold writableStep. destruct (isObjectOrCall instr).
  - now rewrite add_In.
  - rewrite markIfUses_In. tauto.
Qed.

Lemma getWritableValues_keys func x :
  In x (getWritableValues func) -> In x (JsMap.keys func).
Proof.
  unfold getWritableValues.
  assert (G : forall l acc, In x (fold_left writableStep l acc) ->
                            In x acc \/ In x (JsMap.keys l)).
  { induction l as [|[id instr] l IH]; intros acc I; simpl in *; auto.
    apply IH in I. destruct I as [I|I]; auto.
    apply writableStep_In in I. destruct I; auto. }
  intros I. apply G in I. destruct I as [[]|I]. exact I.
Qed.

Lemma sameMemoPart_refl r : sameMemoPart r r.
Proof. split; auto. Qed.

Lemma sameMemoPart_trans r1 r2 r3 :
  sameMemoPart r1 r2 -> sameMemoPart r2 r3 -> sameMemoPart r1 r3.
Proof.
  intros [K1 G1] [K2 G2]. split; [congruence|].
  intros id. now rewrite G2, G1.
Qed.

Lemma recordMutator_ok id result used :
  In used (JsMap.keys result) ->
  exists result', recordMutator id result used = Ok result' /\ sameMemoPart result result'.
Proof.
  intros I. unfold recordMutator.
  destruct (JsMap.get result used) as [info|] eqn:G.
  - eexists. split; [reflexivity|]. split.
    + now apply keys_set_old.
    + intros j. destruct (Nat.eq_dec used j) as [<-|N].
      * rewrite get_set_same, G. reflexivity.
      * now rewrite get_set_other.
  - apply get_None in G. contradiction.
Qed.

Lemma analyzeStep2_ok writable result entry :
  (forall x, In x writable -> In x (JsMap.keys result)) ->
  exists result', analyzeStep2 writable result entry = Ok result' /\
                  sameMemoPart result result'.
Proof.
  destruct entry as [id instr]. intros W. unfold analyzeStep2.
  assert (G : forall l res, sameMemoPart result res ->
    exists result',
      foldM (fun res used =>
               if JsSet.has writable used then recordMutator id res used else Ok res)
            l res = Ok result' /\ sameMemoPart result result').
  { induction l as [|u l IH]; intros res S; simpl.
    - eauto.
    - destruct (JsSet.has writable u) eqn:E.
      + apply set_has_In in E. apply W in E.
        destruct (@recordMutator_ok id res u) as (res' & -> & S').
        { destruct S as [-> _]. exact E. }
        simpl. apply IH. eapply sameMemoPart_trans; eauto.
      + simpl. now apply IH. }
  destruct instr; try (eexists; split; [reflexivity | apply sameMemoPart_refl]).
  apply G, sameMemoPart_refl.
Qed.

Lemma analyzeStep2_fold writable (l : FunctionBody) result :
  (forall x, In x writable -> In x (JsMap.keys result)) ->
  exists result', foldM (analyzeStep2 writable) l result = Ok result' /\
                  sameMemoPart result result'.
Proof.
  revert result. induction l as [|e l IH]; intros result W; simpl.
  - eexists. split; [reflexivity | apply sameMemoPart_refl].
  - destruct (@analyzeStep2_ok writable result e W) as (r1 & -> & S1). simpl.
    destruct (IH r1) as (r2 & E2 & S2).
    + intros x I. destruct S1 as [-> _]. auto.
    + exists r2. split; auto. eapply sameMemoPart_trans; eauto.
Qed.

(** [analyze] returns, and for every instruction of the body it holds the
    dependencies and the memoization flag that step 1 computed. *)
Lemma analyze_infoOf func :
  NoDup (JsMap.keys func) ->
  exists result,
    analyze func = Ok result /\
    JsMap.keys result = JsMap.keys func /\
    forall id instr, In (id, instr) func ->
      exists info, JsMap.get result id = Some info /\
                   memoPart info = memoPart (infoOf func instr).
Proof.
  intros ND. unfold analyze.
  rewrite analyzeStep1_fold by exact ND. simpl.
  set (r1 := map (fun e => (fst e, infoOf func (snd e))) func).
  assert (K1 : JsMap.keys r1 = JsMap.keys func).
  { unfold r1, JsMap.keys. rewrite map_map. reflexivity. }
  destruct (@analyzeStep2_fold (getWritableValues func) func r1) as (r & E & [K G]).
  { intros x I. rewrite K1. now apply getWritableValues_keys. }
  exists r. split; [exact E|]. split; [congruence|].
  intros id instr I.
  assert (G1 : JsMap.get r1 id = Some (infoOf func instr)).
  { apply In_get; [rewrite K1; exact ND|].
    unfold r1. apply in_map_iff. exists (id, instr). auto. }
  specialize (G id). rewrite G1 in G.
  destruct (JsMap.get r id) as [info|]; cbn [option_map] in G; [|discriminate].
  exists info. split; auto. congruence.
Qed.

(** C1. For a body with one entry per id, [analyze] returns a result in
    which every instruction's [dependencies] are exactly the ids it consumes
    that are may-change (the set swept forward from the [Param]s and the hook
    calls, as [MayChange] words it and as [getValuesThatMayChange] computes
    it), each listed once; and [shouldMemo] holds exactly when the
    instruction is expensive and that set is not empty. *)
Theorem analyze_dependencies_and_shouldMemo (func : FunctionBody) :
  NoDup (JsMap.keys func) ->
  exists result,
    analyze func = Ok result /\
    forall id instr, In (id, instr) func ->
      exists info ds,
        JsMap.get result id = Some info /\
        dependencies info = Some ds /\
        NoDup ds /\
        (forall used, In used ds <->
                      In used (eachValue instr) /\ MayChange func used) /\
        (forall used, MayChange func used <-> In used (getValuesThatMayChange func)) /\
        shouldMemo info =
          Some (isExpensiveOperation instr func && negb (Nat.eqb (length ds) 0)).
Proof.
  intros ND. destruct (@analyze_infoOf func ND) as (result & E & _ & G).
  exists result. split; [exact E|]. intros id instr I.
  destruct (G id instr I) as (info & Gi & M).
  exists info, (dependenciesOf (getValuesThatMayChange func) instr).
  unfold memoPart in M. simpl in M. injection M as Md Ms.
  split; [exact Gi|]. split; [exact Md|].
  split; [apply dependenciesOf_NoDup|].
  split; [|split].
  - intros used. rewrite dependenciesOf_In.
    now rewrite (getValuesThatMayChange_spec func used).
  - intros used. symmetry. apply getValuesThatMayChange_spec.
  - rewrite Ms. f_equal. f_equal. unfold JsSet.size.
    destruct (length (dependenciesOf (getValuesThatMayChange func) instr)); reflexivity.
Qed.

Lemma analyze_dependencies_and_shouldMemo_witness :
  NoDup (JsMap.keys scenarioA_body) /\
  exists result,
    analyze scenarioA_body = Ok result /\
    forall id instr, In (id, instr) scenarioA_body ->
      exists info ds,
        JsMap.get result id = Some info /\
        dependencies info = Some ds /\
        NoDup ds /\
        (forall used, In used ds <->
                      In used (eachValue instr) /\ MayChange scenarioA_body used) /\
        (forall used, MayChange scenarioA_body used <->
                      In used (getValuesThatMayChange scenarioA_body)) /\
        shouldMemo info =
          Some (isExpensiveOperation instr scenarioA_body
                && negb (Nat.eqb (length ds) 0)).
Proof.
  split.
  - exact (seq_NoDup 6 0).
  - apply (@analyze_dependencies_and_shouldMemo scenarioA_body).
    exact (seq_NoDup 6 0).
Defined.

(* ================================================================== *)
(** ** The IR builder *)

Lemma dense_keys_lt {V} (m : list (InstrId * V)) k :
  dense m -> (In k (JsMap.keys m) <-> k < length m).
Proof. intros D. rewrite D, in_seq. lia. Qed.

Lemma dense_NoDup {V} (m : list (InstrId * V)) : dense m -> NoDup (JsMap.keys m).
Proof. intros D. rewrite D. apply seq_NoDup. Qed.

Lemma dense_set_size {V} (m : list (InstrId * V)) v :
  dense m -> JsMap.set m (JsMap.size m) v = m ++ [(length m, v)].
Proof.
  intros D. apply set_new. rewrite (dense_keys_lt _ D). unfold JsMap.size. lia.
Qed.

Lemma dense_snoc {V} (m : list (InstrId * V)) v :
  dense m -> dense (m ++ [(length m, v)]).
Proof.
  unfold dense. intros D. rewrite keys_app, D, length_app. simpl.
  rewrite Nat.add_1_r, seq_S. reflexivity.
Qed.

Lemma get_app_new {V} (m : list (InstrId * V)) k v :
  ~ In k (JsMap.keys m) -> JsMap.get (m ++ [(k, v)]) k = Some v.
Proof.
  intros N. rewrite <- (set_new m k v N). apply get_set_same.
Qed.

Lemma wellFormed_nil : wellFormed [].
Proof. split; [reflexivity | intros ? ? []]. Qed.

Lemma wellFormed_snoc func instr :
  wellFormed func ->
  (forall used, In used (eachValue instr) -> used < length func) ->
  wellFormed (func ++ [(length func, instr)]).
Proof.
  intros [D B] U. split; [now apply dense_snoc|].
  intros id i I used Iu. apply in_app_or in I. destruct I as [I|[E|[]]].
  - eapply B; eauto.
  - injection E as <- <-. auto.
Qed.

Lemma emit_ok instr st :
  dense (st_body st) ->
  emit instr st =
    Ok (length (st_body st),
        {| st_body := st_body st ++ [(length (st_body st), instr)];
           st_console := st_console st ++ [LogInstr (length (st_body st)) instr] |}).
Proof.
  intros D. unfold emit. rewrite (dense_set_size _ D).
  unfold JsMap.size. rewrite get_app_new; [reflexivity|].
  rewrite (dense_keys_lt _ D). lia.
Qed.

Lemma getDeclaration_In func name id :
  getDeclaration func name = Some id -> In id (JsMap.keys func).
Proof.
  induction func as [|[k instr] func IH]; simpl; [discriminate|].
  destruct instr; auto;
    match goal with |- context [String.eqb ?a ?b] => destruct (String.eqb a b) end;
    auto; intros [= ->]; auto.
Qed.

Lemma bind_Ok {A B} (m : Lower A) (k : A -> Lower B) st b st' :
  bind m k st = Ok (b, st') ->
  exists a st1, m st = Ok (a, st1) /\ k a st1 = Ok (b, st').
Proof.
  unfold bind. destruct (m st) as [[a st1]|]; [eauto | discriminate].
Qed.

Ltac bind_inv H :=
  let a := fresh "a" in
  let st1 := fresh "st" in
  let E := fresh "E" in
  apply bind_Ok in H; destruct H as (a & st1 & E & H).

Lemma emit_LowerOk instr st id st' :
  wellFormed (st_body st) ->
  (forall used, In used (eachValue instr) -> used < length (st_body st)) ->
  emit instr st = Ok (id, st') ->
  wellFormed (st_body st') /\
  length (st_body st) <= length (st_body st') /\
  id < length (st_body st').
Proof.
  intros W U E. rewrite emit_ok in E by apply W. injection E as <- <-. simpl.
  split; [now apply wellFormed_snoc|]. rewrite length_app. simpl. lia.
Qed.

Lemma Declare_below lhs rhs n :
  rhs < n -> forall used, In used (eachValue (Declare_ lhs rhs)) -> used < n.
Proof. intros Lt used [<-|[]]. exact Lt. Qed.

Section LoopFacts.
Variable lower : Node -> Lower InstrId.

Lemma lowerOperand_ok value st v st' :
  LowerOk lower value ->
  wellFormed (st_body st) ->
  isOperand value && wellTyped value = true ->
  lowerOperand lower value st = Ok (v, st') ->
  wellFormed (st_body st') /\
  length (st_body st) <= length (st_body st') /\
  valueBelow (length (st_body st')) v.
Proof.
  intros L W T E. apply andb_prop in T. destruct T as [T1 T2].
  assert (G : (id <~ lower value ;; ret (RValue id))%lower st = Ok (v, st') ->
              wellFormed (st_body st') /\
              length (st_body st) <= length (st_body st') /\
              valueBelow (length (st_body st')) v).
  { intros F. bind_inv F. injection F as <- <-.
    destruct (L _ _ _ W T2 E0) as (W' & Le & Lt). simpl. auto. }
  destruct value; try (exact (G E));
    injection E as <- <-; simpl; auto.
Qed.

Lemma lowerArguments_ok args : forall acc st vs st',
  (forall a, In a args -> LowerOk lower a) ->
  forallb (fun arg => isOperand arg && wellTyped arg) args = true ->
  wellFormed (st_body st) ->
  Forall (valueBelow (length (st_body st))) acc ->
  lowerArguments lower args acc st = Ok (vs, st') ->
  wellFormed (st_body st') /\
  length (st_body st) <= length (st_body st') /\
  Forall (valueBelow (length (st_body st'))) vs.
Proof.
  induction args as [|arg args IH]; intros acc st vs st' L T W B E; simpl in *.
  - injection E as <- <-. auto.
  - apply andb_prop in T. destruct T as [T1 T2]. bind_inv E.
    destruct (@lowerOperand_ok arg st a st0) as (W1 & Le1 & B1); auto.
    assert (B' : Forall (valueBelow (length (st_body st0))) (acc ++ [a])).
    { apply Forall_app. split; [|constructor; auto].
      eapply Forall_impl; [|exact B]. intros [i|l]; simpl; auto. lia. }
    destruct (IH _ _ _ _ (fun x I => L x (or_intror I)) T2 W1 B' E)
      as (W2 & Le2 & B2).
    repeat split; auto; try apply W2. lia.
Qed.

Lemma set_Forall {V} (P : string * V -> Prop) (m : list (string * V)) k v :
  Forall P m -> P (k, v) -> Forall P (JsMap.set m k v).
Proof.
  intros F Pk. induction m as [|[k0 v0] m IH]; simpl.
  - auto.
  - inversion F; subst. destruct (k =? k0)%string; constructor; auto.
Qed.

Lemma lowerProperties_ok props : forall acc st pv st',
  (forall k v, In (ObjectProperty k v) props -> LowerOk lower v) ->
  forallb (fun prop =>
             match prop with
             | ObjectProperty _ value => isOperand value && wellTyped value
             | _ => true
             end) props = true ->
  wellFormed (st_body st) ->
  Forall (fun kv => valueBelow (length (st_body st)) (snd kv)) acc ->
  lowerProperties lower props acc st = Ok (pv, st') ->
  wellFormed (st_body st') /\
  length (st_body st) <= length (st_body st') /\
  Forall (fun kv => valueBelow (length (st_body st')) (snd kv)) pv.
Proof.
  induction props as [|prop props IH]; intros acc st pv st' L T W B E.
  - injection E as <- <-. auto.
  - simpl in T. apply andb_prop in T. destruct T as [T1 T2].
    assert (L' : forall k v, In (ObjectProperty k v) props -> LowerOk lower v)
      by (intros k v I; apply (L k v); now right).
    destruct prop; try (simpl in E; eapply IH; eauto; fail).
    simpl in E. destruct prop1; try discriminate.
    bind_inv E.
    destruct (@lowerOperand_ok prop2 st a st0) as (W1 & Le1 & B1); auto.
    { apply (L (Identifier name) prop2). now left. }
    assert (B' : Forall (fun kv => valueBelow (length (st_body st0)) (snd kv))
                        (JsMap.set acc name a)).
    { apply set_Forall; auto.
      eapply Forall_impl; [|exact B]. intros [? [i|l]]; simpl; auto. lia. }
    destruct (IH _ _ _ _ L' T2 W1 B' E) as (W2 & Le2 & B2).
    repeat split; auto; try apply W2. lia.
Qed.

Lemma lowerDeclarators_ok decls : forall last st id st',
  (forall lv i, In (VariableDeclarator lv (Some i)) decls -> LowerOk lower i) ->
  forallb (fun decl =>
             match decl with
             | VariableDeclarator _ (Some init) => isOperand init && wellTyped init
             | _ => true
             end) decls = true ->
  wellFormed (st_body st) ->
  lowerDeclarators lower decls last st = Ok (id, st') ->
  wellFormed (st_body st') /\
  length (st_body st) <= length (st_body st').
Proof.
  induction decls as [|decl decls IH]; intros last st id st' L T W E.
  - injection E as <- <-. auto.
  - simpl in T. apply andb_prop in T. destruct T as [T1 T2].
    assert (L' : forall lv i, In (VariableDeclarator lv (Some i)) decls ->
                              LowerOk lower i)
      by (intros lv i I; apply (L lv i); now right).
    destruct decl; try (simpl in E; eapply IH; eauto; fail).
    simpl in E. destruct init as [init|]; [|discriminate].
    apply andb_prop in T1. destruct T1 as [T1a T1b].
    assert (Li : LowerOk lower init) by (apply (L id0 init); now left).
    destruct id0 as [name|elements|type].
    + bind_inv E. bind_inv E.
      destruct (Li _ _ _ W T1b E0) as (W1 & Le1 & Lt1).
      destruct (@emit_LowerOk _ _ _ _ W1 (@Declare_below _ _ _ (Lt1 T1a)) E1)
        as (W2 & Le2 & _).
      destruct (IH _ _ _ _ L' T2 W2 E) as (W3 & Le3). split; auto. lia.
    + bind_inv E. bind_inv E.
      destruct (Li _ _ _ W T1b E0) as (W1 & Le1 & Lt1).
      destruct (@emit_LowerOk _ _ _ _ W1 (@Declare_below _ _ _ (Lt1 T1a)) E1)
        as (W2 & Le2 & _).
      destruct (IH _ _ _ _ L' T2 W2 E) as (W3 & Le3). split; auto. lia.
    + bind_inv E. injection E0 as <- <-.
      eapply IH in E; eauto.
Qed.
End LoopFacts.

Lemma nodeSize_In a (l : list Node) :
  In a l -> nodeSize a <= list_sum (map nodeSize l).
Proof.
  induction l as [|x l IH]; simpl; [tauto|].
  intros [->|I]; [lia | apply IH in I; lia].
Qed.

Lemma noOperands_below instr n :
  eachValue instr = [] -> forall used, In used (eachValue instr) -> used < n.
Proof. intros -> used []. Qed.

Lemma consoleLog_emit_ok line instr st id st' :
  wellFormed (st_body st) ->
  eachValue instr = [] ->
  (consoleLog line ;;; emit instr)%lower st = Ok (id, st') ->
  wellFormed (st_body st') /\
  length (st_body st) <= length (st_body st') /\
  id < length (st_body st').
Proof.
  intros W N E. bind_inv E. injection E0 as <- <-.
  eapply emit_LowerOk in E; eauto. now apply noOperands_below.
Qed.

Lemma lowerBabelInstr_ok : forall k n, nodeSize n < k -> LowerOk lowerBabelInstr n.
Proof.
  induction k as [|k IH]; intros n Sz; [lia|].
  intros st id st' W T E.
  assert (Emit0 : forall instr, eachValue instr = [] ->
                    emit instr st = Ok (id, st') ->
                    wellFormed (st_body st') /\
                    length (st_body st) <= length (st_body st') /\
                    (isOperand n = true -> id < length (st_body st'))).
  { intros instr N F. eapply emit_LowerOk in F; eauto using noOperands_below.
    tauto. }
  assert (Log0 : forall line instr, eachValue instr = [] ->
                    (consoleLog line ;;; emit instr)%lower st = Ok (id, st') ->
                    wellFormed (st_body st') /\
                    length (st_body st) <= length (st_body st') /\
                    (isOperand n = true -> id < length (st_body st'))).
  { intros line instr N F. eapply consoleLog_emit_ok in F; eauto. tauto. }
  destruct n; simpl in E;
    try (eapply Emit0; [|exact E]; reflexivity);
    try (eapply Log0; [|exact E]; reflexivity).
  - (* Identifier *)
    destruct (getDeclaration (st_body st) name) as [d|] eqn:G.
    + injection E as <- <-. repeat split; try apply W; auto.
      intros _. apply getDeclaration_In in G.
      now apply (dense_keys_lt _ (proj1 W)).
    + eapply Emit0; [|exact E]; reflexivity.
  - (* MemberExpression *)
    simpl in T, Sz. apply andb_prop in T. destruct T as [T1 T2].
    bind_inv E. bind_inv E.
    destruct (IH n1 ltac:(lia) _ _ _ W T2 E0) as (W1 & Le1 & Lt1).
    assert (st1 = st0) as ->.
    { destruct n2; simpl in E1; try discriminate; now injection E1. }
    eapply emit_LowerOk in E; eauto.
    + destruct E as (W2 & Le2 & Lt2). repeat split; auto; try apply W2. lia.
    + intros used [<-|[]]. auto.
  - (* ObjectExpression *)
    simpl in T, Sz. bind_inv E.
    destruct (@lowerProperties_ok lowerBabelInstr properties [] st a st0)
      as (W1 & Le1 & B1); auto.
    { intros key v I. apply IH. apply nodeSize_In in I. simpl in I. lia. }
    eapply emit_LowerOk in E; eauto.
    + destruct E as (W2 & Le2 & Lt2). repeat split; auto; try apply W2. lia.
    + simpl. unfold rvalues. intros used I. apply in_flat_map in I.
      destruct I as (v & Iv & Iu). apply in_map_iff in Iv.
      destruct Iv as (kv & <- & Ikv).
      rewrite Forall_forall in B1. specialize (B1 kv Ikv).
      destruct (snd kv); simpl in *; [|tauto]. destruct Iu as [<-|[]]. exact B1.
  - (* CallExpression *)
    simpl in T, Sz. apply andb_prop in T. destruct T as [T0 T3].
    apply andb_prop in T0. destruct T0 as [T1 T2].
    bind_inv E. bind_inv E.
    assert (Tg : wellFormed (st_body st0) /\
                 length (st_body st) <= length (st_body st0) /\
                 fst a < length (st_body st0)).
    { destruct n;
        try (bind_inv E0; injection E0 as <- <-;
             match goal with
             | F : lowerBabelInstr ?c st = Ok _ |- _ =>
                 destruct (IH c ltac:(simpl in *; lia) _ _ _ W T2 F) as (W1 & Le1 & Lt1)
             end; simpl; auto; fail).
      bind_inv E0. simpl in T2. apply andb_prop in T2. destruct T2 as [T2a T2b].
      destruct (IH n1 ltac:(simpl in *; lia) _ _ _ W T2b E2) as (W1 & Le1 & Lt1).
      destruct n2; try discriminate. injection E0 as <- <-. simpl. auto. }
    destruct Tg as (W1 & Le1 & Lt1).
    destruct (@lowerArguments_ok lowerBabelInstr arguments [] st0 a0 st1)
      as (W2 & Le2 & B2); auto.
    { intros x I. apply IH. apply nodeSize_In in I. lia. }
    eapply emit_LowerOk in E; eauto.
    + destruct E as (W3 & Le3 & Lt3). repeat split; auto; try apply W3. lia.
    + simpl. intros used [<-|I]; [lia|].
      unfold rvalues in I. apply in_flat_map in I. destruct I as (v & Iv & Iu).
      rewrite Forall_forall in B2. specialize (B2 v Iv).
      destruct v; simpl in *; [|tauto]. destruct Iu as [<-|[]]. exact B2.
  - (* ReturnStatement *)
    destruct argument as [arg|].
    + simpl in T, Sz. apply andb_prop in T. destruct T as [T1 T2].
      bind_inv E.
      destruct (IH arg ltac:(lia) _ _ _ W T2 E0) as (W1 & Le1 & Lt1).
      eapply emit_LowerOk in E; eauto.
      * destruct E as (W2 & Le2 & Lt2). repeat split; auto; try apply W2. lia.
      * intros used [<-|[]]. auto.
    + eapply Emit0; [|exact E]; reflexivity.
  - (* VariableDeclaration *)
    simpl in T, Sz. bind_inv E. injection E0 as <- <-.
    destruct (@lowerDeclarators_ok lowerBabelInstr declarations
                (JsMap.size (st_body st)) st id st') as (W1 & Le1); auto.
    { intros lv i I. apply IH. apply nodeSize_In in I. simpl in I. lia. }
    repeat split; auto; try apply W1; try discriminate.
  - (* ExpressionStatement *)
    simpl in T, Sz. apply andb_prop in T. destruct T as [T1 T2].
    destruct (IH n ltac:(lia) _ _ _ W T2 E) as (W1 & Le1 & Lt1).
    repeat split; auto; try apply W1; try discriminate.
Qed.

Lemma wellFormed_Param func name :
  wellFormed func -> wellFormed (JsMap.set func (JsMap.size func) (Param name)).
Proof.
  intros W. rewrite dense_set_size by apply W.
  apply wellFormed_snoc; auto. intros used [].
Qed.

Lemma lowerPatternProperties_ok properties : forall instrs instrs',
  wellFormed instrs ->
  lowerPatternProperties properties instrs = Ok instrs' ->
  wellFormed instrs'.
Proof.
  induction properties as [|[[name|type]|type] properties IH];
    intros instrs instrs' W E; simpl in E; try discriminate.
  - now injection E as <-.
  - eapply IH; [|exact E]. now apply wellFormed_Param.
Qed.

Lemma lowerParams_ok params : forall instrs instrs',
  wellFormed instrs ->
  foldM lowerParam params instrs = Ok instrs' ->
  wellFormed instrs'.
Proof.
  induction params as [|param params IH]; intros instrs instrs' W E; simpl in E.
  - now injection E as <-.
  - destruct (lowerParam instrs param) as [instrs1|] eqn:P; [|discriminate].
    simpl in E. eapply IH; [|exact E].
    destruct param as [name|properties|type]; simpl in P.
    + injection P as <-. now apply wellFormed_Param.
    + eapply lowerPatternProperties_ok; eauto.
    + discriminate.
Qed.

Lemma lowerStatements_ok stmts : forall st u st',
  forallb wellTyped stmts = true ->
  wellFormed (st_body st) ->
  lowerStatements stmts st = Ok (u, st') ->
  wellFormed (st_body st').
Proof.
  induction stmts as [|s stmts IH]; intros st u st' T W E; simpl in *.
  - now injection E as <- <-.
  - apply andb_prop in T. destruct T as [T1 T2]. bind_inv E.
    destruct (@lowerBabelInstr_ok (S (nodeSize s)) s (Nat.lt_succ_diag_r _)
                _ _ _ W T1 E0) as (W1 & _).
    eapply IH; eauto.
Qed.

(** A lowered body has dense ids and no forward reference. *)
Lemma readInstructions_wellFormed func body log :
  forallb wellTyped (fn_body func) = true ->
  readInstructions func = Ok (body, log) ->
  wellFormed body.
Proof.
  intros T E. unfold readInstructions in E.
  destruct (foldM lowerParam (fn_params func) []) as [instrs|] eqn:P; [|discriminate].
  simpl in E.
  destruct (lowerStatements (fn_body func) _) as [[u st]|] eqn:S; [|discriminate].
  injection E as <- <-.
  eapply lowerStatements_ok in S; eauto.
  eapply lowerParams_ok; eauto using wellFormed_nil.
Qed.

(** C4. In the body that lowering a function produces, every operand an
    instruction holds (the ids [eachValue] yields: a call's receiver and
    [RValue] arguments, an object's [RValue] property values, the object of a
    property read, the right-hand side of a declaration, the value of a
    return) is strictly smaller than the instruction's own id. The function's
    statements are Babel-typed: operand places hold no statement. *)
Theorem lowering_no_forward_references
    (func : FunctionDeclaration) (body : FunctionBody) (log : list LogLine) :
  forallb wellTyped (fn_body func) = true ->
  readInstructions func = Ok (body, log) ->
  forall id instr, In (id, instr) body ->
  forall used, In used (eachValue instr) -> used < id.
Proof.
  intros T E. exact (proj2 (readInstructions_wellFormed func T E)).
Qed.

Lemma lowering_no_forward_references_witness :
  forallb wellTyped (fn_body scenarioA) = true /\
  (exists log, readInstructions scenarioA = Ok (scenarioA_body, log)) /\
  In (4, Declare_ "c" 3) scenarioA_body /\
  3 < 4.
Proof.
  split; [reflexivity|]. split; [eexists; reflexivity|].
  split; [simpl; tauto|].
  apply (@lowering_no_forward_references scenarioA scenarioA_body
           [LogInstr 2 (LoadConstant "function");
            LogInstr 3 (Call 0 (Some "map"%string) [RValue 2]);
            LogInstr 4 (Declare_ "c" 3); LogInstr 5 (Return (Some 4))]
           eq_refl eq_refl 4 (Declare_ "c" 3)).
  - simpl. tauto.
  - simpl. tauto.
Defined.

(* ================================================================== *)
(** ** Expensive operations *)

Lemma isExpensiveOperation_method func receiver p arguments :
  p <> EmptyString ->
  isExpensiveOperation (Call receiver (Some p) arguments) func =
    strIn p expensiveMethods.
Proof. intros N. destruct p; [contradiction | reflexivity]. Qed.

Lemma isExpensiveOperation_bare func receiver arguments variableName :
  JsMap.get func receiver = Some (LoadConstant variableName) ->
  isExpensiveOperation (Call receiver None arguments) func =
    includes "Math" variableName.
Proof.
  intros G. simpl. rewrite G. simpl.
  destruct (includes "Math" variableName); reflexivity.
Qed.

Lemma isExpensiveOperation_Object func properties :
  isExpensiveOperation (Object properties) func = true.
Proof. reflexivity. Qed.

Lemma isExpensiveOperation_other func instr :
  (forall receiver property arguments, instr <> Call receiver property arguments) ->
  (forall properties, instr <> Object properties) ->
  isExpensiveOperation instr func = false.
Proof.
  intros NC NO. destruct instr; try reflexivity.
  - exfalso. eapply NC. reflexivity.
  - exfalso. eapply NO. reflexivity.
Qed.

(** C5. [Math.sqrt(n)] lowers to a call with property ["sqrt"] whose receiver
    is the constant ["Math"]; the property is outside the method set, the
    receiver's name contains ["Math"], and the call is classified as not
    expensive: the test on the property returns before the receiver is
    looked at. *)
Theorem Math_sqrt_call_is_not_expensive :
  (exists log, readInstructions mathSqrt = Ok (mathSqrt_body, log)) /\
  JsMap.get mathSqrt_body 2 = Some (Call 1 (Some "sqrt"%string) [RValue 0]) /\
  strIn "sqrt" expensiveMethods = false /\
  JsMap.get mathSqrt_body 1 = Some (LoadConstant "Math") /\
  includes "Math" "Math" = true /\
  isExpensiveOperation (Call 1 (Some "sqrt"%string) [RValue 0]) mathSqrt_body = false.
Proof.
  split; [eexists; reflexivity|]. repeat split; reflexivity.
Qed.

(* ================================================================== *)
(** ** Name resolution *)

(** [getDeclaration] returns the first entry, in program order, that binds
    the name. *)
Lemma getDeclaration_first func name id :
  getDeclaration func name = Some id ->
  exists before instr after,
    func = before ++ (id, instr) :: after /\
    declares name instr = true /\
    forall e, In e before -> declares name (snd e) = false.
Proof.
  induction func as [|[k instr] func IH]; simpl; [discriminate|].
  intros E.
  destruct (declares name instr) eqn:D.
  - exists [], instr, func.
    destruct instr; simpl in D; try discriminate; rewrite D in E;
      injection E as <-; repeat split; auto; intros ? [].
  - assert (E' : getDeclaration func name = Some id).
    { destruct instr; simpl in D; auto; rewrite D in E; exact E. }
    destruct (IH E') as (before & i & after & -> & Di & B).
    exists ((k, instr) :: before), i, after. repeat split; auto.
    intros e [<-|I]; auto.
Qed.

Lemma getDeclaration_None func name :
  getDeclaration func name = None <->
  forall e, In e func -> declares name (snd e) = false.
Proof.
  induction func as [|[k instr] func IH]; simpl.
  - split; [intros _ ? [] | reflexivity].
  - destruct (declares name instr) eqn:D.
    + split.
      * destruct instr; simpl in D; try discriminate; rewrite D; discriminate.
      * intros A. specialize (A (k, instr) (or_introl eq_refl)). simpl in A. congruence.
    + assert (E : (match instr with
                   | Declare_ lhs _ => if String.eqb lhs name then Some k
                                       else getDeclaration func name
                   | Param n => if String.eqb n name then Some k
                                else getDeclaration func name
                   | _ => getDeclaration func name
                   end) = getDeclaration func name).
      { destruct instr; simpl in D; auto; now rewrite D. }
      rewrite E, IH. split.
      * intros A e [<-|I]; auto.
      * intros A e I. apply A. now right.
Qed.

Lemma emit_total instr st :
  emit instr st =
    Ok (JsMap.size (st_body st),
        {| st_body := JsMap.set (st_body st) (JsMap.size (st_body st)) instr;
           st_console := st_console st
                         ++ [LogInstr (JsMap.size (st_body st)) instr] |}).
Proof. unfold emit. now rewrite get_set_same. Qed.

(** An unresolved name is given a [LoadConstant] placeholder. *)
Lemma lower_unresolved_Identifier name st :
  getDeclaration (st_body st) name = None ->
  lowerBabelInstr (Identifier name) st =
    Ok (JsMap.size (st_body st),
        {| st_body := JsMap.set (st_body st) (JsMap.size (st_body st))
                                (LoadConstant name);
           st_console := st_console st
                         ++ [LogInstr (JsMap.size (st_body st)) (LoadConstant name)] |}).
Proof. intros G. simpl. rewrite G. apply emit_total. Qed.

(** C6. In [function H(x) { var x = g; return x; }] the name [x] is bound
    twice before the [return]: by the parameter (id 0) and by the
    declaration (id 2). The reference resolves to id 0, the earliest binding,
    not to id 2, the most recent one. *)
Theorem redeclared_name_resolves_to_first_binding :
  (exists log, readInstructions redeclared = Ok (redeclared_body, log)) /\
  getDeclaration [(0, Param "x"); (1, LoadConstant "g"); (2, Declare_ "x" 1)] "x"
    = Some 0 /\
  JsMap.get redeclared_body 3 = Some (Return (Some 0)).
Proof.
  split; [eexists; reflexivity|]. split; reflexivity.
Qed.

(* ================================================================== *)
(** ** Errors while lowering *)

Lemma bind_Throw {A B} (m : Lower A) (k : A -> Lower B) st :
  (forall a st1, m st = Ok (a, st1) -> exists msg, k a st1 = Throw msg) ->
  exists msg, bind m k st = Throw msg.
Proof.
  intros K. unfold bind. destruct (m st) as [[a st1]|msg]; eauto.
Qed.

Lemma lowerDeclarators_Throw lower declarations lv : forall lastValue st,
  In (VariableDeclarator lv None) declarations ->
  exists msg, lowerDeclarators lower declarations lastValue st = Throw msg.
Proof.
  induction declarations as [|d ds IH]; intros lastValue st I.
  - destruct I.
  - destruct I as [E|I]; [subst d; simpl; eexists; reflexivity|].
    destruct d; simpl; auto.
    destruct init as [init|]; [|eexists; reflexivity].
    destruct id; repeat (apply bind_Throw; intros); auto.
Qed.

Lemma lowerVariableDeclaration_Throw kind declarations lv st :
  In (VariableDeclarator lv None) declarations ->
  exists msg, lowerBabelInstr (VariableDeclaration kind declarations) st = Throw msg.
Proof.
  intros I. simpl. apply bind_Throw. intros a st1 _.
  eapply lowerDeclarators_Throw; eauto.
Qed.

Lemma lowerStatements_Throw stmts s : forall st,
  In s stmts ->
  (forall st', exists msg, lowerBabelInstr s st' = Throw msg) ->
  exists msg, lowerStatements stmts st = Throw msg.
Proof.
  induction stmts as [|x stmts IH]; intros st I T; [destruct I|].
  simpl. destruct I as [->|I].
  - destruct (T st) as (msg & E). exists msg. unfold bind. now rewrite E.
  - apply bind_Throw. intros a st1 _. auto.
Qed.

Lemma readInstructions_Throw_statement func s :
  In s (fn_body func) ->
  (forall st, exists msg, lowerBabelInstr s st = Throw msg) ->
  exists msg, readInstructions func = Throw msg.
Proof.
  intros I T. unfold readInstructions.
  destruct (foldM lowerParam (fn_params func) []) as [instrs|msg]; simpl; eauto.
  destruct (@lowerStatements_Throw (fn_body func) s
              {| st_body := instrs; st_console := [] |} I T) as (msg & ->).
  eauto.
Qed.

Lemma lowerPatternProperties_Throw properties type : forall instrs,
  In (PatObjectProperty (KeyOther type)) properties ->
  exists msg, lowerPatternProperties properties instrs = Throw msg.
Proof.
  induction properties as [|[[name|t]|t] properties IH]; intros instrs I;
    simpl; eauto.
  - destruct I.
  - destruct I as [E|I]; [discriminate | auto].
Qed.

Lemma lowerParams_Throw params param : forall instrs,
  In param params ->
  (forall instrs', exists msg, lowerParam instrs' param = Throw msg) ->
  exists msg, foldM lowerParam params instrs = Throw msg.
Proof.
  induction params as [|x params IH]; intros instrs I T; [destruct I|].
  simpl. destruct I as [->|I].
  - destruct (T instrs) as (msg & ->). simpl. eauto.
  - destruct (lowerParam instrs x); simpl; eauto.
Qed.

Lemma lower_unmodeled n st :
  isUnmodeled n = true ->
  lowerBabelInstr n st =
    Ok (JsMap.size (st_body st),
        {| st_body := JsMap.set (st_body st) (JsMap.size (st_body st))
                        (LoadConstant ("unsupported_" ++ nodeType n));
           st_console := st_console st
                         ++ [LogSkipInstruction (nodeType n);
                             LogInstr (JsMap.size (st_body st))
                               (LoadConstant ("unsupported_" ++ nodeType n))] |}).
Proof.
  intros U. destruct n; try discriminate; simpl; unfold bind, consoleLog;
    rewrite emit_total; simpl; rewrite <- app_assoc; reflexivity.
Qed.

Lemma analyze_lowered func body log :
  forallb wellTyped (fn_body func) = true ->
  readInstructions func = Ok (body, log) ->
  exists info, analyze body = Ok info.
Proof.
  intros T E. apply readInstructions_wellFormed in E; auto.
  destruct (@analyze_infoOf body (dense_NoDup (proj1 E))) as (info & A & _).
  eauto.
Qed.

(* ================================================================== *)
(** ** The disjoint-set *)

Lemma keys_set_NoDup {K V} `{Key K} (m : list (K * V)) k v :
  NoDup (JsMap.keys m) -> NoDup (JsMap.keys (JsMap.set m k v)).
Proof.
  intros ND. rewrite keys_set. destruct (JsMap.has m k) eqn:E; auto.
  apply NoDup_app; auto.
  - constructor; [intros [] | constructor].
  - intros a Ia [<-|[]]. apply has_In in Ia. congruence.
Qed.

Lemma keys_set_In {K V} `{Key K} (m : list (K * V)) k v x :
  In x (JsMap.keys (JsMap.set m k v)) <-> In x (JsMap.keys m) \/ x = k.
Proof.
  rewrite keys_set. destruct (JsMap.has m k) eqn:E.
  - apply has_In in E. split; [auto | intros [?| ->]; auto].
  - rewrite in_app_iff. simpl. split; intros [?|?]; auto.
    + destruct H0; [auto | tauto].
Qed.

Lemma get_Some_key {K V} `{Key K} (m : list (K * V)) k v :
  JsMap.get m k = Some v -> In k (JsMap.keys m).
Proof.
  intros G. apply has_In. unfold JsMap.has. now rewrite G.
Qed.

Lemma key_get_Some {K V} `{Key K} (m : list (K * V)) k :
  In k (JsMap.keys m) -> exists v, JsMap.get m k = Some v.
Proof.
  intros I. apply has_In in I. unfold JsMap.has in I.
  destruct (JsMap.get m k); [eauto | discriminate].
Qed.

Lemma rankOf_le_maxRank ds x : rankOf ds x <= maxRank ds.
Proof.
  unfold rankOf, maxRank. destruct (JsMap.get (rank ds) x) as [r|] eqn:G; [|lia].
  apply get_Some_In in G. apply (in_map snd) in G. simpl in G.
  unfold JsMap.values. induction (map snd (rank ds)) as [|y l IH]; simpl in *.
  - destruct G.
  - destruct G as [->|G]; [lia | apply IH in G; lia].
Qed.

Lemma Root_functional ds x r r' : Root ds x r -> Root ds x r' -> r = r'.
Proof.
  intros R. revert r'. induction R as [x G|x p r G N R IH]; intros r' R'.
  - inversion R'; subst; congruence.
  - inversion R'; subst.
    + congruence.
    + apply IH. congruence.
Qed.

Lemma Root_is_root ds x r : Root ds x r -> JsMap.get (parent ds) r = Some r.
Proof. induction 1; auto. Qed.

Lemma Root_key ds x r : Root ds x r -> In x (JsMap.keys (parent ds)).
Proof. destruct 1; eapply get_Some_key; eauto. Qed.

Lemma Root_rank ds x r :
  DisjointSetInv ds -> Root ds x r -> x = r \/ rankOf ds x < rankOf ds r.
Proof.
  intros I R. induction R as [x G|x p r G N R IH]; auto.
  right. pose proof (@inv_rank _ I _ _ G N). destruct IH as [->|IH]; lia.
Qed.

Lemma Root_total ds x :
  DisjointSetInv ds -> In x (JsMap.keys (parent ds)) -> exists r, Root ds x r.
Proof.
  intros I. remember (maxRank ds - rankOf ds x) as n eqn:E.
  revert x E. induction n as [n IH] using lt_wf_ind. intros x E Kx.
  destruct (key_get_Some _ _ Kx) as (p & G).
  destruct (Nat.eq_dec p x) as [->|N].
  - exists x. now apply Root_self.
  - pose proof (@inv_rank _ I _ _ G N) as Lt.
    pose proof (rankOf_le_maxRank ds p) as Le.
    destruct (IH (maxRank ds - rankOf ds p) ltac:(lia) p eq_refl
                 (@inv_closed _ I _ _ G)) as (r & R).
    exists r. eapply Root_step; eauto.
Qed.

(** Redirecting a member to its own root changes no root. *)
Lemma Root_compress ds x r rk' :
  Root ds x r -> x <> r ->
  forall y ry, Root ds y ry ->
    Root {| parent := JsMap.set (parent ds) x r; rank := rk' |} y ry.
Proof.
  intros Rx N y ry R. induction R as [y G|y p ry G Np R IH].
  - apply Root_self. simpl. rewrite get_set_other; auto.
    intros <-. apply N. eapply Root_functional; eauto. now apply Root_self.
  - destruct (Nat.eq_dec x y) as [<-|Nxy].
    + assert (ry = r) as ->.
      { eapply Root_functional; [|exact Rx]. eapply Root_step; eauto. }
      apply Root_step with r; auto.
      * simpl. apply get_set_same.
      * apply Root_self. simpl. rewrite get_set_other; auto.
        eapply Root_is_root; eauto.
    + apply Root_step with p; auto. simpl. now rewrite get_set_other.
Qed.

(** A new member is a root of its own and changes no other root. *)
Lemma Root_fresh ds x rk' :
  ~ In x (JsMap.keys (parent ds)) ->
  forall y ry, Root ds y ry ->
    Root {| parent := JsMap.set (parent ds) x x; rank := rk' |} y ry.
Proof.
  intros F y ry R. induction R as [y G|y p ry G Np R IH].
  - apply Root_self. simpl. rewrite get_set_other; auto.
    intros <-. apply F. eapply get_Some_key; eauto.
  - apply Root_step with p; auto. simpl. rewrite get_set_other; auto.
    intros <-. apply F. eapply get_Some_key; eauto.
Qed.

Lemma fold_max_app l x :
  fold_right Nat.max 0 (l ++ [x]) = Nat.max (fold_right Nat.max 0 l) x.
Proof. induction l as [|y l IH]; simpl; lia. Qed.

Lemma find_fresh_Inv ds x :
  DisjointSetInv ds -> ~ In x (JsMap.keys (parent ds)) ->
  DisjointSetInv {| parent := JsMap.set (parent ds) x x;
                    rank := JsMap.set (rank ds) x 0 |}.
Proof.
  intros I F.
  assert (Fr : ~ In x (JsMap.keys (rank ds))) by (intros K; apply F, (inv_rank_keys I), K).
  assert (Rk : forall y, rankOf {| parent := JsMap.set (parent ds) x x;
                                   rank := JsMap.set (rank ds) x 0 |} y
                         = rankOf ds y).
  { intros y. unfold rankOf. simpl. destruct (Nat.eq_dec x y) as [<-|N].
    - rewrite get_set_same. apply get_None in Fr. now rewrite Fr.
    - now rewrite get_set_other. }
  constructor; simpl.
  - intros y p G. apply keys_set_In. destruct (Nat.eq_dec x y) as [<-|N].
    + rewrite get_set_same in G. injection G as <-. auto.
    + rewrite get_set_other in G by auto. left. eapply inv_closed; eauto.
  - intros y p G N. rewrite !Rk. destruct (Nat.eq_dec x y) as [<-|Nxy].
    + rewrite get_set_same in G. congruence.
    + rewrite get_set_other in G by auto. eapply inv_rank; eauto.
  - intros y K. apply keys_set_In in K. apply keys_set_In.
    destruct K as [K| ->]; auto. left. now apply (inv_rank_keys I).
  - apply keys_set_NoDup, I.
Qed.

Lemma find_compress_Inv ds x r :
  DisjointSetInv ds -> Root ds x r -> x <> r ->
  DisjointSetInv {| parent := JsMap.set (parent ds) x r; rank := rank ds |}.
Proof.
  intros I R N.
  assert (Kr : In r (JsMap.keys (parent ds)))
    by (eapply get_Some_key, Root_is_root; eauto).
  assert (Kx : In x (JsMap.keys (parent ds))) by (eapply Root_key; eauto).
  constructor; simpl.
  - intros y p G. apply keys_set_In. left. destruct (Nat.eq_dec x y) as [<-|Nxy].
    + rewrite get_set_same in G. now injection G as <-.
    + rewrite get_set_other in G by auto. eapply inv_closed; eauto.
  - intros y p G Np.
    change (rankOf ds y < rankOf ds p).
    destruct (Nat.eq_dec x y) as [<-|Nxy].
    + rewrite get_set_same in G. injection G as <-.
      destruct (Root_rank I R); [contradiction | auto].
    + rewrite get_set_other in G by auto. eapply inv_rank; eauto.
  - intros y K. apply keys_set_In. left. now apply (inv_rank_keys I).
  - apply keys_set_NoDup, I.
Qed.

Lemma findFuel_spec : forall fuel ds x,
  DisjointSetInv ds -> maxRank ds - rankOf ds x < fuel ->
  exists ds' r, findFuel fuel ds x = Some (ds', r) /\ FindPost ds x ds' r.
Proof.
  induction fuel as [|fuel IH]; intros ds x I Lt; [lia|].
  simpl. destruct (JsMap.has (parent ds) x) eqn:Hx.
  - (* a member *)
    assert (Kx : In x (JsMap.keys (parent ds))) by now apply has_In.
    destruct (key_get_Some _ _ Kx) as (p & G). rewrite G.
    destruct (Nat.eqb_spec p x) as [->|N]; simpl.
    + exists ds, x. split; auto. unfold FindPost. rewrite Hx.
      repeat split; auto; try apply I; try discriminate. now apply Root_self.
    + pose proof (@inv_rank _ I _ _ G N) as Lp.
      pose proof (rankOf_le_maxRank ds p) as Le.
      destruct (IH ds p I ltac:(lia)) as (ds2 & root & -> & I2 & R2 & Pres & K2 & Rk2 & M2 & _).
      assert (Kp : JsMap.has (parent ds) p = true)
        by (apply has_In; eapply inv_closed; eauto).
      rewrite Kp in K2.
      rewrite get_set_same.
      assert (Rp : exists r0, Root ds p r0)
        by (apply Root_total; auto; now apply has_In).
      destruct Rp as (r0 & Rp).
      assert (r0 = root) as -> by (eapply Root_functional; [apply Pres|]; eauto).
      assert (Rx : Root ds x root) by (eapply Root_step; eauto).
      assert (Nx : x <> root).
      { destruct (Root_rank I Rp) as [->|]; [auto|].
        intros ->. lia. }
      eexists; eexists. split; [reflexivity|].
      unfold FindPost. rewrite Hx.
      split; [apply find_compress_Inv; auto|].
      split.
      { apply Root_step with root; simpl.
        - apply get_set_same.
        - auto.
        - apply Root_self. simpl. rewrite get_set_other; auto.
          eapply Root_is_root; eauto. }
      split.
      { intros y ry R. apply Root_compress; auto. }
      split.
      { simpl. rewrite keys_set_old; [exact K2|]. rewrite K2. exact Kx. }
      split; [intros y; apply (Rk2 y) |].
      split; [exact M2 | discriminate].
  - (* a new member *)
    assert (Fx : ~ In x (JsMap.keys (parent ds))).
    { rewrite <- has_In. congruence. }
    simpl. rewrite get_set_same, Nat.eqb_refl. simpl.
    eexists; eexists. split; [reflexivity|].
    assert (Fr : ~ In x (JsMap.keys (rank ds)))
      by (intros K; apply Fx, (inv_rank_keys I), K).
    unfold FindPost. rewrite Hx.
    split; [now apply find_fresh_Inv|].
    split; [apply Root_self; simpl; apply get_set_same|].
    split; [intros y ry R; now apply Root_fresh|].
    split; [simpl; rewrite keys_set, Hx; reflexivity|].
    split.
    + intros y. unfold rankOf. simpl. destruct (Nat.eq_dec x y) as [<-|N].
      * rewrite get_set_same. apply get_None in Fr. now rewrite Fr.
      * now rewrite get_set_other.
    + split; [|reflexivity].
      unfold maxRank, JsMap.values. simpl. rewrite set_new by exact Fr.
      rewrite map_app. simpl. rewrite fold_max_app. lia.
Qed.

Lemma find_spec ds x :
  DisjointSetInv ds ->
  exists ds' r, find ds x = Some (ds', r) /\ FindPost ds x ds' r.
Proof.
  intros I. apply findFuel_spec; auto. lia.
Qed.

(** *** Connectedness *)

Lemma Connected_weaken edges e x y :
  Connected edges x y -> Connected (e :: edges) x y.
Proof.
  induction 1.
  - apply Connected_refl.
  - apply Connected_edge. now right.
  - now apply Connected_sym.
  - eapply Connected_trans; eauto.
Qed.

Lemma Connected_isolated edges x u v :
  (forall a b, In (a, b) edges -> a <> x /\ b <> x) ->
  Connected edges u v -> u = x \/ v = x -> u = v.
Proof.
  intros Iso C. induction C as [u|a b I|u v C IH|u w v C1 IH1 C2 IH2]; intros D.
  - reflexivity.
  - destruct (Iso a b I). destruct D; congruence.
  - symmetry. apply IH. tauto.
  - destruct D as [->| ->].
    + rewrite <- (IH1 (or_introl eq_refl)) in *. apply IH2. auto.
    + rewrite (IH2 (or_intror eq_refl)) in *. apply IH1. auto.
Qed.

(** Adding the union of [a] and [b] joins the class of [a] with that of [b]. *)
Lemma Connected_add edges a b x y :
  Connected ((a, b) :: edges) x y <->
  Connected edges x y \/
  (Connected edges x a /\ Connected edges b y) \/
  (Connected edges x b /\ Connected edges a y).
Proof.
  split.
  - induction 1 as [x|p q I|x y C IH|x y z C1 IH1 C2 IH2].
    + left. apply Connected_refl.
    + destruct I as [E|I].
      * injection E as <- <-. right. left. split; apply Connected_refl.
      * left. now apply Connected_edge.
    + destruct IH as [IH|[[IHa IHb]|[IHa IHb]]].
      * left. now apply Connected_sym.
      * right. right. split; now apply Connected_sym.
      * right. left. split; now apply Connected_sym.
    + destruct IH1 as [P|[[Pa Pb]|[Pa Pb]]], IH2 as [Q|[[Qa Qb]|[Qa Qb]]].
      * left. exact (Connected_trans P Q).
      * right. left. split; [exact (Connected_trans P Qa) | exact Qb].
      * right. right. split; [exact (Connected_trans P Qa) | exact Qb].
      * right. left. split; [exact Pa | exact (Connected_trans Pb Q)].
      * left. exact (Connected_trans Pa
                       (Connected_trans (Connected_sym (Connected_trans Pb Qa)) Qb)).
      * left. exact (Connected_trans Pa Qb).
      * right. right. split; [exact Pa | exact (Connected_trans Pb Q)].
      * left. exact (Connected_trans Pa Qb).
      * left. exact (Connected_trans Pa
                       (Connected_trans (Connected_sym (Connected_trans Pb Qa)) Qb)).
  - intros [C|[[Ca Cb]|[Ca Cb]]].
    + now apply Connected_weaken.
    + eapply Connected_trans; [apply Connected_weaken, Ca|].
      eapply Connected_trans; [|apply Connected_weaken, Cb].
      apply Connected_edge. now left.
    + eapply Connected_trans; [apply Connected_weaken, Ca|].
      eapply Connected_trans; [|apply Connected_weaken, Cb].
      apply Connected_sym, Connected_edge. now left.
Qed.

Lemma SameSet_refl ds x r : Root ds x r -> SameSet ds x x.
Proof. intros R. exists r. auto. Qed.

Lemma SameSet_sym ds x y : SameSet ds x y -> SameSet ds y x.
Proof. intros (r & ? & ?). exists r. auto. Qed.

(** [find] keeps what the structure represents. *)
Lemma find_Represents ds edges x ds' r :
  DisjointSetInv ds -> Represents ds edges -> FindPost ds x ds' r ->
  Represents ds' edges /\
  (forall y, In y (JsMap.keys (parent ds')) <->
             In y (JsMap.keys (parent ds)) \/ y = x).
Proof.
  intros I [Ends Sem] (I' & Rx & Pres & K & _ & _ & Fresh).
  assert (Keys : forall y, In y (JsMap.keys (parent ds')) <->
                           In y (JsMap.keys (parent ds)) \/ y = x).
  { intros y. rewrite K. destruct (JsMap.has (parent ds) x) eqn:Hx.
    - apply has_In in Hx. split; [auto | intros [?| ->]; auto].
    - rewrite in_app_iff. simpl. split; intros [?|?]; auto.
      destruct H; [auto | tauto]. }
  assert (Back : forall y ry, In y (JsMap.keys (parent ds)) ->
                              Root ds' y ry -> Root ds y ry).
  { intros y ry Ky R. destruct (@Root_total ds y I Ky) as (r0 & R0).
    assert (r0 = ry) as -> by (eapply Root_functional; [apply Pres|]; eauto).
    exact R0. }
  split; [|exact Keys]. split.
  - intros a b Iab. destruct (Ends a b Iab). rewrite !Keys. auto.
  - intros u v. destruct (JsMap.has (parent ds) x) eqn:Hx.
    + (* the same members *)
      assert (Same : forall y, In y (JsMap.keys (parent ds')) <->
                               In y (JsMap.keys (parent ds))).
      { intros y. rewrite Keys. apply has_In in Hx. split; [intros [?| ->]|]; auto. }
      rewrite !Same, <- Sem. split.
      * intros (r0 & Ru & Rv). exists r0. split; apply Back; auto;
          apply Same; eapply Root_key; eauto.
      * intros (r0 & Ru & Rv). exists r0. auto.
    + (* [x] is new: a class of its own *)
      specialize (Fresh eq_refl). subst r.
      assert (Fx : ~ In x (JsMap.keys (parent ds))).
      { rewrite <- has_In. congruence. }
      assert (Alone : forall y, Root ds' y x -> y = x).
      { intros y R. destruct (Nat.eq_dec y x) as [|N]; auto.
        assert (Ky : In y (JsMap.keys (parent ds))).
        { apply Root_key in R. apply Keys in R. tauto. }
        exfalso. apply Fx. eapply get_Some_key, Root_is_root, Back; eauto. }
      assert (Iso : forall a b, In (a, b) edges -> a <> x /\ b <> x).
      { intros a b Iab. destruct (Ends a b Iab). split; congruence. }
      split.
      * intros (r0 & Ru & Rv).
        pose proof (Root_key Ru) as Ku. pose proof (Root_key Rv) as Kv.
        split; [auto|]. split; [auto|].
        apply Keys in Ku. apply Keys in Kv.
        destruct Ku as [Ku| ->].
        -- destruct Kv as [Kv| ->].
           ++ apply Sem. exists r0. split; apply Back; auto.
           ++ assert (r0 = x) as -> by exact (Root_functional Rv Rx).
              rewrite (Alone _ Ru). apply Connected_refl.
        -- assert (r0 = x) as -> by exact (Root_functional Ru Rx).
           rewrite (Alone _ Rv). apply Connected_refl.
      * intros (Ku & Kv & C). apply Keys in Ku. apply Keys in Kv.
        destruct Ku as [Ku| ->].
        -- destruct Kv as [Kv| ->].
           ++ destruct (proj2 (Sem u v) (conj Ku (conj Kv C))) as (r0 & Ru & Rv).
              exists r0. auto.
           ++ rewrite (Connected_isolated Iso C (or_intror eq_refl)).
              exists x. auto.
        -- rewrite <- (Connected_isolated Iso C (or_introl eq_refl)).
           exists x. auto.
Qed.

(** *** Linking two roots *)

Lemma Root_link ds c t rk' :
  JsMap.get (parent ds) c = Some c ->
  JsMap.get (parent ds) t = Some t ->
  c <> t ->
  forall y r,
    Root {| parent := JsMap.set (parent ds) c t; rank := rk' |} y r <->
    (Root ds y r /\ r <> c) \/ (Root ds y c /\ r = t).
Proof.
  intros Gc Gt N y r. split.
  - induction 1 as [y G|y p r G Np R IH]; simpl in G.
    + destruct (Nat.eq_dec c y) as [<-|Ncy].
      * rewrite get_set_same in G. congruence.
      * rewrite get_set_other in G by auto. left. split; [now apply Root_self | auto].
    + destruct (Nat.eq_dec c y) as [<-|Ncy].
      * rewrite get_set_same in G. injection G as <-. right.
        split; [now apply Root_self|].
        destruct IH as [[Rt _]|[Rt _]].
        -- eapply Root_functional; [exact Rt | now apply Root_self].
        -- exfalso. apply N. eapply Root_functional; [exact Rt | now apply Root_self].
      * rewrite get_set_other in G by auto.
        destruct IH as [[Rp Nr]|[Rp ->]].
        -- left. split; auto. eapply Root_step; eauto.
        -- right. split; auto. eapply Root_step; eauto.
  - intros [[R Nr]|[R ->]].
    + induction R as [y G|y p r G Np R IH].
      * apply Root_self. simpl. rewrite get_set_other; auto.
      * apply Root_step with p; auto. simpl. rewrite get_set_other; auto.
        intros <-. congruence.
    + remember c as c' eqn:E in R. induction R as [y G|y p r G Np R IH]; subst.
      * apply Root_step with t; simpl; auto.
        -- apply get_set_same.
        -- apply Root_self. simpl. rewrite get_set_other; auto.
      * apply Root_step with p; auto. simpl. rewrite get_set_other; auto.
        intros <-. congruence.
Qed.

Lemma link_Inv ds c t rk' :
  DisjointSetInv ds ->
  JsMap.get (parent ds) c = Some c ->
  JsMap.get (parent ds) t = Some t ->
  c <> t ->
  (forall y, y <> t ->
     rankOf {| parent := JsMap.set (parent ds) c t; rank := rk' |} y = rankOf ds y) ->
  rankOf ds t <= rankOf {| parent := JsMap.set (parent ds) c t; rank := rk' |} t ->
  rankOf ds c < rankOf {| parent := JsMap.set (parent ds) c t; rank := rk' |} t ->
  (forall y, In y (JsMap.keys rk') -> In y (JsMap.keys (parent ds))) ->
  DisjointSetInv {| parent := JsMap.set (parent ds) c t; rank := rk' |}.
Proof.
  intros I Gc Gt N Same Le Lt Kr.
  set (ds' := {| parent := JsMap.set (parent ds) c t; rank := rk' |}) in *.
  assert (Mono : forall p, rankOf ds p <= rankOf ds' p).
  { intros p. destruct (Nat.eq_dec p t) as [->|Np]; auto. rewrite Same; auto. }
  constructor; simpl.
  - intros y p G. apply keys_set_In. left. destruct (Nat.eq_dec c y) as [<-|Ncy].
    + rewrite get_set_same in G. injection G as <-. eapply get_Some_key; eauto.
    + rewrite get_set_other in G by auto. eapply inv_closed; eauto.
  - intros y p G Np. destruct (Nat.eq_dec c y) as [<-|Ncy].
    + rewrite get_set_same in G. injection G as <-. rewrite Same; auto.
    + rewrite get_set_other in G by auto.
      assert (y <> t) by (intros ->; congruence).
      rewrite (Same y) by auto.
      pose proof (@inv_rank _ I _ _ G Np). specialize (Mono p). lia.
  - intros y K. apply keys_set_In. left. auto.
  - apply keys_set_NoDup, I.
Qed.

Lemma rankOf_set ds p' x v y :
  rankOf {| parent := p'; rank := JsMap.set (rank ds) x v |} y =
    if Nat.eq_dec x y then v else rankOf ds y.
Proof.
  unfold rankOf. simpl. destruct (Nat.eq_dec x y) as [<-|N].
  - now rewrite get_set_same.
  - now rewrite get_set_other.
Qed.

Lemma SameSet_link ds c t rk' a b :
  DisjointSetInv ds ->
  JsMap.get (parent ds) c = Some c ->
  JsMap.get (parent ds) t = Some t ->
  c <> t ->
  (Root ds a c /\ Root ds b t) \/ (Root ds a t /\ Root ds b c) ->
  forall x y,
    SameSet {| parent := JsMap.set (parent ds) c t; rank := rk' |} x y <->
    SameSet ds x y \/
    (SameSet ds x a /\ SameSet ds b y) \/
    (SameSet ds x b /\ SameSet ds a y).
Proof.
  intros I Gc Gt N AB x y. unfold SameSet at 1.
  assert (F := @Root_functional ds).
  split.
  - intros (r & Rx & Ry). apply Root_link in Rx; auto. apply Root_link in Ry; auto.
    destruct Rx as [[Rx Nx]|[Rx ->]], Ry as [[Ry Ny]|[Ry E]].
    + left. exists r. auto.
    + subst r. destruct AB as [[Ra Rb]|[Ra Rb]].
      * right. right. split; [exists t | exists c]; auto.
      * right. left. split; [exists t | exists c]; auto.
    + destruct AB as [[Ra Rb]|[Ra Rb]].
      * right. left. split; [exists c | exists t]; auto.
      * right. right. split; [exists c | exists t]; auto.
    + left. exists c. auto.
  - assert (Up : forall z rz, Root ds z rz ->
                   Root {| parent := JsMap.set (parent ds) c t; rank := rk' |} z
                        (if Nat.eq_dec rz c then t else rz)).
    { intros z rz R. apply Root_link; auto.
      destruct (Nat.eq_dec rz c) as [->|Nz]; auto. }
    assert (Join : forall u v ru rv,
               Root ds u ru -> Root ds v rv ->
               (ru = c \/ ru = t) -> (rv = c \/ rv = t) ->
               exists r, Root {| parent := JsMap.set (parent ds) c t; rank := rk' |} u r /\
                         Root {| parent := JsMap.set (parent ds) c t; rank := rk' |} v r).
    { intros u v ru rv Ru Rv Du Dv. exists t.
      apply Up in Ru. apply Up in Rv.
      destruct (Nat.eq_dec ru c), (Nat.eq_dec rv c); auto;
        destruct Du, Dv; subst; try congruence; auto. }
    intros [(r & Rx & Ry)|[[(r1 & Rx & Ra) (r2 & Rb & Ry)]|[(r1 & Rx & Rb) (r2 & Ra & Ry)]]].
    + exists (if Nat.eq_dec r c then t else r). split; now apply Up.
    + apply Join with r1 r2; auto.
      * destruct AB as [[Ra' _]|[Ra' _]]; [left | right]; exact (F _ _ _ Ra Ra').
      * destruct AB as [[_ Rb']|[_ Rb']]; [right | left]; exact (F _ _ _ Rb Rb').
    + apply Join with r1 r2; auto.
      * destruct AB as [[_ Rb']|[_ Rb']]; [right | left]; exact (F _ _ _ Rb Rb').
      * destruct AB as [[Ra' _]|[Ra' _]]; [left | right]; exact (F _ _ _ Ra Ra').
Qed.

Lemma link_Represents ds edges c t rk' a b :
  DisjointSetInv ds -> Represents ds edges ->
  JsMap.get (parent ds) c = Some c ->
  JsMap.get (parent ds) t = Some t ->
  c <> t ->
  (Root ds a c /\ Root ds b t) \/ (Root ds a t /\ Root ds b c) ->
  Represents {| parent := JsMap.set (parent ds) c t; rank := rk' |}
             ((a, b) :: edges).
Proof.
  intros I [Ends Sem] Gc Gt N AB.
  assert (Kc : In c (JsMap.keys (parent ds))) by (eapply get_Some_key; eauto).
  assert (K : JsMap.keys (JsMap.set (parent ds) c t) = JsMap.keys (parent ds))
    by now apply keys_set_old.
  assert (Ka : In a (JsMap.keys (parent ds)))
    by (destruct AB as [[R _]|[R _]]; eapply Root_key; eauto).
  assert (Kb : In b (JsMap.keys (parent ds)))
    by (destruct AB as [[_ R]|[_ R]]; eapply Root_key; eauto).
  split; simpl; rewrite K.
  - intros p q [E|Ipq]; [injection E as <- <-; auto | auto].
  - intros x y. rewrite SameSet_link by eauto.
    rewrite Connected_add, !Sem. tauto.
Qed.

Lemma unionTwo_spec ds edges a b :
  DisjointSetInv ds -> Represents ds edges ->
  exists ds',
    unionTwo ds a b = Some ds' /\
    DisjointSetInv ds' /\
    Represents ds' ((a, b) :: edges) /\
    (forall y, In y (JsMap.keys (parent ds')) <->
               In y (JsMap.keys (parent ds)) \/ y = a \/ y = b).
Proof.
  intros I Rep. unfold unionTwo.
  destruct (@find_spec ds a I) as (ds1 & ra & -> & P1).
  destruct (@find_Represents ds edges a ds1 ra I Rep P1) as (Rep1 & K1).
  destruct P1 as (I1 & Ra1 & _).
  destruct (@find_spec ds1 b I1) as (ds2 & rb & -> & P2).
  destruct (@find_Represents ds1 edges b ds2 rb I1 Rep1 P2) as (Rep2 & K2).
  destruct P2 as (I2 & Rb & Pres & _).
  assert (Ra : Root ds2 a ra) by auto.
  assert (Keys : forall y, In y (JsMap.keys (parent ds2)) <->
                           In y (JsMap.keys (parent ds)) \/ y = a \/ y = b).
  { intros y. rewrite K2, K1. tauto. }
  assert (Gra := Root_is_root Ra). assert (Grb := Root_is_root Rb).
  destruct (Nat.eqb_spec ra rb) as [<-|N].
  - (* already in one set *)
    assert (Cab : Connected edges a b).
    { apply (proj2 Rep2 a b). exists ra. auto. }
    exists ds2. split; [reflexivity|]. split; [exact I2|]. split; [|exact Keys].
    split.
    + intros p q [E|Ipq].
      * injection E as <- <-. split; eapply Root_key; eauto.
      * exact (proj1 Rep2 _ _ Ipq).
    + intros x y. rewrite (proj2 Rep2 x y), Connected_add. split.
      * intros (Kx & Ky & C). auto.
      * intros (Kx & Ky & [C|[[Ca Cb]|[Ca Cb]]]); repeat split; auto.
        -- exact (Connected_trans Ca (Connected_trans Cab Cb)).
        -- exact (Connected_trans Ca (Connected_trans (Connected_sym Cab) Cb)).
  - destruct (rankOf ds2 ra <? rankOf ds2 rb) eqn:LtAB.
    + (* [ra] goes under [rb] *)
      apply Nat.ltb_lt in LtAB.
      eexists. split; [reflexivity|]. split; [|split].
      * apply link_Inv;
          [exact I2 | exact Gra | exact Grb | exact N | intros; reflexivity
          | apply Nat.le_refl | exact LtAB | apply I2].
      * apply link_Represents; auto.
      * intros y. simpl. rewrite keys_set_old by (eapply get_Some_key; eauto).
        apply Keys.
    + apply Nat.ltb_ge in LtAB.
      destruct (rankOf ds2 rb <? rankOf ds2 ra) eqn:LtBA.
      * (* [rb] goes under [ra] *)
        apply Nat.ltb_lt in LtBA.
        eexists. split; [reflexivity|]. split; [|split].
        -- apply link_Inv;
             [exact I2 | exact Grb | exact Gra | congruence | intros; reflexivity
             | apply Nat.le_refl | exact LtBA | apply I2].
        -- apply link_Represents; auto.
        -- intros y. simpl. rewrite keys_set_old by (eapply get_Some_key; eauto).
           apply Keys.
      * (* equal ranks: [rb] goes under [ra], whose rank grows *)
        apply Nat.ltb_ge in LtBA.
        eexists. split; [reflexivity|]. split; [|split].
        -- apply link_Inv; [exact I2 | exact Grb | exact Gra | congruence | | | |].
           ++ intros y Ny. rewrite rankOf_set. destruct (Nat.eq_dec ra y); congruence.
           ++ rewrite rankOf_set. destruct (Nat.eq_dec ra ra); [lia | congruence].
           ++ rewrite rankOf_set. destruct (Nat.eq_dec ra ra); [lia | congruence].
           ++ intros y K. apply keys_set_In in K. destruct K as [K| ->].
              ** now apply (inv_rank_keys I2).
              ** eapply get_Some_key; eauto.
        -- apply link_Represents; auto.
        -- intros y. simpl. rewrite keys_set_old by (eapply get_Some_key; eauto).
           apply Keys.
Qed.

(** *** [union] and the loop of [getInstructionScopeRanges] *)

Lemma Connected_incl edges edges' :
  (forall a b, In (a, b) edges -> Connected edges' a b) ->
  forall x y, Connected edges x y -> Connected edges' x y.
Proof.
  intros Inc x y C. induction C.
  - apply Connected_refl.
  - auto.
  - now apply Connected_sym.
  - eapply Connected_trans; eauto.
Qed.

Lemma Represents_ext ds edges edges' :
  (forall e, In e edges <-> In e edges') ->
  Represents ds edges -> Represents ds edges'.
Proof.
  intros Ext [Ends Sem]. split.
  - intros a b I. apply Ends. now apply Ext.
  - intros x y. rewrite Sem.
    assert (Connected edges x y <-> Connected edges' x y).
    { split; apply Connected_incl; intros a b I; apply Connected_edge; now apply Ext. }
    tauto.
Qed.

Lemma unionWith_spec first rest : forall ds edges,
  DisjointSetInv ds -> Represents ds edges ->
  exists ds',
    unionWith first rest ds = Some ds' /\
    DisjointSetInv ds' /\
    Represents ds' (rev (map (pair first) rest) ++ edges).
Proof.
  induction rest as [|x rest IH]; intros ds edges I Rep; simpl.
  - eauto.
  - destruct (@unionTwo_spec ds edges first x I Rep) as (ds1 & -> & I1 & Rep1 & _).
    destruct (IH ds1 _ I1 Rep1) as (ds' & E & I' & Rep').
    exists ds'. split; [exact E|]. split; [exact I'|].
    now rewrite <- app_assoc.
Qed.

Lemma union_spec ds edges items :
  DisjointSetInv ds -> Represents ds edges ->
  exists ds',
    union ds items = Some ds' /\
    DisjointSetInv ds' /\
    Represents ds' (unionEdges items ++ edges).
Proof.
  intros I Rep. destruct items as [|first [|x rest]]; simpl; eauto.
  apply (@unionWith_spec first (x :: rest) ds edges I Rep).
Qed.

Lemma scopeUnionStep_spec valuesInfo ds edges entry :
  DisjointSetInv ds -> Represents ds edges ->
  exists ds',
    scopeUnionStep valuesInfo ds entry = Some ds' /\
    DisjointSetInv ds' /\
    Represents ds' (stepEdges valuesInfo entry ++ edges).
Proof.
  intros I Rep. destruct entry as [id instr]. unfold scopeUnionStep, stepEdges. simpl.
  destruct (JsMap.get valuesInfo id) as [info|]; [|eauto].
  destruct (shouldMemoize info); [|eauto].
  apply union_spec; auto.
Qed.

Lemma scopeUnion_fold valuesInfo (func : FunctionBody) : forall ds edges,
  DisjointSetInv ds -> Represents ds edges ->
  exists ds' edges',
    foldO (scopeUnionStep valuesInfo) func ds = Some ds' /\
    DisjointSetInv ds' /\
    Represents ds' edges' /\
    (forall e, In e edges' <->
               In e edges \/ In e (flat_map (stepEdges valuesInfo) func)).
Proof.
  induction func as [|entry func IH]; intros ds edges I Rep; simpl.
  - exists ds, edges. split; [reflexivity|]. split; [exact I|]. split; [exact Rep|].
    intros e. tauto.
  - destruct (@scopeUnionStep_spec valuesInfo ds edges entry I Rep)
      as (ds1 & -> & I1 & Rep1).
    destruct (IH ds1 _ I1 Rep1) as (ds' & edges' & E & I' & Rep' & Ch).
    exists ds', edges'. split; [exact E|]. split; [exact I'|]. split; [exact Rep'|].
    intros e. rewrite (Ch e), !in_app_iff. tauto.
Qed.

Lemma emptyDisjointSet_Inv : DisjointSetInv emptyDisjointSet.
Proof.
  constructor; simpl; try (intros; discriminate); try (intros ? []). constructor.
Qed.

Lemma emptyDisjointSet_Represents : Represents emptyDisjointSet [].
Proof.
  split.
  - intros a b [].
  - intros x y. split.
    + intros (r & R & _). apply Root_key in R. destruct R.
    + intros ([] & _).
Qed.

Lemma unionEdges_In items a b :
  In (a, b) (unionEdges items) <->
  exists rest, items = a :: rest /\ 2 <= length items /\ In b rest.
Proof.
  destruct items as [|first [|x rest]]; simpl.
  - split; [tauto | intros (? & ? & _); discriminate].
  - split; [tauto | intros (? & ? & L & _); simpl in L; lia].
  - rewrite in_app_iff, <- in_rev, in_map_iff. simpl. split.
    + intros [(y & E & I)|[E|[]]]; injection E as <- <-;
        exists (x :: rest); repeat split; simpl; auto; lia.
    + intros (r & E & _ & I). injection E as <- <-. destruct I as [<-|I]; auto.
      left. exists b. auto.
Qed.


(** *** [buildSets] *)

Lemma membersOf_set groups root g r :
  membersOf (JsMap.set groups root g) r =
    if Nat.eq_dec root r then g else membersOf groups r.
Proof.
  unfold membersOf. destruct (Nat.eq_dec root r) as [<-|N].
  - now rewrite get_set_same.
  - now rewrite get_set_other.
Qed.

Lemma find_member ds x :
  DisjointSetInv ds -> In x (JsMap.keys (parent ds)) ->
  exists ds' r,
    find ds x = Some (ds', r) /\
    DisjointSetInv ds' /\
    JsMap.keys (parent ds') = JsMap.keys (parent ds) /\
    Root ds x r /\
    (forall y ry, In y (JsMap.keys (parent ds)) -> (Root ds' y ry <-> Root ds y ry)).
Proof.
  intros I Kx. destruct (@find_spec ds x I) as (ds' & r & E & I' & Rx & Pres & K & _).
  apply has_In in Kx. rewrite Kx in K. apply has_In in Kx.
  assert (Back : forall y ry, In y (JsMap.keys (parent ds)) ->
                              (Root ds' y ry <-> Root ds y ry)).
  { intros y ry Ky. split; [|apply Pres].
    intros R. destruct (@Root_total ds y I Ky) as (r0 & R0).
    now rewrite (Root_functional R (Pres _ _ R0)). }
  assert (Rx0 : Root ds x r) by (apply Back; auto).
  exists ds', r. split; [exact E|]. split; [exact I'|]. split; [exact K|].
  split; [exact Rx0 | exact Back].
Qed.

Lemma groupItems_spec items : forall ds groups,
  DisjointSetInv ds ->
  (forall x, In x items -> In x (JsMap.keys (parent ds))) ->
  NoDup (JsMap.keys groups) ->
  exists groups',
    groupItems items ds groups = Some groups' /\
    NoDup (JsMap.keys groups') /\
    (forall r x, In x (membersOf groups' r) <->
                 In x (membersOf groups r) \/ (In x items /\ Root ds x r)) /\
    (NoDup items ->
     (forall r, NoDup (membersOf groups r)) ->
     (forall r x, In x (membersOf groups r) -> ~ In x items) ->
     forall r, NoDup (membersOf groups' r)).
Proof.
  induction items as [|item items IH]; intros ds groups I Sub NDk; simpl.
  - exists groups. repeat split; auto; tauto.
  - destruct (@find_member ds item I (Sub item (or_introl eq_refl)))
      as (ds' & root & -> & I' & K & Ri & Back).
    fold (membersOf groups root).
    destruct (IH ds' (JsMap.set groups root (membersOf groups root ++ [item])) I')
      as (groups' & E & NDk' & Mem & ND).
    { intros x Ix. rewrite K. apply Sub. now right. }
    { now apply keys_set_NoDup. }
    exists groups'. split; [exact E|]. split; [exact NDk'|]. split.
    + intros r x. rewrite Mem, membersOf_set.
      assert (Tr : In x items -> (Root ds' x r <-> Root ds x r)).
      { intros Ix. apply Back, Sub. now right. }
      destruct (Nat.eq_dec root r) as [<-|N].
      * rewrite in_app_iff. simpl. split.
        -- intros [[Ix|[<-|[]]]|[Ix R]].
           ++ now left.
           ++ right. split; [now left | exact Ri].
           ++ right. split; [now right | now apply Tr].
        -- intros [Ix|[[<-|Ix] R]].
           ++ left. now left.
           ++ left. right. now left.
           ++ right. split; [exact Ix | now apply Tr].
      * split.
        -- intros [Ix|[Ix R]]; [now left|].
           right. split; [now right | now apply Tr].
        -- intros [Ix|[[<-|Ix] R]].
           ++ now left.
           ++ exfalso. apply N. exact (Root_functional Ri R).
           ++ right. split; [exact Ix | now apply Tr].
    + intros NDi NDg Dis. inversion NDi as [|? ? Ni NDi']; subst.
      apply ND; auto.
      * intros r. rewrite membersOf_set. destruct (Nat.eq_dec root r) as [<-|N]; auto.
        apply NoDup_app; auto.
        -- constructor; [intros [] | constructor].
        -- intros x Ix [Ex|[]]. subst x. apply (Dis root item Ix). now left.
      * intros r x. rewrite membersOf_set. destruct (Nat.eq_dec root r) as [<-|N].
        -- intros Ix. apply in_app_or in Ix. destruct Ix as [Ix|[Ex|[]]].
           ++ intros Ii. apply (Dis root x Ix). now right.
           ++ now subst x.
        -- intros Ix Ii. apply (Dis r x Ix). now right.
Qed.

Lemma two_distinct_length {A} (l : list A) x y :
  In x l -> In y l -> x <> y -> 2 <= length l.
Proof.
  destruct l as [|a [|b l]]; simpl; try tauto; try lia.
  intros [<-|[]] [<-|[]]. congruence.
Qed.

Lemma values_get {V} (m : list (InstrId * V)) v :
  NoDup (JsMap.keys m) ->
  (In v (JsMap.values m) <-> exists k, JsMap.get m k = Some v).
Proof.
  intros ND. unfold JsMap.values. rewrite in_map_iff. split.
  - intros ([k v'] & <- & I). exists k. now apply In_get.
  - intros (k & G). exists (k, v). split; auto. now apply get_Some_In.
Qed.

(** The sets [buildSets] returns are the classes of two members or more. *)
Lemma buildSets_spec ds :
  DisjointSetInv ds ->
  exists sets,
    buildSets ds = Some sets /\
    (forall s, In s sets ->
       2 <= length s /\ NoDup s /\
       exists r, forall x, In x s <-> Root ds x r) /\
    (forall x y, x <> y -> SameSet ds x y ->
       exists s, In s sets /\ In x s /\ In y s).
Proof.
  intros I. unfold buildSets.
  destruct (@groupItems_spec (JsMap.keys (parent ds)) ds [] I)
    as (groups & -> & NDk & Mem & ND); auto; [constructor|].
  assert (Mem' : forall r x, In x (membersOf groups r) <-> Root ds x r).
  { intros r x. rewrite Mem. unfold membersOf at 1. simpl. split.
    - intros [[]|[_ R]]. exact R.
    - intros R. right. split; auto. eapply Root_key; eauto. }
  assert (NDg : forall r, NoDup (membersOf groups r)).
  { apply ND; [apply I | intros r; constructor | intros r x []]. }
  eexists. split; [reflexivity|]. split.
  - intros s Is. apply filter_In in Is. destruct Is as [Iv L].
    apply Nat.ltb_lt in L. apply values_get in Iv; auto.
    destruct Iv as (r & G).
    assert (E : membersOf groups r = s) by (unfold membersOf; now rewrite G).
    split; [lia|]. split; [rewrite <- E; apply NDg|].
    exists r. intros x. rewrite <- E. apply Mem'.
  - intros x y N (r & Rx & Ry).
    assert (Ix : In x (membersOf groups r)) by now apply Mem'.
    assert (Iy : In y (membersOf groups r)) by now apply Mem'.
    exists (membersOf groups r). split; auto.
    apply filter_In. split.
    + apply values_get; auto. exists r. unfold membersOf in *.
      destruct (JsMap.get groups r); [reflexivity | destruct Ix].
    + apply Nat.ltb_lt. pose proof (two_distinct_length _ Ix Iy N). lia.
Qed.

Lemma Connected_endpoints edges x y :
  Connected edges x y ->
  x = y \/
  ((exists z, In (x, z) edges \/ In (z, x) edges) /\
   (exists z, In (y, z) edges \/ In (z, y) edges)).
Proof.
  induction 1 as [x|a b I|x y C IH|x y z C1 IH1 C2 IH2].
  - auto.
  - right. split; [exists b | exists a]; auto.
  - destruct IH as [->|[? ?]]; auto.
  - destruct IH1 as [->|[? ?]]; auto. destruct IH2 as [<-|[? ?]]; auto.
Qed.

Lemma Represents_member ds edges x y :
  Represents ds edges -> Connected edges x y ->
  In x (JsMap.keys (parent ds)) -> In y (JsMap.keys (parent ds)).
Proof.
  intros [Ends _] C Kx. apply Connected_endpoints in C.
  destruct C as [<-|[_ (z & [I|I])]]; auto; now apply Ends in I.
Qed.

(** The classes [getInstructionScopeRanges] extracts: those of two members
    or more of the equivalence generated by the unions it makes. *)
Lemma mutatingSetsOf_spec func valuesInfo :
  exists sets,
    mutatingSetsOf func valuesInfo = Some sets /\
    (forall s, In s sets ->
       2 <= length s /\ NoDup s /\
       forall x, In x s ->
       forall y, In y s <-> Connected (flat_map (stepEdges valuesInfo) func) x y) /\
    (forall x y, x <> y -> Connected (flat_map (stepEdges valuesInfo) func) x y ->
       exists s, In s sets /\ In x s /\ In y s).
Proof.
  unfold mutatingSetsOf.
  destruct (@scopeUnion_fold valuesInfo func emptyDisjointSet []
              emptyDisjointSet_Inv emptyDisjointSet_Represents)
    as (ds & edges & -> & I & Rep & Ch).
  assert (Rep' : Represents ds (flat_map (stepEdges valuesInfo) func)).
  { apply Represents_ext with edges; auto. intros e. rewrite (Ch e). simpl. tauto. }
  clear Rep Ch edges.
  destruct (@buildSets_spec ds I) as (sets & -> & Cls & All).
  exists sets. split; [reflexivity|]. split.
  - intros s Is. destruct (Cls s Is) as (L & ND & r & Mem).
    split; [exact L|]. split; [exact ND|].
    intros x Ix y. apply Mem in Ix.
    rewrite Mem. split.
    + intros Ry. apply (proj2 Rep' x y). exists r. auto.
    + intros C.
      assert (Kx : In x (JsMap.keys (parent ds))) by (eapply Root_key; eauto).
      assert (Ky : In y (JsMap.keys (parent ds)))
        by (eapply Represents_member; eauto).
      destruct (proj2 (proj2 Rep' x y) (conj Kx (conj Ky C))) as (r' & Rx & Ry).
      now rewrite (Root_functional Ix Rx).
  - intros x y N C. apply All; auto.
    apply (proj2 Rep' x y).
    destruct (Connected_endpoints C) as [E|[(z & Ix) (z' & Iy)]]; [contradiction|].
    repeat split; auto.
    + destruct Ix as [Ix|Ix]; now apply (proj1 Rep') in Ix.
    + destruct Iy as [Iy|Iy]; now apply (proj1 Rep') in Iy.
Qed.

(* ================================================================== *)
(** ** Scope ranges *)

Lemma fold_min_spec l : forall x,
  (fold_left Nat.min l x = x \/ In (fold_left Nat.min l x) l) /\
  fold_left Nat.min l x <= x /\
  (forall y, In y l -> fold_left Nat.min l x <= y).
Proof.
  induction l as [|a l IH]; intros x; simpl.
  - split; [auto|]. split; [lia | intros ? []].
  - destruct (IH (Nat.min x a)) as (M & Le & All).
    split; [|split].
    + destruct M as [M|M]; [|auto]. rewrite M.
      destruct (Nat.min_spec x a) as [[_ ->]|[_ ->]]; auto.
    + lia.
    + intros y [<-|I]; [lia | auto].
Qed.

Lemma fold_max_spec l : forall x,
  (fold_left Nat.max l x = x \/ In (fold_left Nat.max l x) l) /\
  x <= fold_left Nat.max l x /\
  (forall y, In y l -> y <= fold_left Nat.max l x).
Proof.
  induction l as [|a l IH]; intros x; simpl.
  - split; [auto|]. split; [lia | intros ? []].
  - destruct (IH (Nat.max x a)) as (M & Le & All).
    split; [|split].
    + destruct M as [M|M]; [|auto]. rewrite M.
      destruct (Nat.max_spec x a) as [[_ ->]|[_ ->]]; auto.
    + lia.
    + intros y [<-|I]; [lia | auto].
Qed.

(** [Math.min(...set)] and [Math.max(...set)] are the least and the
    greatest member. *)
Lemma minOf_spec l :
  l <> [] -> In (minOf l) l /\ forall y, In y l -> minOf l <= y.
Proof.
  destruct l as [|x l]; [congruence|]. intros _. simpl.
  destruct (fold_min_spec l x) as (M & Le & All). split.
  - destruct M as [->|M]; auto.
  - intros y [<-|I]; auto.
Qed.

Lemma maxOf_spec l :
  l <> [] -> In (maxOf l) l /\ forall y, In y l -> y <= maxOf l.
Proof.
  destruct l as [|x l]; [congruence|]. intros _. simpl.
  destruct (fold_max_spec l x) as (M & Le & All). split.
  - destruct M as [->|M]; auto.
  - intros y [<-|I]; auto.
Qed.

Lemma rangeOf_proper s :
  2 <= length s -> NoDup s -> r_start (rangeOf s) < r_end (rangeOf s).
Proof.
  intros L ND. destruct s as [|x [|y s]]; simpl in L; try lia.
  assert (NE : x :: y :: s <> []) by discriminate.
  destruct (minOf_spec NE) as (_ & Mn). destruct (maxOf_spec NE) as (_ & Mx).
  assert (N : x <> y).
  { inversion ND; subst. intros ->. apply H1. now left. }
  pose proof (Mn x (or_introl eq_refl)). pose proof (Mn y (or_intror (or_introl eq_refl))).
  pose proof (Mx x (or_introl eq_refl)). pose proof (Mx y (or_intror (or_introl eq_refl))).
  unfold rangeOf. cbn [r_start r_end]. lia.
Qed.

Lemma insertRange_In r sorted x :
  In x (insertRange r sorted) <-> x = r \/ In x sorted.
Proof.
  induction sorted as [|y sorted IH]; simpl.
  - intuition.
  - destruct (r_start r <? r_start y); simpl; rewrite ?IH; intuition.
Qed.

Lemma insertRange_sorted r sorted :
  StronglySorted startsLe sorted -> StronglySorted startsLe (insertRange r sorted).
Proof.
  induction 1 as [|y sorted S IH F]; simpl.
  - repeat constructor.
  - destruct (r_start r <? r_start y) eqn:E.
    + apply Nat.ltb_lt in E. constructor; [constructor; auto|].
      constructor; [unfold startsLe; lia|].
      eapply Forall_impl; [|exact F]. unfold startsLe. intros; lia.
    + apply Nat.ltb_ge in E. constructor; auto.
      apply Forall_forall. intros x Ix. apply insertRange_In in Ix.
      destruct Ix as [->|Ix]; [exact E|].
      rewrite Forall_forall in F. auto.
Qed.

Lemma sortRanges_spec ranges :
  StronglySorted startsLe (sortRanges ranges) /\
  forall x, In x (sortRanges ranges) <-> In x ranges.
Proof.
  unfold sortRanges.
  assert (G : forall l acc,
             StronglySorted startsLe acc ->
             StronglySorted startsLe
               (fold_left (fun sorted r => insertRange r sorted) l acc) /\
             forall x, In x (fold_left (fun sorted r => insertRange r sorted) l acc)
                       <-> In x acc \/ In x l).
  { induction l as [|r l IH]; intros acc S; simpl.
    - split; auto. intuition.
    - destruct (IH (insertRange r acc) (insertRange_sorted r S)) as (S' & M).
      split; auto. intros x. rewrite M, insertRange_In. intuition. }
  destruct (G ranges [] (SSorted_nil _)) as (S & M). split; auto.
  intros x. rewrite M. simpl. tauto.
Qed.

Lemma mergeLoop_head previous ranges :
  exists span rest,
    mergeLoop previous ranges = span :: rest /\
    r_start span = r_start previous.
Proof.
  revert previous. induction ranges as [|r ranges IH]; intros previous; simpl.
  - eauto.
  - destruct (r_start r <=? r_end previous).
    + destruct (IH {| r_start := r_start previous;
                      r_end := Nat.max (r_end previous) (r_end r) |})
        as (span & rest & -> & E). eauto.
    + eauto.
Qed.

(** The merge yields spans in ascending order, none touching the next. *)
Lemma mergeLoop_Ascending ranges : forall previous,
  Ascending (mergeLoop previous ranges).
Proof.
  induction ranges as [|r ranges IH]; intros previous; simpl.
  - constructor.
  - destruct (r_start r <=? r_end previous) eqn:E; [apply IH|].
    apply Nat.leb_gt in E.
    destruct (mergeLoop_head r ranges) as (span & rest & M & S).
    specialize (IH r). rewrite M in *. constructor; auto. lia.
Qed.

Lemma mergeLoop_proper ranges : forall previous,
  r_start previous < r_end previous ->
  Forall (fun r => r_start r < r_end r) ranges ->
  Forall (fun r => r_start r < r_end r) (mergeLoop previous ranges).
Proof.
  induction ranges as [|r ranges IH]; intros previous P F; simpl.
  - auto.
  - inversion F; subst. destruct (r_start r <=? r_end previous).
    + apply IH; auto. simpl. lia.
    + constructor; auto.
Qed.

(** Every range lies within a span, when the ranges come sorted by start. *)
Lemma mergeLoop_covers ranges : forall previous,
  StronglySorted startsLe (previous :: ranges) ->
  forall inner, within inner previous \/ In inner ranges ->
  exists span, In span (mergeLoop previous ranges) /\ within inner span.
Proof.
  induction ranges as [|r ranges IH]; intros previous S inner I; simpl.
  - destruct I as [W|[]]. exists previous. auto.
  - inversion S as [|? ? S' F]; subst. inversion F as [|? ? Lr F']; subst.
    inversion S' as [|? ? S'' Fr]; subst.
    destruct (r_start r <=? r_end previous) eqn:E.
    + apply IH.
      * constructor; [exact S''|].
        eapply Forall_impl; [|exact F']. unfold startsLe. simpl. auto.
      * unfold within in *. simpl. unfold startsLe in Lr.
        destruct I as [W|[Er|I]]; [left; lia | subst inner; left; lia | now right].
    + destruct I as [W|[Er|I]].
      * exists previous. split; [now left | exact W].
      * subst inner. destruct (IH r S' r) as (span & Is & W).
        { left. unfold within. lia. }
        exists span. split; [now right | exact W].
      * destruct (IH r S' inner (or_intror I)) as (span & Is & W).
        exists span. split; [now right | exact W].
Qed.

(** The ends of every span are ends of ranges. *)
Lemma mergeLoop_ends ranges : forall previous span,
  In span (mergeLoop previous ranges) ->
  (exists r, In r (previous :: ranges) /\ r_start span = r_start r) /\
  (exists r, In r (previous :: ranges) /\ r_end span = r_end r).
Proof.
  induction ranges as [|r ranges IH]; intros previous span I; simpl in I.
  - destruct I as [<-|[]]. split; exists previous; simpl; auto.
  - destruct (r_start r <=? r_end previous).
    + destruct (IH _ _ I) as ((a & Ia & Ea) & (b & Ib & Eb)). split.
      * destruct Ia as [<-|Ia]; [exists previous | exists a]; simpl in *; auto.
      * destruct Ib as [<-|Ib]; [|exists b; simpl; auto].
        simpl in Eb.
        destruct (Nat.max_spec (r_end previous) (r_end r)) as [[_ M]|[_ M]];
          rewrite M in Eb; [exists r | exists previous]; simpl; auto.
    + destruct I as [<-|I].
      * split; exists previous; simpl; auto.
      * destruct (IH _ _ I) as ((a & Ia & Ea) & (b & Ib & Eb)).
        split; [exists a | exists b]; simpl; auto.
Qed.

(** The spans [getInstructionScopeRanges] returns. *)
Lemma getInstructionScopeRanges_spec func valuesInfo :
  exists sets spans,
    mutatingSetsOf func valuesInfo = Some sets /\
    getInstructionScopeRanges func valuesInfo = Some spans /\
    spans = mergeRanges (sortRanges (map rangeOf sets)) /\
    Ascending spans /\
    Forall (fun r => r_start r < r_end r) spans /\
    (forall s, In s sets -> exists span, In span spans /\ within (rangeOf s) span) /\
    (forall span, In span spans ->
       (exists s, In s sets /\ r_start span = minOf s) /\
       (exists s, In s sets /\ r_end span = maxOf s)).
Proof.
  destruct (mutatingSetsOf_spec func valuesInfo) as (sets & E & Cls & _).
  exists sets, (mergeRanges (sortRanges (map rangeOf sets))).
  unfold getInstructionScopeRanges. rewrite E.
  split; [reflexivity|]. split; [reflexivity|]. split; [reflexivity|].
  destruct (sortRanges_spec (map rangeOf sets)) as (S & M).
  assert (P : Forall (fun r => r_start r < r_end r) (sortRanges (map rangeOf sets))).
  { apply Forall_forall. intros r Ir. apply M, in_map_iff in Ir.
    destruct Ir as (s & <- & Is). destruct (Cls s Is) as (L & ND & _).
    now apply rangeOf_proper. }
  destruct (sortRanges (map rangeOf sets)) as [|first rest] eqn:Sorted; simpl.
  - split; [constructor|]. split; [constructor|]. split.
    + intros s Is. exfalso. apply (proj2 (M (rangeOf s))). now apply in_map.
    + intros span [].
  - inversion P; subst.
    split; [apply mergeLoop_Ascending|].
    split; [now apply mergeLoop_proper|]. split.
    + intros s Is.
      assert (Ir : In (rangeOf s) (first :: rest)) by (apply M; now apply in_map).
      apply mergeLoop_covers; auto.
      destruct Ir as [<-|Ir]; [left; unfold within; lia | now right].
    + intros span Ispan.
      destruct (mergeLoop_ends _ _ _ Ispan) as ((a & Ia & Ea) & (b & Ib & Eb)).
      apply M, in_map_iff in Ia. apply M, in_map_iff in Ib.
      destruct Ia as (sa & <- & Isa). destruct Ib as (sb & <- & Isb).
      split; [exists sa | exists sb]; auto.
Qed.

(* ================================================================== *)
(** ** The reactive instruction sequence *)

Lemma entriesOf_app hir hir' : entriesOf (hir ++ hir') = entriesOf hir ++ entriesOf hir'.
Proof. apply flat_map_app. Qed.

Lemma entriesIn_app func l l' :
  entriesIn func (l ++ l') = entriesIn func l ++ entriesIn func l'.
Proof. apply flat_map_app. Qed.

Lemma passThrough_entries func from to :
  entriesOf (passThrough func from to) = entriesIn func (seq from (to - from)).
Proof.
  unfold passThrough, entriesOf, entriesIn.
  induction (seq from (to - from)) as [|i l IH]; simpl; auto.
  destruct (JsMap.get func i); simpl; now rewrite IH.
Qed.

Lemma passThrough_noBlock func from to :
  forallb (fun ri => negb (isBlock ri)) (passThrough func from to) = true.
Proof.
  unfold passThrough. induction (seq from (to - from)) as [|i l IH]; simpl; auto.
  destruct (JsMap.get func i); simpl; auto.
Qed.

Lemma entriesIn_keys func ids x :
  In x (JsMap.keys (entriesIn func ids)) -> In x ids.
Proof.
  unfold entriesIn, JsMap.keys. rewrite in_map_iff.
  intros ([k v] & <- & I). apply in_flat_map in I. destruct I as (i & Ii & I).
  destruct (JsMap.get func i); [|destruct I]. destruct I as [E|[]].
  injection E as <- <-. exact Ii.
Qed.

(** The members of a block are the entries of its span, in order. *)
Lemma makeBlock_instrs func valuesInfo scope :
  instrs (makeBlock func valuesInfo scope) =
    entriesIn func (seq (r_start scope) (S (r_end scope) - r_start scope)).
Proof.
  unfold makeBlock.
  assert (G : forall l b,
             NoDup l ->
             (forall i, In i l -> ~ In i (JsMap.keys (instrs b))) ->
             instrs (fold_left (blockStep func valuesInfo) l b) =
               instrs b ++ entriesIn func l).
  { induction l as [|i l IH]; intros b ND Fresh; simpl.
    - now rewrite app_nil_r.
    - inversion ND as [|? ? Ni ND']; subst.
      unfold blockStep at 2.
      destruct (JsMap.get func i) as [instr|] eqn:Gi.
      + rewrite IH; auto; simpl.
        * rewrite set_new by (apply Fresh; now left). now rewrite <- app_assoc.
        * intros j Ij. rewrite keys_set_In. intros [K|Ej].
          -- apply (Fresh j); [now right | exact K].
          -- subst j. contradiction.
      + apply IH; auto. intros j Ij. apply Fresh. now right. }
  rewrite G; auto using seq_NoDup.
Qed.

(** One scope whose span is more than one id: the instructions before it
    pass through, those within it form a block. *)
Lemma scopeStep_proper func valuesInfo hir startingInstrId scope :
  r_start scope < r_end scope ->
  scopeStep func valuesInfo (hir, startingInstrId) scope =
    Ok (hir ++ passThrough func startingInstrId (r_start scope)
            ++ [RBlock (makeBlock func valuesInfo scope)],
        r_end scope + 1).
Proof.
  intros P. unfold scopeStep.
  replace (r_start scope =? r_end scope) with false
    by (symmetry; apply Nat.eqb_neq; lia).
  now rewrite <- app_assoc.
Qed.


Lemma Ascending_tail r l : Ascending (r :: l) -> Ascending l.
Proof. inversion 1; subst; auto. constructor. Qed.

Lemma Ascending_after l : forall r,
  Ascending (r :: l) ->
  Forall (fun r => r_start r < r_end r) (r :: l) ->
  forall x, In x l -> r_end r < r_start x.
Proof.
  induction l as [|y l IH]; intros r A P x Ix; [destruct Ix|].
  inversion A as [| |? ? ? Lt A']; subst.
  inversion P as [|? ? Pr P']; subst.
  destruct Ix as [<-|Ix]; [exact Lt|].
  pose proof (IH y A' P' x Ix). inversion P' as [|? ? Py _]; subst. lia.
Qed.

Lemma scopes_fold func valuesInfo scopes : forall hir s,
  Ascending scopes ->
  Forall (fun r => r_start r < r_end r) scopes ->
  (forall r, In r scopes -> s <= r_start r) ->
  entriesOf hir = entriesIn func (seq 0 s) ->
  exists hir' s',
    foldM (scopeStep func valuesInfo) scopes (hir, s) = Ok (hir', s') /\
    s <= s' /\
    entriesOf hir' = entriesIn func (seq 0 s').
Proof.
  induction scopes as [|scope scopes IH]; intros hir s A P Lo E; cbn [foldM].
  - eauto.
  - inversion P as [|? ? Ps P']; subst.
    rewrite scopeStep_proper by exact Ps. cbn [bindR].
    pose proof (Lo scope (or_introl eq_refl)) as Ls.
    destruct (IH (hir ++ passThrough func s (r_start scope)
                      ++ [RBlock (makeBlock func valuesInfo scope)])
                 (r_end scope + 1)) as (hir' & s' & F & Le & E').
    + eapply Ascending_tail; eauto.
    + exact P'.
    + intros r Ir. pose proof (Ascending_after A P r Ir). lia.
    + rewrite !entriesOf_app, E, passThrough_entries. simpl.
      rewrite makeBlock_instrs, app_nil_r, <- !entriesIn_app. f_equal.
      replace (r_end scope + 1) with
        (s + ((r_start scope - s) + (S (r_end scope) - r_start scope))) by lia.
      rewrite seq_app, seq_app. simpl. f_equal. f_equal. f_equal. lia.
    + exists hir', s'. split; [exact F|]. split; [lia | exact E'].
Qed.

Lemma entriesIn_sub func (l : FunctionBody) :
  NoDup (JsMap.keys func) -> incl l func ->
  entriesIn func (JsMap.keys l) = l.
Proof.
  intros ND. induction l as [|[k v] l IH]; intros Inc; simpl; auto.
  rewrite (In_get func k v ND) by (apply Inc; now left). simpl.
  f_equal. apply IH. intros e Ie. apply Inc. now right.
Qed.

Lemma entriesIn_beyond func from n :
  dense func -> length func <= from -> entriesIn func (seq from n) = [].
Proof.
  intros D L. unfold entriesIn. revert from L.
  induction n as [|n IH]; intros from L; simpl; auto.
  assert (G : JsMap.get func from = None).
  { apply get_None. rewrite (dense_keys_lt _ D). lia. }
  rewrite G. simpl. apply IH. lia.
Qed.

(** On a dense body, the entries at [0 .. n-1] are the whole body as soon
    as [n] reaches its size. *)
Lemma entriesIn_dense func n :
  dense func -> length func <= n -> entriesIn func (seq 0 n) = func.
Proof.
  intros D L. replace n with (length func + (n - length func)) by lia.
  rewrite seq_app, entriesIn_app. simpl.
  rewrite (@entriesIn_beyond func (length func) (n - length func) D) by lia.
  rewrite app_nil_r.
  rewrite <- D. apply entriesIn_sub; [now apply dense_NoDup | apply incl_refl].
Qed.

Lemma reactiveInstrsFrom_spec func valuesInfo scopes :
  dense func ->
  Ascending scopes ->
  Forall (fun r => r_start r < r_end r) scopes ->
  exists hir,
    reactiveInstrsFrom func valuesInfo scopes = Ok hir /\
    entriesOf hir = func.
Proof.
  intros D A P. unfold reactiveInstrsFrom.
  destruct (@scopes_fold func valuesInfo scopes [] 0 A P) as (hir & s & -> & _ & E).
  - intros r _. lia.
  - reflexivity.
  - simpl. eexists. split; [reflexivity|].
    rewrite entriesOf_app, E, passThrough_entries, <- entriesIn_app, <- seq_app.
    apply entriesIn_dense; auto. unfold JsMap.size. simpl. lia.
Qed.

(** C10. For a body with dense ids and any analysis result, the partitioner
    returns a reactive sequence whose entries, read in order (a pass-through
    instruction as itself, a block as its members), are exactly the entries
    of the body: every id [0 .. size-1] appears once, in ascending order,
    either on its own or inside one block. *)
Theorem reactive_sequence_partitions_body
    (func : FunctionBody) (valuesInfo : ValueInfos) :
  dense func ->
  exists hir,
    makeReactiveInstrs func valuesInfo = Some (Ok hir) /\
    entriesOf hir = func /\
    JsMap.keys (entriesOf hir) = seq 0 (length func).
Proof.
  intros D. unfold makeReactiveInstrs.
  destruct (getInstructionScopeRanges_spec func valuesInfo)
    as (sets & spans & _ & -> & _ & A & P & _).
  destruct (@reactiveInstrsFrom_spec func valuesInfo spans D A P) as (hir & -> & E).
  exists hir. split; [reflexivity|]. split; [exact E|]. rewrite E. exact D.
Qed.

Lemma reactive_sequence_partitions_body_witness :
  dense memoExample_body /\
  exists hir,
    makeReactiveInstrs memoExample_body memoExample_info = Some (Ok hir) /\
    entriesOf hir = memoExample_body /\
    JsMap.keys (entriesOf hir) = seq 0 (length memoExample_body).
Proof.
  split; [reflexivity|].
  apply (@reactive_sequence_partitions_body memoExample_body memoExample_info).
  reflexivity.
Defined.

(* ================================================================== *)
(** ** The block partitioner *)





(* ================================================================== *)
(** ** Functions without parameters and hooks *)

Lemma markIfUses_nil id instr : markIfUses id instr [] = [].
Proof.
  unfold markIfUses. induction (eachValue instr) as [|u l IH]; simpl; auto.
Qed.

Lemma noSeed_mayChange func : noSeed func = true -> getValuesThatMayChange func = [].
Proof.
  unfold noSeed, getValuesThatMayChange. generalize func at 1 3 as whole.
  intros whole. induction func as [|[id instr] func IH]; simpl; auto.
  intros S. apply andb_prop in S. destruct S as [S1 S2].
  apply negb_true_iff in S1. rewrite S1, markIfUses_nil. auto.
Qed.

Lemma dependenciesOf_nil instr : dependenciesOf [] instr = [].
Proof.
  unfold dependenciesOf. induction (eachValue instr) as [|u l IH]; simpl; auto.
Qed.

(** Without a seed, every instruction has no dependency and is not to be
    memoized. *)
Lemma noSeed_analyze func :
  NoDup (JsMap.keys func) -> noSeed func = true ->
  exists info,
    analyze func = Ok info /\
    forall id i, JsMap.get info id = Some i ->
      dependencies i = Some [] /\ shouldMemo i = Some false.
Proof.
  intros ND S. destruct (@analyze_infoOf func ND) as (info & E & K & Infos).
  exists info. split; [exact E|]. intros id i G.
  assert (Kid : In id (JsMap.keys func)).
  { rewrite <- K. eapply get_Some_key; eauto. }
  unfold JsMap.keys in Kid. apply in_map_iff in Kid.
  destruct Kid as ([id' instr] & <- & I). simpl in G.
  destruct (Infos _ _ I) as (i' & G' & M). rewrite G in G'. injection G' as <-.
  unfold memoPart, infoOf in M. simpl in M.
  rewrite (noSeed_mayChange _ S), dependenciesOf_nil in M. simpl in M.
  rewrite andb_false_r in M. now injection M.
Qed.

Lemma scopeUnion_none valuesInfo (func : FunctionBody) ds :
  (forall id i, JsMap.get valuesInfo id = Some i -> shouldMemoize i = false) ->
  foldO (scopeUnionStep valuesInfo) func ds = Some ds.
Proof.
  intros No. induction func as [|[id instr] func IH]; simpl; auto.
  destruct (JsMap.get valuesInfo id) as [i|] eqn:G; auto.
  now rewrite (No id i G).
Qed.

Lemma codegenFrom_noBlock func info hir :
  forallb (fun ri => negb (isBlock ri)) hir = true ->
  codegenFrom func info hir = Ok [].
Proof.
  unfold codegenFrom.
  assert (G : forall state,
             forallb (fun ri => negb (isBlock ri)) hir = true ->
             foldM (codegenStep func info) (map pruneBlock hir) state = Ok state).
  { induction hir as [|[b|id instr] hir IH]; intros state N; simpl in *;
      try discriminate; auto.
    destruct state. simpl. auto. }
  intros N. rewrite (G _ N). reflexivity.
Qed.

(** When nothing is to be memoized, no block forms and [codegenJS] emits
    nothing. *)
Lemma codegenJS_none func info :
  (forall id i, JsMap.get info id = Some i -> shouldMemoize i = false) ->
  makeReactiveInstrs func info = Some (Ok (passThrough func 0 (JsMap.size func))) /\
  codegenJS func info = Some (Ok []).
Proof.
  intros No.
  assert (E : makeReactiveInstrs func info =
              Some (Ok (passThrough func 0 (JsMap.size func)))).
  { unfold makeReactiveInstrs, getInstructionScopeRanges, mutatingSetsOf.
    rewrite (@scopeUnion_none info func emptyDisjointSet No). reflexivity. }
  split; [exact E|]. unfold codegenJS. rewrite E. simpl.
  rewrite codegenFrom_noBlock; auto using passThrough_noBlock.
Qed.

Lemma rewriteStatement_unchanged stmts :
  existsb statementRewritten stmts = false -> map rewriteStatement stmts = stmts.
Proof.
  induction stmts as [|s stmts IH]; simpl; auto.
  intros E. apply orb_false_elim in E. destruct E as [E1 E2].
  rewrite IH by exact E2. f_equal.
  destruct s; simpl in *; auto. now rewrite E1.
Qed.

(** C8, as the code has it. For a function whose lowered body holds no
    [Param] and no hook call: every [dependencies] set is empty, the
    reactive sequence holds no block, [codegenJS] emits no declaration, and
    the compiled body is the input with the statement-level rewrite applied
    to its statements; it is the input itself when no top-level declaration
    is initialized by a direct call of an expensive method. *)
Theorem no_seed_function_compiles_to_rewritten_body
    (func : FunctionDeclaration) (body : FunctionBody) (log : list LogLine) :
  forallb wellTyped (fn_body func) = true ->
  readInstructions func = Ok (body, log) ->
  noSeed body = true ->
  exists info hir,
    analyze body = Ok info /\
    (forall id i, JsMap.get info id = Some i -> dependencies i = Some []) /\
    makeReactiveInstrs body info = Some (Ok hir) /\
    forallb (fun ri => negb (isBlock ri)) hir = true /\
    codegenJS body info = Some (Ok []) /\
    compileFunction func =
      Some (Ok {| out_body := map rewriteStatement (fn_body func);
                  hasAnyOptimizations :=
                    existsb statementRewritten (fn_body func) |}) /\
    (existsb statementRewritten (fn_body func) = false ->
     map rewriteStatement (fn_body func) = fn_body func).
Proof.
  intros T E S.
  pose proof (dense_NoDup (proj1 (readInstructions_wellFormed func T E))) as ND.
  destruct (@noSeed_analyze body ND S) as (info & A & Infos).
  assert (No : forall id i, JsMap.get info id = Some i -> shouldMemoize i = false).
  { intros id i G. destruct (Infos id i G) as (_ & Sm).
    unfold shouldMemoize. now rewrite Sm. }
  destruct (@codegenJS_none body info No) as (Er & Ec).
  exists info, (passThrough body 0 (JsMap.size body)).
  split; [exact A|]. split; [intros id i G; apply (Infos id i G)|].
  split; [exact Er|]. split; [apply passThrough_noBlock|].
  split; [exact Ec|]. split.
  - unfold compileFunction. rewrite E, A, Ec. reflexivity.
  - apply rewriteStatement_unchanged.
Qed.

Lemma no_seed_function_compiles_to_rewritten_body_witness :
  forallb wellTyped (fn_body returnsGlobal) = true /\
  noSeed returnsGlobal_body = true /\
  exists info hir,
    analyze returnsGlobal_body = Ok info /\
    (forall id i, JsMap.get info id = Some i -> dependencies i = Some []) /\
    makeReactiveInstrs returnsGlobal_body info = Some (Ok hir) /\
    forallb (fun ri => negb (isBlock ri)) hir = true /\
    codegenJS returnsGlobal_body info = Some (Ok []) /\
    compileFunction returnsGlobal =
      Some (Ok {| out_body := map rewriteStatement (fn_body returnsGlobal);
                  hasAnyOptimizations :=
                    existsb statementRewritten (fn_body returnsGlobal) |}) /\
    (existsb statementRewritten (fn_body returnsGlobal) = false ->
     map rewriteStatement (fn_body returnsGlobal) = fn_body returnsGlobal).
Proof.
  split; [reflexivity|]. split; [reflexivity|].
  apply (@no_seed_function_compiles_to_rewritten_body returnsGlobal
           returnsGlobal_body
           [LogInstr 0 (LoadConstant "x"); LogInstr 1 (Return (Some 0))]);
    reflexivity.
Defined.

(** The claim as the specification states it fails on
    [function K() { const c = arr.map(f); return c; }]: its body has no
    [Param] and no hook call, yet the declaration of [c] is rewritten. *)
Lemma no_seed_function_is_rewritten :
  (exists log, readInstructions noParams = Ok (noParams_body, log)) /\
  noSeed noParams_body = true /\
  exists out,
    compileFunction noParams = Some (Ok out) /\
    out_body out <> fn_body noParams /\
    hasAnyOptimizations out = true.
Proof.
  split; [eexists; reflexivity|]. split; [reflexivity|].
  eexists. split; [reflexivity|]. split; [discriminate | reflexivity].
Qed.

(* ================================================================== *)
(** ** The code generator *)

Lemma mapM_Forall2 {A B} (f : A -> Result B) l : forall l',
  mapM f l = Ok l' -> Forall2 (fun a b => f a = Ok b) l l'.
Proof.
  induction l as [|a l IH]; intros l' E; simpl in E.
  - injection E as <-. constructor.
  - destruct (f a) as [b|] eqn:Fa; [|discriminate]. simpl in E.
    destruct (mapM f l) as [bs|]; [|discriminate]. simpl in E.
    injection E as <-. constructor; auto.
Qed.

(** The expression [instrToExpression] builds is the direct structural
    equivalent of the instruction: a call or method call, an object literal
    with identifier keys, a plain or computed member access, a bare
    identifier, with the operands rebuilt in the same way. *)
Lemma instrToExpressionFuel_shape func : forall fuel instr e,
  instrToExpressionFuel fuel instr func = Ok e -> hasShapeOf func instr e.
Proof.
  induction fuel as [|fuel IH]; intros instr e E; [discriminate|].
  assert (OfValue : forall v a,
            match v with
            | LiteralValue l => Ok (literalNode l)
            | RValue id =>
                match JsMap.get func id with
                | Some i => instrToExpressionFuel fuel i func
                | None => Throw "TypeError: instr is undefined"
                end
            end = Ok a -> valueHasShape func v a).
  { intros [id|l] a Ha.
    - destruct (JsMap.get func id) as [i|] eqn:Gi; [|discriminate].
      apply shape_rvalue with i; auto.
    - injection Ha as <-. constructor. }
  destruct instr; simpl in E.
  - (* Call *)
    destruct (JsMap.get func receiver) as [ri|] eqn:G; [|discriminate].
    destruct (instrToExpressionFuel fuel ri func) as [target|] eqn:T.
    + assert (Ec : exists callee,
                 callee = match property with
                          | Some (String c p) =>
                              MemberExpression target (Identifier (String c p)) false
                          | _ => target
                          end /\
                 (args <- mapM (fun v => match v with
                                         | LiteralValue l => Ok (literalNode l)
                                         | RValue id =>
                                             match JsMap.get func id with
                                             | Some i => instrToExpressionFuel fuel i func
                                             | None => Throw "TypeError: instr is undefined"
                                             end
                                         end) arguments ;;
                  Ok (CallExpression callee args)) = Ok e).
      { destruct property as [[|c p]|]; simpl in E; eauto. }
      destruct Ec as (callee & -> & E').
      destruct (mapM _ arguments) as [args|] eqn:M; [|discriminate].
      simpl in E'. injection E' as <-.
      apply shape_Call with ri; auto.
      apply mapM_Forall2 in M. eapply Forall2_impl; [|exact M].
      intros v a Ha. now apply OfValue.
    + destruct property as [[|c p]|]; simpl in E; discriminate.
  - (* Object *)
    destruct (mapM _ properties) as [props|] eqn:M; [|discriminate].
    simpl in E. injection E as <-. constructor.
    apply mapM_Forall2 in M. eapply Forall2_impl; [|exact M].
    intros [k v] prop Hp. cbn [fst snd] in Hp.
    match type of Hp with
    | bindR ?c _ = _ => destruct c as [valueExpr|] eqn:V; [|discriminate]
    end.
    simpl in Hp. injection Hp as <-. constructor. now apply OfValue.
  - (* ReadProperty *)
    destruct (JsMap.get func object) as [i|] eqn:G; [|discriminate].
    destruct (instrToExpressionFuel fuel i func) as [obj|] eqn:O; [|discriminate].
    simpl in E.
    assert (E' : e = match property with
                     | PropString p => MemberExpression obj (Identifier p) false
                     | PropNumber n => MemberExpression obj (NumericLiteral n) true
                     end) by (destruct property; now injection E as <-).
    rewrite E'. apply shape_ReadProperty with i; auto.
  - constructor.
  - constructor.
  - injection E as <-. constructor.
  - constructor.
Qed.

Lemma mainOperationOf_Some info members id mainOperation :
  mainOperationOf info members = Some (id, mainOperation) ->
  In (id, mainOperation) members /\
  exists instrInfo, JsMap.get info id = Some instrInfo /\
                    shouldMemo instrInfo = Some true.
Proof.
  induction members as [|[k instr] members IH]; simpl; [discriminate|].
  destruct (JsMap.get info k) as [i|] eqn:G.
  - destruct (shouldMemo i) as [[|]|] eqn:S.
    + intros E. injection E as <- <-. split; [now left | eauto].
    + intros E. destruct (IH E). auto.
    + intros E. destruct (IH E). auto.
  - intros E. destruct (IH E). auto.
Qed.

(** A pass-through instruction adds nothing to the output. *)
Lemma codegenStep_passThrough func info state id instr :
  codegenStep func info state (RInstr id instr) = Ok state.
Proof. destruct state. reflexivity. Qed.

(** Every statement of the output is the memo declaration of a block. *)
Lemma codegenFrom_statements func info hir out :
  codegenFrom func info hir = Ok out ->
  (forall stmt, In stmt out -> isMemoDeclarationOf func info hir stmt) /\
  length out <= length (filter isBlock hir).
Proof.
  unfold codegenFrom.
  assert (G : forall l state state',
             incl l hir ->
             foldM (codegenStep func info) (map pruneBlock l) state = Ok state' ->
             (forall stmt, In stmt (fst state) -> isMemoDeclarationOf func info hir stmt) ->
             (forall stmt, In stmt (fst state') -> isMemoDeclarationOf func info hir stmt) /\
             length (fst state') <= length (fst state) + length (filter isBlock l)).
  { induction l as [|ri l IH]; intros state state' Inc F P; cbn [map foldM] in F.
    - injection F as <-. split; [exact P | simpl; lia].
    - assert (Inc' : incl l hir) by (intros x Ix; apply Inc; now right).
      destruct ri as [b|id instr].
      + destruct state as [stmts n]. cbn [pruneBlock codegenStep] in F.
        cbn [instrs deps] in F.
        set (pruned := filter (fun dep => negb (JsMap.has (instrs b) dep)) (deps b)) in *.
        assert (Skip : foldM (codegenStep func info) (map pruneBlock l) (stmts, n)
                         = Ok state' ->
                       (forall stmt, In stmt (fst state') ->
                                     isMemoDeclarationOf func info hir stmt) /\
                       length (fst state') <= length stmts + length (filter isBlock (RBlock b :: l))).
        { intros F'. destruct (IH _ _ Inc' F' P) as (P' & L). split; auto.
          simpl in *. lia. }
        destruct (0 <? JsSet.size pruned); [|exact (Skip F)].
        destruct (mainOperationOf info (instrs b)) as [[id op]|] eqn:Mo; [|exact (Skip F)].
        destruct (instrToExpression op func) as [comp|] eqn:Ce; [|discriminate].
        cbn [bindR] in F.
        destruct (mainOperationOf_Some _ _ Mo) as (Im & Flag).
        destruct (IH _ _ Inc' F) as (P' & L).
        * cbn [fst]. intros stmt Is. apply in_app_or in Is.
          destruct Is as [Is|[<-|[]]]; auto.
          exists n, b, id, op, comp. repeat split; auto. apply Inc. now left.
        * split; auto. cbn [fst] in L. rewrite length_app in L. simpl in *. lia.
      + cbn [pruneBlock] in F. rewrite codegenStep_passThrough in F.
        cbn [bindR] in F. destruct (IH _ _ Inc' F P) as (P' & L). split; auto. }
  intros E.
  destruct (foldM (codegenStep func info) (map pruneBlock hir) ([], 0))
    as [state'|] eqn:F; [|discriminate].
  simpl in E. injection E as <-.
  destruct (G hir _ _ (incl_refl _) F) as (P & L); [intros ? []|].
  split; auto.
Qed.

(** C3, as the code has it. A pass-through instruction adds no statement:
    a sequence without blocks generates nothing, and every statement of
    [codegenJS]'s output is the declaration [const memoized<N> = useMemo(()
    => e, [deps])] of a block of the sequence, at most one per block, [e]
    being the expression of a member of that block with [shouldMemo]; so no
    statement form is generated for a [Declare] or a [Return]. The
    expression is the direct structural equivalent of the instruction,
    receiver and arguments rebuilt recursively: a [Call] is a call or
    method-call expression, an [Object] an object literal with identifier
    keys, a [ReadProperty] a member access, computed when the property is a
    number, a [LoadConstant] a bare identifier. *)
Theorem codegen_emits_only_memo_declarations :
  (forall func info state id instr,
      codegenStep func info state (RInstr id instr) = Ok state) /\
  (forall func info hir,
      forallb (fun ri => negb (isBlock ri)) hir = true ->
      codegenFrom func info hir = Ok []) /\
  (forall func info hir out,
      makeReactiveInstrs func info = Some (Ok hir) ->
      codegenJS func info = Some (Ok out) ->
      (forall stmt, In stmt out -> isMemoDeclarationOf func info hir stmt) /\
      length out <= length (filter isBlock hir)) /\
  (forall fuel instr func e,
      instrToExpressionFuel fuel instr func = Ok e -> hasShapeOf func instr e).
Proof.
  split; [exact codegenStep_passThrough|].
  split; [exact codegenFrom_noBlock|].
  split; [|intros fuel instr func e; apply instrToExpressionFuel_shape].
  intros func info hir out Er Ec. unfold codegenJS in Ec. rewrite Er in Ec.
  simpl in Ec. injection Ec as Ec. now apply codegenFrom_statements.
Qed.

Lemma codegen_emits_only_memo_declarations_witness :
  (exists hir out,
     makeReactiveInstrs memoExample_body memoExample_info = Some (Ok hir) /\
     codegenJS memoExample_body memoExample_info = Some (Ok out) /\
     length out <= length (filter isBlock hir)) /\
  hasShapeOf noParams_body (Call 0 (Some "map"%string) [RValue 1])
    (CallExpression
       (MemberExpression (Identifier "arr") (Identifier "map") false)
       [Identifier "f"]).
Proof.
  destruct codegen_emits_only_memo_declarations as (_ & _ & Out & Shape).
  split.
  - eexists. eexists. split; [reflexivity|]. split; [reflexivity|].
    eapply (Out memoExample_body memoExample_info); reflexivity.
  - apply (Shape 6). reflexivity.
Defined.

(** The claim as the specification states it fails on
    [function R() { return x; }]: the reactive sequence holds the
    pass-through instruction [LoadConstant x], whose expression is the
    identifier [x], and the output holds no statement at all. *)
Lemma pass_through_instructions_are_not_emitted :
  (exists log, readInstructions returnsGlobal = Ok (returnsGlobal_body, log)) /\
  analyze returnsGlobal_body = Ok returnsGlobal_info /\
  makeReactiveInstrs returnsGlobal_body returnsGlobal_info =
    Some (Ok [RInstr 0 (LoadConstant "x"); RInstr 1 (Return (Some 0))]) /\
  instrToExpression (LoadConstant "x") returnsGlobal_body = Ok (Identifier "x") /\
  codegenJS returnsGlobal_body returnsGlobal_info = Some (Ok []).
Proof.
  split; [eexists; reflexivity|]. repeat split; reflexivity.
Qed.

(* ================================================================== *)
(** ** Scenario A *)

(** C7, as the code has it. For
    [function F(a, b) { const c = a.map(x => x * b); return c; }]: the call
    of [.map] (id 3) has the dependencies [{a}] at the IR level (id 0; the
    arrow function is the opaque constant of id 2) and is to be memoized;
    nothing mutates it, so no class and no block forms and [codegenJS] emits
    nothing; the statement-level rewrite replaces the initializer of [c] in
    place by a [useMemo] call around the original call, with a dependency
    list that holds [a] and [b]. *)
Theorem scenarioA_compiles :
  (exists log, readInstructions scenarioA = Ok (scenarioA_body, log)) /\
  analyze scenarioA_body = Ok scenarioA_info /\
  JsMap.get scenarioA_body 3 = Some (Call 0 (Some "map"%string) [RValue 2]) /\
  JsMap.get scenarioA_info 3 =
    Some {| dependencies := Some [0]; instructions := None;
            shouldMemo := Some true |} /\
  getDependencyNames [0] scenarioA_body = ["a"%string] /\
  mutatingSetsOf scenarioA_body scenarioA_info = Some [] /\
  (exists hir,
     makeReactiveInstrs scenarioA_body scenarioA_info = Some (Ok hir) /\
     forallb (fun ri => negb (isBlock ri)) hir = true) /\
  codegenJS scenarioA_body scenarioA_info = Some (Ok []) /\
  exists depList,
    compileFunction scenarioA =
      Some (Ok {| out_body :=
                    [VariableDeclaration "const"
                       [VariableDeclarator (LIdentifier "c")
                          (Some (CallExpression (Identifier "useMemo")
                                   [ArrowFunctionExpression [] scenarioA_call;
                                    ArrayExpression (map Identifier depList)]))];
                     ReturnStatement (Some (Identifier "c"))];
                  hasAnyOptimizations := true |}) /\
    In "a"%string depList /\ In "b"%string depList.
Proof.
  split; [eexists; reflexivity|].
  do 5 (split; [reflexivity|]).
  split; [eexists; split; reflexivity|].
  split; [reflexivity|].
  exists (memoDependencies scenarioA_call).
  split; [reflexivity|]. split; vm_compute; tauto.
Qed.

(** The claim as the specification states it fails on that function: at the
    IR level the call depends on [a] alone, not on [b] (id 1), and the
    dependency list of the rewrite is [[a, x, b]], not [[a, b]]. *)
Lemma scenarioA_dependencies_are_not_a_b :
  analyze scenarioA_body = Ok scenarioA_info /\
  JsMap.get scenarioA_body 1 = Some (Param "b") /\
  (exists i, JsMap.get scenarioA_info 3 = Some i /\
             dependencies i = Some [0] /\ ~ In 1 [0]) /\
  memoDependencies scenarioA_call = ["a"; "x"; "b"]%string /\
  memoDependencies scenarioA_call <> ["a"; "b"]%string.
Proof.
  split; [reflexivity|]. split; [reflexivity|]. split.
  - eexists. split; [reflexivity|]. split; [reflexivity|].
    intros [E|[]]. discriminate.
  - split; [reflexivity | discriminate].
Qed.

(* ================================================================== *)
(** ** Lowering only appends *)

Lemma Grows_refl st : Grows st st.
Proof. intros D. exists []. now rewrite !app_nil_r. Qed.

Lemma Grows_trans st1 st2 st3 : Grows st1 st2 -> Grows st2 st3 -> Grows st1 st3.
Proof.
  intros G1 G2 D. destruct (G1 D) as (a1 & B1 & D1 & L1).
  destruct (G2 D1) as (a2 & B2 & D2 & L2).
  exists (a1 ++ a2). split; [now rewrite B2, B1, <- app_assoc|].
  split; [exact D2 | now rewrite L2, L1, <- app_assoc].
Qed.

Lemma Appends_ret {A} (a : A) : Appends (ret a).
Proof. intros st x st' E. injection E as <- <-. apply Grows_refl. Qed.

Lemma Appends_throw {A} msg : Appends (@throw A msg).
Proof. intros st x st' E. discriminate. Qed.

Lemma Appends_bind {A B} (m : Lower A) (k : A -> Lower B) :
  Appends m -> (forall a, Appends (k a)) -> Appends (bind m k).
Proof.
  intros Hm Hk st b st' E. apply bind_Ok in E. destruct E as (a & st1 & E1 & E2).
  eapply Grows_trans; [eapply Hm | eapply Hk]; eauto.
Qed.

Lemma Appends_stateSize : Appends stateSize.
Proof. intros st x st' E. injection E as <- <-. apply Grows_refl. Qed.

Lemma loggedInstrs_app l l' : loggedInstrs (l ++ l') = loggedInstrs l ++ loggedInstrs l'.
Proof. apply flat_map_app. Qed.

Lemma Appends_consoleLog line :
  (forall id instr, line <> LogInstr id instr) -> Appends (consoleLog line).
Proof.
  intros N st x st' E. injection E as <- <-. intros D. exists []. simpl.
  rewrite !app_nil_r, loggedInstrs_app. simpl.
  destruct line; try (now rewrite app_nil_r). exfalso. eapply N. reflexivity.
Qed.

Lemma Appends_emit instr : Appends (emit instr).
Proof.
  intros st x st' E D. rewrite emit_ok in E by exact D. injection E as <- <-.
  exists [(length (st_body st), instr)]. simpl.
  split; [reflexivity|]. split; [now apply dense_snoc|].
  now rewrite loggedInstrs_app.
Qed.

Section AppendingLoops.
Variable lower : Node -> Lower InstrId.

Lemma Appends_lowerOperand value :
  Appends (lower value) -> Appends (lowerOperand lower value).
Proof.
  intros H. destruct value; simpl;
    try apply Appends_ret;
    (apply Appends_bind; [exact H | intros; apply Appends_ret]).
Qed.

Lemma Appends_lowerArguments args : forall acc,
  (forall a, In a args -> Appends (lower a)) ->
  Appends (lowerArguments lower args acc).
Proof.
  induction args as [|arg args IH]; intros acc H; simpl.
  - apply Appends_ret.
  - apply Appends_bind.
    + apply Appends_lowerOperand, H. now left.
    + intros v. apply IH. intros a I. apply H. now right.
Qed.

Lemma Appends_lowerProperties props : forall acc,
  (forall k v, In (ObjectProperty k v) props -> Appends (lower v)) ->
  Appends (lowerProperties lower props acc).
Proof.
  induction props as [|prop props IH]; intros acc H.
  - apply Appends_ret.
  - assert (H' : forall k v, In (ObjectProperty k v) props -> Appends (lower v))
      by (intros k v I; apply (H k v); now right).
    destruct prop; simpl; auto.
    destruct prop1; try apply Appends_throw.
    apply Appends_bind.
    + apply Appends_lowerOperand, (H (Identifier name)). now left.
    + intros v. now apply IH.
Qed.

Lemma Appends_lowerDeclarators decls : forall last,
  (forall lv i, In (VariableDeclarator lv (Some i)) decls -> Appends (lower i)) ->
  Appends (lowerDeclarators lower decls last).
Proof.
  induction decls as [|d decls IH]; intros last H.
  - apply Appends_ret.
  - assert (H' : forall lv i, In (VariableDeclarator lv (Some i)) decls ->
                              Appends (lower i))
      by (intros lv i I; apply (H lv i); now right).
    destruct d; simpl; auto.
    destruct init as [init|]; [|apply Appends_throw].
    assert (Hi : Appends (lower init)) by (apply (H id init); now left).
    destruct id.
    + apply Appends_bind; [exact Hi|]. intros v.
      apply Appends_bind; [apply Appends_emit|]. intros c. now apply IH.
    + apply Appends_bind; [exact Hi|]. intros v.
      apply Appends_bind; [apply Appends_emit|]. intros c. now apply IH.
    + apply Appends_bind; [now apply Appends_consoleLog|]. intros _. now apply IH.
Qed.
End AppendingLoops.

Lemma Appends_lowerBabelInstr : forall k n, nodeSize n < k -> Appends (lowerBabelInstr n).
Proof.
  induction k as [|k IH]; intros n Sz; [lia|].
  assert (Fallback : forall type instr,
             Appends (consoleLog (LogSkipInstruction type) ;;; emit instr)%lower).
  { intros type instr. apply Appends_bind; [now apply Appends_consoleLog|].
    intros _. apply Appends_emit. }
  destruct n; simpl in *; try apply Appends_emit; try apply Fallback.
  - (* Identifier *)
    intros st id st' E.
    destruct (getDeclaration (st_body st) name).
    + injection E as <- <-. apply Grows_refl.
    + eapply Appends_emit; eauto.
  - (* MemberExpression *)
    apply Appends_bind; [apply IH; lia|]. intros o.
    apply Appends_bind; [|intros; apply Appends_emit].
    destruct n2; try apply Appends_throw; apply Appends_ret.
  - (* ObjectExpression *)
    apply Appends_bind; [|intros; apply Appends_emit].
    apply Appends_lowerProperties. intros key v I. apply IH.
    apply nodeSize_In in I. simpl in I. lia.
  - (* CallExpression *)
    apply Appends_bind.
    + destruct n;
        try (apply Appends_bind; [apply IH; simpl in *; lia | intros; apply Appends_ret]).
      apply Appends_bind; [apply IH; simpl in *; lia|]. intros r.
      destruct n2; try apply Appends_throw; apply Appends_ret.
    + intros target. apply Appends_bind; [|intros; apply Appends_emit].
      apply Appends_lowerArguments. intros a I. apply IH.
      apply nodeSize_In in I. lia.
  - (* ReturnStatement *)
    destruct argument as [arg|]; [|apply Appends_emit].
    apply Appends_bind; [apply IH; lia | intros; apply Appends_emit].
  - (* VariableDeclaration *)
    apply Appends_bind; [apply Appends_stateSize|]. intros last.
    apply Appends_lowerDeclarators. intros lv i I. apply IH.
    apply nodeSize_In in I. simpl in I. lia.
  - (* ExpressionStatement *)
    apply IH. lia.
Qed.

(** X1. Lowering a node never changes an instruction that is already there: the
    body it leaves is the body it found with instructions appended at the
    next ids (so the ids stay dense), and the instructions it appended are
    the ones it logged, in order. *)
Theorem lowering_appends (n : Node) (st : LowerState) (id : InstrId) (st' : LowerState) :
  dense (st_body st) ->
  lowerBabelInstr n st = Ok (id, st') ->
  exists added,
    st_body st' = st_body st ++ added /\
    dense (st_body st') /\
    loggedInstrs (st_console st') = loggedInstrs (st_console st) ++ added.
Proof.
  intros D E.
  exact (@Appends_lowerBabelInstr (S (nodeSize n)) n (Nat.lt_succ_diag_r _) st id st' E D).
Qed.

Lemma lowering_appends_witness :
  dense (st_body {| st_body := [(0, Param "a")]; st_console := [] |}) /\
  exists added,
    [(0, Param "a"); (1, ReadProperty 0 (PropString "b"))] = [(0, Param "a")] ++ added /\
    dense [(0, Param "a"); (1, ReadProperty 0 (PropString "b"))] /\
    loggedInstrs [LogInstr 1 (ReadProperty 0 (PropString "b"))] = [] ++ added.
Proof.
  split; [reflexivity|].
  exact (@lowering_appends
           (MemberExpression (Identifier "a") (Identifier "b") false)
           {| st_body := [(0, Param "a")]; st_console := [] |} 1
           {| st_body := [(0, Param "a"); (1, ReadProperty 0 (PropString "b"))];
              st_console := [LogInstr 1 (ReadProperty 0 (PropString "b"))] |}
           eq_refl eq_refl).
Defined.

(* ================================================================== *)
(** ** The layout of a lowered body *)

Lemma indexedFrom_app {V} k (l l' : list V) :
  indexedFrom k (l ++ l') = indexedFrom k l ++ indexedFrom (k + length l) l'.
Proof.
  revert k. induction l as [|v l IH]; intros k; simpl.
  - now rewrite Nat.add_0_r.
  - rewrite IH. now rewrite Nat.add_succ_r.
Qed.

Lemma patternNames_ok properties : forall instrs instrs',
  dense instrs ->
  lowerPatternProperties properties instrs = Ok instrs' ->
  dense instrs' /\
  instrs' = instrs ++
            indexedFrom (length instrs)
              (map Param (paramNames [ParamObjectPattern properties])).
Proof.
  induction properties as [|[[name|type]|type] properties IH];
    intros instrs instrs' D E; simpl in E; try discriminate.
  - injection E as <-. split; auto. simpl. now rewrite app_nil_r.
  - rewrite dense_set_size in E by exact D.
    destruct (IH _ _ (@dense_snoc _ instrs (Param name) D) E) as (D' & ->).
    split; auto. simpl in *. rewrite !app_nil_r, <- app_assoc. f_equal.
    simpl. rewrite length_app. simpl. now rewrite Nat.add_1_r.
Qed.

Lemma lowerParams_layout params : forall instrs instrs',
  dense instrs ->
  foldM lowerParam params instrs = Ok instrs' ->
  dense instrs' /\
  instrs' = instrs ++ indexedFrom (length instrs) (map Param (paramNames params)).
Proof.
  induction params as [|param params IH]; intros instrs instrs' D E; simpl in E.
  - injection E as <-. split; auto. simpl. now rewrite app_nil_r.
  - destruct (lowerParam instrs param) as [instrs1|] eqn:P; [|discriminate].
    simpl in E.
    assert (G : dense instrs1 /\
                instrs1 = instrs ++ indexedFrom (length instrs)
                                      (map Param (paramNames [param]))).
    { destruct param as [name|properties|type]; simpl in P.
      - rewrite dense_set_size in P by exact D. injection P as <-.
        split; [now apply dense_snoc | reflexivity].
      - eapply patternNames_ok; eauto.
      - discriminate. }
    destruct G as (D1 & E1). destruct (IH _ _ D1 E) as (D' & ->).
    split; auto. rewrite E1, <- app_assoc. f_equal.
    assert (Cons : paramNames (param :: params)
                   = paramNames [param] ++ paramNames params).
    { unfold paramNames. simpl. now rewrite app_nil_r. }
    rewrite Cons.
    rewrite map_app, indexedFrom_app. f_equal. f_equal.
    assert (Len : forall {V} k (l : list V), length (indexedFrom k l) = length l).
    { intros V k l. revert k. induction l; intros k; simpl; auto. }
    now rewrite length_app, Len.
Qed.

Lemma Appends_lowerStatements stmts : Appends (lowerStatements stmts).
Proof.
  induction stmts as [|s stmts IH]; simpl.
  - apply Appends_ret.
  - apply Appends_bind; [|intros; exact IH].
    apply (@Appends_lowerBabelInstr (S (nodeSize s))). lia.
Qed.

(** X2. A lowered body is laid out as: one [Param] per parameter name, in
    order, at the ids [0 ..]; then the instructions of the statements, which
    are exactly the instructions the log lists, in the order of the log. The
    ids are dense. *)
Theorem readInstructions_layout
    (func : FunctionDeclaration) (body : FunctionBody) (log : list LogLine) :
  readInstructions func = Ok (body, log) ->
  body = indexedFrom 0 (map Param (paramNames (fn_params func))) ++ loggedInstrs log /\
  dense body.
Proof.
  unfold readInstructions. intros E.
  destruct (foldM lowerParam (fn_params func) []) as [instrs|] eqn:P; [|discriminate].
  simpl in E.
  destruct (lowerStatements (fn_body func) _) as [[u st]|] eqn:S; [|discriminate].
  injection E as <- <-.
  destruct (@lowerParams_layout (fn_params func) [] instrs eq_refl P) as (D & ->).
  destruct (@Appends_lowerStatements (fn_body func) _ _ _ S D) as (added & B & D' & L).
  simpl in *. rewrite L, B. split; [reflexivity|]. rewrite <- B. exact D'.
Qed.

Lemma readInstructions_layout_witness :
  scenarioA_body =
    indexedFrom 0 (map Param (paramNames (fn_params scenarioA)))
    ++ loggedInstrs [LogInstr 2 (LoadConstant "function");
                     LogInstr 3 (Call 0 (Some "map"%string) [RValue 2]);
                     LogInstr 4 (Declare_ "c" 3); LogInstr 5 (Return (Some 4))] /\
  dense scenarioA_body.
Proof.
  exact (@readInstructions_layout scenarioA scenarioA_body _ eq_refl).
Defined.

(* ================================================================== *)
(** ** Name resolution, once more *)

(** X3. [getDeclaration] finds a name exactly when an instruction of the body
    binds it (a [Declare] with that left-hand side or a [Param] of that
    name); the id it returns is that of the earliest such instruction. *)
Theorem getDeclaration_resolves (func : FunctionBody) (name : string) :
  match getDeclaration func name with
  | Some id =>
      exists before instr after,
        func = before ++ (id, instr) :: after /\
        declares name instr = true /\
        forall e, In e before -> declares name (snd e) = false
  | None => forall e, In e func -> declares name (snd e) = false
  end.
Proof.
  destruct (getDeclaration func name) as [id|] eqn:G.
  - now apply getDeclaration_first.
  - now apply getDeclaration_None.
Qed.

(* ================================================================== *)
(** ** The writable sweep and the mutator sets *)

Lemma writableStep_iff mw id instr x :
  In x (writableStep mw (id, instr)) <->
  In x mw \/
  (x = id /\ (isObjectOrCall instr = true \/
              exists used, In used (eachValue instr) /\ In used mw)).
Proof.
  unfold writableStep. destruct (isObjectOrCall instr) eqn:E.
  - rewrite add_In. split; intros [?|?]; auto. right. tauto.
  - rewrite markIfUses_In. split; intros [?|(-> & ?)]; auto.
    right. split; auto. destruct H as [?|?]; [discriminate | auto].
Qed.

Lemma sweep_WritableAfter swept id :
  In id (fold_left writableStep swept []) <-> WritableAfter swept id.
Proof.
  revert id. induction swept as [|[i instr] swept IH] using rev_ind; intros id.
  - simpl. split; [tauto|]. intros M. inversion M; subst;
      match goal with H : _ ++ [_] = [] |- _ => now destruct (app_cons_not_nil _ _ _ (eq_sym H)) end.
  - rewrite fold_left_app. cbn [fold_left]. rewrite writableStep_iff. split.
    + intros [I|(-> & [S|(used & Iu & I)])].
      * apply wr_earlier. now apply IH.
      * now apply wr_seed.
      * apply wr_propagate with used; auto. now apply IH.
    + intros M. inversion M as [sw j ins S E|sw j ins used Iu Mu E|sw e j Mj E]; subst;
        apply app_inj_tail in E; destruct E as [-> E].
      * inversion E; subst. auto.
      * inversion E; subst. right. split; auto. right. exists used. split; auto. now apply IH.
      * left. now apply IH.
Qed.

(** X4. [getWritableValues] computes the set its comments describe: the
    [Object]s and [Call]s, and whatever consumes an id already in the set;
    every id in it is an id of the body, and it lists no id twice. *)
Theorem getWritableValues_sweep (func : FunctionBody) :
  (forall id, In id (getWritableValues func) <-> WritableAfter func id) /\
  (forall id, In id (getWritableValues func) -> In id (JsMap.keys func)) /\
  NoDup (getWritableValues func).
Proof.
  split; [intros id; apply sweep_WritableAfter|].
  split; [apply getWritableValues_keys|].
  unfold getWritableValues.
  assert (G : forall l acc, NoDup acc -> NoDup (fold_left writableStep l acc)).
  { induction l as [|[id instr] l IH]; intros acc ND; simpl; auto.
    apply IH. destruct (isObjectOrCall instr);
      [now apply add_NoDup | now apply markIfUses_NoDup]. }
  apply G. constructor.
Qed.

Lemma analyzeStep1_no_mutators func mayChange l : forall acc,
  (forall u info, JsMap.get acc u = Some info -> instructions info = None) ->
  forall u info,
    JsMap.get (fold_left (analyzeStep1 func mayChange) l acc) u = Some info ->
    instructions info = None.
Proof.
  induction l as [|[id instr] l IH]; intros acc A; simpl; [exact A|].
  apply IH. intros u info. destruct (Nat.eq_dec id u) as [<-|N].
  - rewrite get_set_same. intros E. injection E as <-. reflexivity.
  - rewrite get_set_other by exact N. apply A.
Qed.

Lemma recordMutators_spec writable id l : forall res res',
  foldM (fun res used =>
           if JsSet.has writable used then recordMutator id res used else Ok res)
        l res = Ok res' ->
  forall u info', JsMap.get res' u = Some info' ->
  exists info, JsMap.get res u = Some info /\
    forall m, In m (mutatorsOf info') <->
              In m (mutatorsOf info) \/ (m = id /\ In u l /\ In u writable).
Proof.
  induction l as [|x l IH]; intros res res' E u info' G.
  - simpl in E. injection E as <-. exists info'. split; auto. intros m. simpl. tauto.
  - cbn [foldM] in E.
    destruct (JsSet.has writable x) eqn:W.
    + apply set_has_In in W. unfold recordMutator in E at 1.
      destruct (JsMap.get res x) as [ix|] eqn:Gx; [|discriminate].
      cbn [bindR] in E.
      destruct (@IH _ _ E u info' G) as (info1 & G1 & M1).
      destruct (Nat.eq_dec x u) as [<-|N].
      * rewrite get_set_same in G1. injection G1 as <-.
        exists ix. split; auto. intros m. rewrite M1.
        unfold mutatorsOf at 1. cbn [instructions]. rewrite add_In.
        fold (mutatorsOf ix). simpl. split.
        -- intros [[?| ->]|(-> & ? & ?)]; auto.
        -- intros [?|(-> & _ & ?)]; auto.
      * rewrite get_set_other in G1 by exact N.
        exists info1. split; auto. intros m. rewrite M1. simpl. split.
        -- intros [?|(-> & ? & ?)]; auto.
        -- intros [?|(-> & [?|?] & ?)]; auto. contradiction.
    + apply set_has_false in W. cbn [bindR] in E.
      destruct (@IH _ _ E u info' G) as (info1 & G1 & M1).
      exists info1. split; auto. intros m. rewrite M1. simpl. split.
      * intros [?|(-> & ? & ?)]; auto.
      * intros [?|(-> & [->|?] & ?)]; auto. contradiction.
Qed.

Lemma analyzeStep2_mutators writable (l : FunctionBody) : forall done res res',
  (forall u info, JsMap.get res u = Some info ->
     forall m, In m (mutatorsOf info) <->
               In u writable /\ CallConsuming done u m) ->
  foldM (analyzeStep2 writable) l res = Ok res' ->
  forall u info, JsMap.get res' u = Some info ->
    forall m, In m (mutatorsOf info) <->
              In u writable /\ CallConsuming (done ++ l) u m.
Proof.
  induction l as [|[id instr] l IH]; intros done res res' Inv E.
  - simpl in E. injection E as <-. rewrite app_nil_r. exact Inv.
  - cbn [foldM] in E.
    destruct (analyzeStep2 writable res (id, instr)) as [r1|] eqn:S; [|discriminate].
    cbn [bindR] in E.
    replace (done ++ (id, instr) :: l) with ((done ++ [(id, instr)]) ++ l)
      by now rewrite <- app_assoc.
    apply IH with r1; auto.
    intros u info G m. unfold CallConsuming.
    unfold analyzeStep2 in S.
    assert (Plain : isCall instr = false -> r1 = res ->
              (In m (mutatorsOf info) <->
               In u writable /\
               exists instr0, In (m, instr0) (done ++ [(id, instr)]) /\
                              isCall instr0 = true /\ In u (eachValue instr0))).
    { intros NC ->. rewrite (Inv u info G m). unfold CallConsuming. split.
      - intros (W & i0 & I0 & C0 & U0). split; auto. exists i0. split; auto.
        apply in_or_app. auto.
      - intros (W & i0 & I0 & C0 & U0). split; auto. exists i0. split; auto.
        apply in_app_or in I0. destruct I0 as [?|[I0|[]]]; auto.
        injection I0 as <- <-. congruence. }
    destruct instr; try (injection S as <-; now apply Plain).
    destruct (@recordMutators_spec writable id _ _ _ S _ _ G) as (info0 & G0 & M0).
    rewrite M0, (Inv u info0 G0 m). unfold CallConsuming. split.
    + intros [(W & i0 & I0 & C0 & U0)|(-> & U & W)].
      * split; auto. exists i0. split; auto. apply in_or_app. auto.
      * split; auto. eexists. split; [apply in_or_app; right; left; reflexivity|].
        split; auto.
    + intros (W & i0 & I0 & C0 & U0). apply in_app_or in I0.
      destruct I0 as [I0|[I0|[]]].
      * left. split; auto. exists i0. auto.
      * injection I0 as <- <-. right. auto.
Qed.

Lemma analyze_mutators_of func result :
  analyze func = Ok result ->
  forall u info, JsMap.get result u = Some info ->
  forall m, In m (mutatorsOf info) <->
            In u (getWritableValues func) /\ CallConsuming func u m.
Proof.
  unfold analyze. intros E.
  refine (@analyzeStep2_mutators (getWritableValues func) func [] _ _ _ E).
  intros u info G m.
  apply analyzeStep1_no_mutators in G; [|intros ? ? D; discriminate D].
  unfold mutatorsOf. rewrite G. simpl. split; [tauto|].
  intros (_ & i0 & [] & _).
Qed.

(** X5. The mutator set that [analyze] records for an id [u] holds exactly the
    ids of the [Call] instructions that consume [u], when [u] is in the
    writable set, and nothing when it is not. *)
Theorem analyze_mutators (func : FunctionBody) (result : ValueInfos) :
  analyze func = Ok result ->
  forall u info, JsMap.get result u = Some info ->
  forall m, In m (mutatorsOf info) <->
            In u (getWritableValues func) /\ CallConsuming func u m.
Proof. apply analyze_mutators_of. Qed.

Lemma analyze_mutators_witness :
  analyze memoExample_body = Ok memoExample_info /\
  (In 3 (mutatorsOf {| dependencies := Some [0]; instructions := Some [3];
                       shouldMemo := Some true |}) <->
   In 2 (getWritableValues memoExample_body) /\
   CallConsuming memoExample_body 2 3).
Proof.
  split; [reflexivity|].
  exact (@analyze_mutators memoExample_body memoExample_info eq_refl 2 _ eq_refl 3).
Defined.

Lemma analyze_dependencies_of func result :
  NoDup (JsMap.keys func) ->
  analyze func = Ok result ->
  forall id instr info, In (id, instr) func -> JsMap.get result id = Some info ->
  dependencies info = Some (dependenciesOf (getValuesThatMayChange func) instr) /\
  shouldMemo info = shouldMemo (infoOf func instr).
Proof.
  intros ND E id instr info I G.
  destruct (@analyze_infoOf func ND) as (r & E' & _ & Infos).
  rewrite E in E'. injection E' as <-.
  destruct (Infos id instr I) as (info' & G' & M).
  rewrite G in G'. injection G' as <-.
  unfold memoPart in M. simpl in M. injection M as Md Ms. auto.
Qed.

Lemma analyze_keys func result :
  NoDup (JsMap.keys func) -> analyze func = Ok result ->
  JsMap.keys result = JsMap.keys func.
Proof.
  intros ND E. destruct (@analyze_infoOf func ND) as (r & E' & K & _).
  rewrite E in E'. injection E' as <-. exact K.
Qed.

Lemma dense_In_lt V (m : list (InstrId * V)) id v :
  dense m -> In (id, v) m -> id < length m.
Proof.
  intros D I. apply (in_map fst) in I. fold (JsMap.keys m) in I.
  rewrite D in I. apply in_seq in I. simpl in I. lia.
Qed.

(** X6. In the analysis of a well-formed body (dense ids, no forward
    reference) the dependencies of an instruction all precede it, and the
    instructions recorded as mutating it all follow it, inside the body. *)
Theorem analysis_respects_order (func : FunctionBody) (result : ValueInfos) :
  wellFormed func ->
  analyze func = Ok result ->
  forall id info, JsMap.get result id = Some info ->
    (forall d, In d (dependenciesList info) -> d < id) /\
    (forall m, In m (mutatorsOf info) -> id < m < length func).
Proof.
  intros [D B] E id info G.
  pose proof (dense_NoDup D) as ND.
  split.
  - assert (K : In id (JsMap.keys func)).
    { rewrite <- (@analyze_keys func result ND E). eapply get_Some_key; eauto. }
    apply in_map_iff in K. destruct K as ([id' instr] & <- & I). simpl in *.
    destruct (@analyze_dependencies_of func result ND E _ _ _ I G) as [Dd _].
    unfold dependenciesList. rewrite Dd. intros d Id.
    apply dependenciesOf_In in Id. destruct Id as [U _]. eapply B; eauto.
  - intros m M. apply (@analyze_mutators_of func result E _ _ G) in M.
    destruct M as (_ & instr & I & _ & U). split.
    + eapply B; eauto.
    + eapply dense_In_lt; eauto.
Qed.

Lemma analysis_respects_order_witness :
  wellFormed memoExample_body /\
  (forall d, In d [0] -> d < 2) /\
  (forall m, In m [3] -> 2 < m < length memoExample_body).
Proof.
  assert (W : wellFormed memoExample_body).
  { split; [reflexivity|]. intros id instr I used U. simpl in I.
    repeat (destruct I as [I|I]; [injection I as <- <-; simpl in U; intuition lia|]).
    destruct I. }
  split; [exact W|].
  exact (@analysis_respects_order memoExample_body memoExample_info W eq_refl 2 _ eq_refl).
Defined.

(** X7. [calcShouldMemo], which the printer of Transform.ts uses, is implied by
    [shouldMemoize] on every [ValueInfo]; on the entries that [analyze]
    returns for the instructions of the body the two agree. *)
Theorem calcShouldMemo_agrees (func : FunctionBody) (result : ValueInfos) :
  NoDup (JsMap.keys func) ->
  analyze func = Ok result ->
  (forall info, shouldMemoize info = true -> calcShouldMemo info = true) /\
  (forall id info, JsMap.get result id = Some info ->
     calcShouldMemo info = shouldMemoize info).
Proof.
  intros ND E. split.
  - intros info. unfold shouldMemoize, calcShouldMemo.
    destruct (shouldMemo info) as [[|]|]; auto; discriminate.
  - intros id info G.
    assert (K : In id (JsMap.keys func)).
    { rewrite <- (@analyze_keys func result ND E). eapply get_Some_key; eauto. }
    apply in_map_iff in K. destruct K as ([id' instr] & <- & I). simpl in *.
    destruct (@analyze_dependencies_of func result ND E _ _ _ I G) as [Dd Ds].
    unfold shouldMemoize, calcShouldMemo. rewrite Dd, Ds. simpl.
    destruct (isExpensiveOperation instr func); simpl; auto.
    destruct (0 <? _); reflexivity.
Qed.

Lemma calcShouldMemo_agrees_witness :
  NoDup (JsMap.keys memoExample_body) /\
  (forall info, shouldMemoize info = true -> calcShouldMemo info = true) /\
  (forall id info, JsMap.get memoExample_info id = Some info ->
     calcShouldMemo info = shouldMemoize info).
Proof.
  assert (ND : NoDup (JsMap.keys memoExample_body)).
  { apply (@dense_NoDup _ memoExample_body). reflexivity. }
  split; [exact ND|].
  exact (@calcShouldMemo_agrees memoExample_body memoExample_info ND eq_refl).
Defined.

(* ================================================================== *)
(** ** The disjoint-set, for its clients *)

Lemma unions_fold calls : forall ds edges,
  DisjointSetInv ds -> Represents ds edges ->
  exists ds' edges',
    foldO union calls ds = Some ds' /\
    DisjointSetInv ds' /\
    Represents ds' edges' /\
    (forall e, In e edges' <-> In e edges \/ In e (flat_map unionEdges calls)).
Proof.
  induction calls as [|items calls IH]; intros ds edges I R.
  - exists ds, edges. simpl. split; [reflexivity|]. split; [exact I|].
    split; [exact R|]. intros e. tauto.
  - destruct (@union_spec ds edges items I R) as (ds1 & U & I1 & R1).
    destruct (IH ds1 _ I1 R1) as (ds' & edges' & F & I' & R' & E').
    exists ds', edges'. cbn [foldO]. rewrite U.
    split; [exact F|]. split; [exact I'|]. split; [exact R'|].
    intros e. rewrite E'. cbn [flat_map]. rewrite !in_app_iff. tauto.
Qed.

Lemma unions_spec calls :
  exists ds,
    unions calls = Some ds /\ DisjointSetInv ds /\
    Represents ds (flat_map unionEdges calls).
Proof.
  destruct (@unions_fold calls emptyDisjointSet []
              emptyDisjointSet_Inv emptyDisjointSet_Represents)
    as (ds & edges & F & I & R & E).
  exists ds. split; [exact F|]. split; [exact I|].
  apply (@Represents_ext ds edges (flat_map unionEdges calls)); auto.
  intros e. rewrite E. simpl. tauto.
Qed.

Lemma Root_root_key ds x r : Root ds x r -> In r (JsMap.keys (parent ds)).
Proof. intros R. apply Root_is_root in R. eapply get_Some_key; eauto. Qed.

(** X8. Whatever [union] calls were made on a fresh [DisjointSet], none of them
    fails, [find] answers for every item, and the representatives of two
    items are equal exactly when a chain of the unions made links them. *)
Theorem find_decides_connectivity (calls : list (list InstrId)) :
  exists ds,
    unions calls = Some ds /\
    forall x y, exists dx rx dy ry,
      find ds x = Some (dx, rx) /\
      find ds y = Some (dy, ry) /\
      (rx = ry <-> Connected (flat_map unionEdges calls) x y).
Proof.
  destruct (unions_spec calls) as (ds & U & I & R).
  exists ds. split; [exact U|]. intros x y.
  destruct (@find_spec ds x I) as (dx & rx & Fx & Px).
  destruct (@find_spec ds y I) as (dy & ry & Fy & Py).
  exists dx, rx, dy, ry. split; [exact Fx|]. split; [exact Fy|].
  assert (Mem : forall z dz rz, find ds z = Some (dz, rz) ->
                  In z (JsMap.keys (parent ds)) -> Root ds z rz).
  { intros z dz rz Fz Iz.
    destruct (@find_member ds z I Iz) as (d & r & F & _ & _ & Rt & _).
    rewrite Fz in F. injection F as <- <-. exact Rt. }
  assert (Out : forall z dz rz, FindPost ds z dz rz ->
                  ~ In z (JsMap.keys (parent ds)) -> rz = z).
  { intros z dz rz (_ & _ & _ & _ & _ & _ & Fr) N. apply Fr.
    destruct (JsMap.has (parent ds) z) eqn:Hz; auto.
    apply has_In in Hz. contradiction. }
  assert (Lone : forall a b, ~ In a (JsMap.keys (parent ds)) ->
                   Connected (flat_map unionEdges calls) a b -> a = b).
  { intros a b N C. destruct (Connected_endpoints C) as [?|[(z & [E|E]) _]]; auto;
      apply (proj1 R) in E; destruct E; contradiction. }
  destruct (in_dec Nat.eq_dec x (JsMap.keys (parent ds))) as [Ix|Nx];
    destruct (in_dec Nat.eq_dec y (JsMap.keys (parent ds))) as [Iy|Ny].
  - pose proof (Mem _ _ _ Fx Ix) as Rx. pose proof (Mem _ _ _ Fy Iy) as Ry.
    split.
    + intros <-. apply (proj2 R x y). exists rx. auto.
    + intros C. assert (S : SameSet ds x y) by (apply (proj2 R); auto).
      destruct S as (r & R1 & R2).
      rewrite (Root_functional Rx R1), (Root_functional Ry R2). reflexivity.
  - pose proof (Mem _ _ _ Fx Ix) as Rx. pose proof (Out _ _ _ Py Ny) as ->.
    split.
    + intros <-. apply Root_root_key in Rx. contradiction.
    + intros C. apply Connected_sym in C. apply Lone in C; auto. subst. contradiction.
  - pose proof (Mem _ _ _ Fy Iy) as Ry. pose proof (Out _ _ _ Px Nx) as ->.
    split.
    + intros ->. apply Root_root_key in Ry. contradiction.
    + intros C. apply Lone in C; auto. subst. contradiction.
  - pose proof (Out _ _ _ Px Nx) as ->. pose proof (Out _ _ _ Py Ny) as ->.
    split.
    + intros ->. apply Connected_refl.
    + intros C. now apply Lone in C.
Qed.

Lemma set_same_value {V} (m : list (InstrId * V)) k v :
  JsMap.get m k = Some v -> JsMap.set m k v = m.
Proof.
  induction m as [|[k' v'] m IH]; simpl; [discriminate|].
  destruct (Nat.eqb k k') eqn:E.
  - apply Nat.eqb_eq in E. subst. intros G. injection G as ->. reflexivity.
  - intros G. now rewrite IH.
Qed.

Lemma find_compresses ds x ds' r :
  find ds x = Some (ds', r) -> JsMap.get (parent ds') x = Some r.
Proof.
  unfold find. generalize (maxRank ds). intros n. cbn [findFuel].
  set (ds1 := if JsMap.has (parent ds) x then ds else _).
  destruct (JsMap.get (parent ds1) x) as [p|] eqn:G; [|discriminate].
  destruct (negb (p =? x)).
  - destruct (findFuel n ds1 p) as [[ds2 root]|]; [|discriminate].
    match goal with
    | |- match ?g with _ => _ end = _ -> _ => destruct g as [r'|] eqn:G'
    end; [|discriminate].
    intros E. injection E as <- <-. exact G'.
  - intros E. injection E as <- <-. exact G.
Qed.

Lemma find_fixed ds x r :
  DisjointSetInv ds ->
  JsMap.get (parent ds) x = Some r -> JsMap.get (parent ds) r = Some r ->
  find ds x = Some (ds, r).
Proof.
  intros I Gx Gr. unfold find. cbn [findFuel].
  assert (Hx : JsMap.has (parent ds) x = true) by (unfold JsMap.has; now rewrite Gx).
  rewrite Hx, Gx.
  destruct (Nat.eqb_spec r x) as [->|N]; [reflexivity|]. cbn [negb].
  assert (M : 1 <= maxRank ds).
  { pose proof (@inv_rank ds I x r Gx N). pose proof (rankOf_le_maxRank ds r). lia. }
  destruct (maxRank ds) as [|k]; [lia|]. cbn [findFuel].
  assert (Hr : JsMap.has (parent ds) r = true) by (unfold JsMap.has; now rewrite Gr).
  rewrite Hr, Gr, Nat.eqb_refl. cbn [negb].
  rewrite (@set_same_value _ (parent ds) x r Gx). cbn [parent]. rewrite Gx.
  destruct ds; reflexivity.
Qed.

(** X9. Path compression: after any unions on a fresh [DisjointSet], [find(x)]
    returns a representative [r] that is its own parent and leaves [x]
    pointing directly at [r]; asking again, for [x] or for [r], returns
    [r] and changes nothing. *)
Theorem find_compresses_paths (calls : list (list InstrId)) (x : InstrId) :
  exists ds ds' r,
    unions calls = Some ds /\
    find ds x = Some (ds', r) /\
    JsMap.get (parent ds') x = Some r /\
    JsMap.get (parent ds') r = Some r /\
    find ds' x = Some (ds', r) /\
    find ds' r = Some (ds', r).
Proof.
  destruct (unions_spec calls) as (ds & U & I & _).
  destruct (@find_spec ds x I) as (ds' & r & F & I' & Rt & _).
  exists ds, ds', r. split; [exact U|]. split; [exact F|].
  pose proof (@find_compresses ds x ds' r F) as Gx.
  pose proof (@Root_is_root ds' x r Rt) as Gr.
  split; [exact Gx|]. split; [exact Gr|].
  split; apply find_fixed; auto.
Qed.

(** X10. Whatever [union] calls were made on a fresh [DisjointSet], [buildSets]
    returns the classes of at least two items: every set it returns has two
    or more members, none twice, and holds exactly the items linked to its
    members by the unions made; two sets that share an item have the same
    members; and two distinct linked items are together in one of the
    sets. *)
Theorem buildSets_partitions (calls : list (list InstrId)) :
  exists ds sets,
    unions calls = Some ds /\
    buildSets ds = Some sets /\
    (forall s, In s sets ->
       2 <= length s /\ NoDup s /\
       forall x, In x s ->
       forall y, In y s <-> Connected (flat_map unionEdges calls) x y) /\
    (forall s1 s2 x, In s1 sets -> In s2 sets -> In x s1 -> In x s2 ->
       forall y, In y s1 <-> In y s2) /\
    (forall x y, x <> y -> Connected (flat_map unionEdges calls) x y ->
       exists s, In s sets /\ In x s /\ In y s).
Proof.
  destruct (unions_spec calls) as (ds & U & I & R).
  destruct (@buildSets_spec ds I) as (sets & B & Cls & Cov).
  exists ds, sets. split; [exact U|]. split; [exact B|].
  assert (Class : forall s, In s sets -> forall x, In x s ->
            forall y, In y s <-> Connected (flat_map unionEdges calls) x y).
  { intros s Is x Ix y. destruct (Cls s Is) as (_ & _ & r & Mem).
    apply Mem in Ix. rewrite Mem. split.
    - intros Ry. apply (proj2 R x y). exists r. auto.
    - intros C.
      assert (S : SameSet ds x y).
      { apply (proj2 R). split; [eapply Root_key; eauto|]. split; auto.
        eapply Represents_member; eauto. eapply Root_key; eauto. }
      destruct S as (r' & R1 & R2). now rewrite (Root_functional Ix R1). }
  split; [|split].
  - intros s Is. destruct (Cls s Is) as (L & ND & _). auto.
  - intros s1 s2 x I1 I2 X1 X2 y.
    rewrite (Class s1 I1 x X1 y), (Class s2 I2 x X2 y). tauto.
  - intros x y N C.
    assert (Mx : In x (JsMap.keys (parent ds))).
    { destruct (Connected_endpoints C) as [?|[(z & [E|E]) _]]; [contradiction| |];
        apply (proj1 R) in E; tauto. }
    apply Cov; auto. apply (proj2 R). split; auto. split; auto.
    eapply Represents_member; eauto.
Qed.

(* ================================================================== *)
(** ** Merging scope ranges *)

Lemma mergeLoop_fixed l : forall previous,
  Ascending (previous :: l) -> mergeLoop previous l = previous :: l.
Proof.
  induction l as [|r l IH]; intros previous A; [reflexivity|].
  inversion A as [| |r1 r2 l' Lt A']; subst. cbn [mergeLoop].
  destruct (Nat.leb_spec (r_start r) (r_end previous)) as [?|_]; [lia|].
  now rewrite IH.
Qed.

(** X11. The merge loop of [getInstructionScopeRanges] always returns spans in
    ascending order with a gap between consecutive ones, returns a list that
    is already so unchanged, and so is idempotent. *)
Theorem mergeRanges_idempotent (ranges : list Range) :
  Ascending (mergeRanges ranges) /\
  (Ascending ranges -> mergeRanges ranges = ranges) /\
  mergeRanges (mergeRanges ranges) = mergeRanges ranges.
Proof.
  assert (A : forall l, Ascending (mergeRanges l)).
  { intros [|first rest]; simpl; [constructor | apply mergeLoop_Ascending]. }
  assert (F : forall l, Ascending l -> mergeRanges l = l).
  { intros [|first rest] Al; simpl; [reflexivity | now apply mergeLoop_fixed]. }
  split; [apply A|]. split; [apply F|]. apply F, A.
Qed.

Lemma mergeLoop_points l : forall previous,
  StronglySorted startsLe (previous :: l) ->
  forall i,
    (exists span, In span (mergeLoop previous l) /\ covers span i) <->
    covers previous i \/ exists r, In r l /\ covers r i.
Proof.
  induction l as [|r l IH]; intros previous S i.
  - simpl. split.
    + intros (span & [<-|[]] & C). auto.
    + intros [C|(r & [] & _)]. exists previous. simpl. auto.
  - apply StronglySorted_inv in S. destruct S as [S F].
    pose proof (Forall_inv F) as Lr. unfold startsLe in Lr.
    cbn [mergeLoop].
    destruct (Nat.leb_spec (r_start r) (r_end previous)) as [Le|Gt].
    + rewrite IH.
      * unfold covers at 1. cbn [r_start r_end]. split.
        -- intros [C|(r' & I' & C')].
           ++ destruct (Nat.le_gt_cases i (r_end previous)) as [?|?].
              ** left. unfold covers. lia.
              ** right. exists r. split; [now left|]. unfold covers. lia.
           ++ right. exists r'. split; [now right | exact C'].
        -- intros [C|(r' & [<-|I'] & C')].
           ++ left. unfold covers in C. lia.
           ++ left. unfold covers in C'. lia.
           ++ right. exists r'. auto.
      * constructor.
        -- now apply StronglySorted_inv in S.
        -- apply Forall_inv_tail in F. apply StronglySorted_inv in S.
           destruct S as [_ Fr]. rewrite Forall_forall in *.
           intros x Ix. unfold startsLe. cbn [r_start].
           specialize (F x Ix). exact F.
    + split.
      * intros (span & [<-|I'] & C); auto.
        right.
        assert (H0 : covers r i \/ exists r0, In r0 l /\ covers r0 i).
        { apply (IH r S i). exists span. auto. }
        destruct H0 as [?|(r0 & ? & ?)].
        -- exists r. split; [now left | auto].
        -- exists r0. split; [now right | auto].
      * intros [C|(r' & [<-|I'] & C')].
        -- exists previous. split; [now left | auto].
        -- assert (H0 : exists span, In span (mergeLoop r l) /\ covers span i).
           { apply (IH r S i). auto. }
           destruct H0 as (span & ? & ?). exists span. split; [now right | auto].
        -- assert (H0 : exists span, In span (mergeLoop r l) /\ covers span i).
           { apply (IH r S i). right. exists r'. auto. }
           destruct H0 as (span & ? & ?). exists span. split; [now right | auto].
Qed.

(** X12. Sorting and merging the ranges neither adds an instruction id to the
    scopes nor loses one: an id lies in one of the merged spans exactly when
    it lies in one of the ranges given. *)
Theorem merged_spans_cover_the_ranges (ranges : list Range) (i : InstrId) :
  (exists span, In span (mergeRanges (sortRanges ranges)) /\ covers span i) <->
  (exists r, In r ranges /\ covers r i).
Proof.
  destruct (sortRanges_spec ranges) as [S M].
  destruct (sortRanges ranges) as [|first rest] eqn:E.
  - simpl. split.
    + intros (span & [] & _).
    + intros (r & I & _). apply M in I. destruct I.
  - cbn [mergeRanges]. rewrite (mergeLoop_points S). split.
    + intros [C|(r & I & C)].
      * exists first. split; auto. apply M. now left.
      * exists r. split; auto. apply M. now right.
    + intros (r & I & C). apply M in I. destruct I as [<-|I]; auto.
      right. exists r. auto.
Qed.

(* ================================================================== *)
(** ** Code generation on lowered bodies *)

Lemma dense_get V (m : list (InstrId * V)) k :
  dense m -> k < length m -> exists v, JsMap.get m k = Some v /\ In (k, v) m.
Proof.
  intros D L.
  destruct (@key_get_Some _ _ _ m k) as (v & G).
  - rewrite D. apply in_seq. lia.
  - exists v. split; auto. now apply get_Some_In.
Qed.

Lemma mapM_ok {A B} (f : A -> Result B) l :
  (forall a, In a l -> exists b, f a = Ok b) -> exists bs, mapM f l = Ok bs.
Proof.
  induction l as [|a l IH]; intros H; simpl; eauto.
  destruct (H a (or_introl eq_refl)) as (b & ->).
  destruct IH as (bs & ->); [intros; apply H; now right|].
  simpl. eauto.
Qed.

Lemma rvalues_In vs id : In (RValue id) vs -> In id (rvalues vs).
Proof.
  intros I. unfold rvalues. apply in_flat_map. exists (RValue id). simpl. auto.
Qed.

Lemma instrToExpressionFuel_total func :
  wellFormed func ->
  forall fuel id instr,
    In (id, instr) func -> id < fuel ->
    exists e, instrToExpressionFuel fuel instr func = Ok e.
Proof.
  intros [D B]. induction fuel as [|fuel IH]; intros id instr I L; [lia|].
  assert (OfId : forall used, In used (eachValue instr) ->
            exists i e, JsMap.get func used = Some i /\
                        instrToExpressionFuel fuel i func = Ok e).
  { intros used U. pose proof (B id instr I used U) as Lt.
    pose proof (@dense_In_lt _ func id instr D I) as Li.
    destruct (@dense_get _ func used D) as (i & G & Iu); [lia|].
    destruct (IH used i Iu) as (e & E); [lia|]. eauto. }
  destruct instr; simpl; eauto.
  - (* Call *)
    destruct (OfId receiver) as (ri & target & -> & T); [now left|].
    rewrite T.
    assert (Args : exists args,
              mapM (fun v => match v with
                             | LiteralValue l => Ok (literalNode l)
                             | RValue id =>
                                 match JsMap.get func id with
                                 | Some i => instrToExpressionFuel fuel i func
                                 | None => Throw "TypeError: instr is undefined"
                                 end
                             end) arguments = Ok args).
    { apply mapM_ok. intros [used|l] Iv; eauto.
      destruct (OfId used) as (i & e & -> & E); [right; now apply rvalues_In|].
      eauto. }
    destruct Args as (args & ->).
    destruct (truthy property); simpl; eauto.
  - (* Object *)
    assert (Props : exists props,
              mapM (fun kv : string * Value =>
                      valueExpr <-
                        match snd kv with
                        | LiteralValue l => Ok (literalNode l)
                        | RValue id =>
                            match JsMap.get func id with
                            | Some i => instrToExpressionFuel fuel i func
                            | None => Throw "TypeError: instr is undefined"
                            end
                        end ;;
                      Ok (ObjectProperty (Identifier (fst kv)) valueExpr))
                   properties = Ok props).
    { apply mapM_ok. intros [k [used|l]] Iv; simpl; eauto.
      destruct (OfId used) as (i & e & -> & ->).
      - apply rvalues_In. apply in_map_iff. exists (k, RValue used). auto.
      - simpl. eauto. }
    destruct Props as (props & ->). simpl. eauto.
  - (* ReadProperty *)
    destruct (OfId object) as (i & e & -> & ->); [now left|].
    simpl. destruct property; eauto.
Qed.

Lemma instrToExpression_ok func :
  wellFormed func ->
  forall id instr, In (id, instr) func ->
  exists e, instrToExpression instr func = Ok e.
Proof.
  intros W id instr I. unfold instrToExpression.
  apply (@instrToExpressionFuel_total func W _ id instr I).
  pose proof (@dense_In_lt _ func id instr (proj1 W) I). unfold JsMap.size. lia.
Qed.

(** X13. On a well-formed body (dense ids, no forward reference)
    [instrToExpression] returns an expression for every instruction of the
    body: it neither meets a missing operand nor recurses without end. *)
Theorem instrToExpression_total (func : FunctionBody) (id : InstrId)
    (instr : Instruction) :
  wellFormed func -> In (id, instr) func ->
  exists e, instrToExpression instr func = Ok e.
Proof. intros W I. exact (@instrToExpression_ok func W id instr I). Qed.

Lemma memoExample_wellFormed : wellFormed memoExample_body.
Proof.
  apply (@readInstructions_wellFormed memoExample memoExample_body
           [LogInstr 1 (LoadConstant "g");
            LogInstr 2 (Object [("x"%string, RValue 0)]);
            LogInstr 3 (Call 1 None [RValue 2]);
            LogInstr 4 (Return (Some 3))]); reflexivity.
Qed.

Lemma instrToExpression_total_witness :
  wellFormed memoExample_body /\
  exists e, instrToExpression (Call 1 None [RValue 2]) memoExample_body = Ok e.
Proof.
  split; [exact memoExample_wellFormed|].
  apply (@instrToExpression_total memoExample_body 3 _ memoExample_wellFormed).
  simpl. tauto.
Defined.

Lemma unionEdges_items items a b :
  In (a, b) (unionEdges items) -> In a items /\ In b items.
Proof.
  intros I. apply unionEdges_In in I. destruct I as (rest & -> & _ & Ib).
  split; [now left | now right].
Qed.

Lemma unionEdges_connect edges items x y :
  (forall e, In e (unionEdges items) -> In e edges) ->
  In x items -> In y items -> Connected edges x y.
Proof.
  intros Sub Ix Iy.
  destruct items as [|first [|second rest]].
  - destruct Ix.
  - destruct Ix as [<-|[]]. destruct Iy as [<-|[]]. apply Connected_refl.
  - assert (F : forall z, In z (first :: second :: rest) -> Connected edges first z).
    { intros z [<-|Iz]; [apply Connected_refl|].
      apply Connected_edge, Sub. apply unionEdges_In.
      exists (second :: rest). split; [reflexivity|]. split; [simpl; lia | exact Iz]. }
    eapply Connected_trans; [apply Connected_sym, F, Ix | apply F, Iy].
Qed.

Lemma stepEdges_In valuesInfo (func : FunctionBody) e :
  In e (flat_map (stepEdges valuesInfo) func) ->
  exists u instr iu,
    In (u, instr) func /\ JsMap.get valuesInfo u = Some iu /\
    shouldMemoize iu = true /\
    In e (unionEdges (mutatorsOf iu ++ [u])).
Proof.
  intros I. apply in_flat_map in I. destruct I as ([u instr] & I & Ie).
  unfold stepEdges in Ie. cbn [fst] in Ie.
  destruct (JsMap.get valuesInfo u) as [iu|] eqn:G; [|destruct Ie].
  destruct (shouldMemoize iu) eqn:S; [|destruct Ie].
  exists u, instr, iu. auto.
Qed.

Lemma stepEdges_sub valuesInfo (func : FunctionBody) u instr iu :
  In (u, instr) func -> JsMap.get valuesInfo u = Some iu ->
  shouldMemoize iu = true ->
  forall e, In e (unionEdges (mutatorsOf iu ++ [u])) ->
            In e (flat_map (stepEdges valuesInfo) func).
Proof.
  intros I G S e Ie. apply in_flat_map. exists (u, instr). split; auto.
  unfold stepEdges. cbn [fst]. now rewrite G, S.
Qed.

Lemma two_members (s : list InstrId) x :
  2 <= length s -> NoDup s -> In x s -> exists y, In y s /\ y <> x.
Proof.
  intros L ND Ix. destruct s as [|a [|b s]]; simpl in L; try lia.
  inversion ND as [|? ? Na _]; subst.
  destruct (Nat.eq_dec a x) as [->|N].
  - exists b. split; [simpl; auto|]. intros ->. apply Na. now left.
  - exists a. split; [now left | exact N].
Qed.

(** The least id of a scope set is an instruction to memoize, and the
    members of the set are ids of the body. *)
Lemma scope_set_min func info s :
  wellFormed func -> analyze func = Ok info ->
  2 <= length s -> NoDup s ->
  (forall x, In x s ->
     forall y, In y s <-> Connected (flat_map (stepEdges info) func) x y) ->
  (exists instr iu, In (minOf s, instr) func /\
                    JsMap.get info (minOf s) = Some iu /\
                    shouldMemoize iu = true) /\
  (forall x, In x s -> x < length func).
Proof.
  intros [D B] A L ND Cls.
  assert (Ne : s <> []) by (destruct s; simpl in L; [lia | discriminate]).
  assert (Star : forall x, In x s ->
            exists u instr iu,
              In (u, instr) func /\ JsMap.get info u = Some iu /\
              shouldMemoize iu = true /\ In u s /\
              (x = u \/ (u < x /\ x < length func))).
  { intros x Ix. destruct (@two_members s x L ND Ix) as (y & Iy & Nyx).
    assert (C : Connected (flat_map (stepEdges info) func) x y) by (apply (Cls x Ix), Iy).
    destruct (Connected_endpoints C) as [->|[(z & Ez) _]]; [contradiction|].
    assert (X : exists e, In e (flat_map (stepEdges info) func) /\
                          (fst e = x \/ snd e = x)).
    { destruct Ez as [E|E]; eexists; split; try exact E; simpl; auto. }
    destruct X as ([a b] & Ie & Xe). cbn [fst snd] in Xe.
    destruct (@stepEdges_In info func (a, b) Ie) as (u & instr & iu & Iu & G & S & Iun).
    exists u, instr, iu. split; [exact Iu|]. split; [exact G|]. split; [exact S|].
    destruct (@unionEdges_items _ a b Iun) as [Ia Ib].
    assert (Ixi : In x (mutatorsOf iu ++ [u])) by (destruct Xe as [<-|<-]; auto).
    split.
    - apply (Cls x Ix).
      apply (@unionEdges_connect _ (mutatorsOf iu ++ [u])); auto.
      + apply (@stepEdges_sub info func u instr iu Iu G S).
      + apply in_or_app. right. now left.
    - apply in_app_or in Ixi. destruct Ixi as [M|[->|[]]]; auto.
      right. apply (@analyze_mutators_of func info A _ _ G) in M.
      destruct M as (_ & ci & Ic & _ & U). split.
      + eapply B; eauto.
      + eapply dense_In_lt; eauto. }
  destruct (@minOf_spec s Ne) as [Im Least].
  split.
  - destruct (Star _ Im) as (u & instr & iu & Iu & G & S & Ius & [E|[Lt _]]).
    + rewrite E. eauto.
    + specialize (Least u Ius). lia.
  - intros x Ix.
    destruct (Star _ Ix) as (u & instr & iu & Iu & _ & _ & _ & [->|[_ Lt]]); auto.
    eapply dense_In_lt; eauto.
Qed.

Lemma scope_ranges_start_at_memo func info :
  wellFormed func -> analyze func = Ok info ->
  exists spans,
    getInstructionScopeRanges func info = Some spans /\
    Ascending spans /\
    Forall (fun r => r_start r < r_end r) spans /\
    forall span, In span spans ->
      r_end span < length func /\
      exists instr iu,
        In (r_start span, instr) func /\
        JsMap.get info (r_start span) = Some iu /\
        shouldMemoize iu = true.
Proof.
  intros W A.
  destruct (getInstructionScopeRanges_spec func info)
    as (sets & spans & M & G & _ & Asc & P & _ & Ends).
  destruct (mutatingSetsOf_spec func info) as (sets' & M' & Cls & _).
  rewrite M in M'. injection M' as <-.
  exists spans. split; [exact G|]. split; [exact Asc|]. split; [exact P|].
  intros span Is. destruct (Ends span Is) as [(s1 & I1 & E1) (s2 & I2 & E2)].
  destruct (Cls s1 I1) as (L1 & ND1 & C1). destruct (Cls s2 I2) as (L2 & ND2 & C2).
  destruct (@scope_set_min func info s1 W A L1 ND1 C1) as [Min _].
  destruct (@scope_set_min func info s2 W A L2 ND2 C2) as [_ Mem].
  split.
  - rewrite E2. apply Mem.
    assert (Ne : s2 <> []) by (destruct s2; simpl in L2; [lia | discriminate]).
    apply (@maxOf_spec s2 Ne).
  - rewrite E1. exact Min.
Qed.

Lemma fold_add_In (l : list InstrId) : forall acc d,
  In d (fold_left JsSet.add l acc) <-> In d acc \/ In d l.
Proof.
  induction l as [|x l IH]; intros acc d; simpl; [tauto|].
  rewrite IH, add_In. intuition congruence.
Qed.

Lemma blockStep_deps func info l : forall b d,
  In d (deps (fold_left (blockStep func info) l b)) <->
  In d (deps b) \/
  exists i instr iu,
    In i l /\ JsMap.get func i = Some instr /\
    JsMap.get info i = Some iu /\ In d (dependenciesList iu).
Proof.
  induction l as [|i l IH]; intros b d; cbn [fold_left].
  - split; auto. intros [?|(? & ? & ? & [] & _)]; auto.
  - rewrite IH. unfold blockStep.
    destruct (JsMap.get func i) as [instr|] eqn:G.
    + cbn [deps]. rewrite fold_add_In. split.
      * intros [[?|Id]|(j & ji & ju & Ij & Gj & Gi & Idj)]; auto.
        -- right. destruct (JsMap.get info i) as [iu|] eqn:Gi; [|destruct Id].
           exists i, instr, iu. repeat split; auto. now left.
        -- right. exists j, ji, ju. repeat split; auto. now right.
      * intros [?|(j & ji & ju & [<-|Ij] & Gj & Gi & Idj)]; auto.
        -- left. right. rewrite Gi. exact Idj.
        -- right. exists j, ji, ju. auto.
    + split.
      * intros [?|(j & ji & ju & Ij & Gj & Gi & Idj)]; auto.
        right. exists j, ji, ju. repeat split; auto. now right.
      * intros [?|(j & ji & ju & [<-|Ij] & Gj & Gi & Idj)]; auto.
        -- congruence.
        -- right. exists j, ji, ju. auto.
Qed.

Lemma makeBlock_deps func info scope d :
  In d (deps (makeBlock func info scope)) <->
  exists i instr iu,
    In i (idsOf scope) /\ JsMap.get func i = Some instr /\
    JsMap.get info i = Some iu /\ In d (dependenciesList iu).
Proof.
  unfold makeBlock. rewrite blockStep_deps. cbn [deps]. unfold idsOf.
  split; [intros [[]|?]; auto | auto].
Qed.

Lemma shouldMemoize_true iu :
  shouldMemoize iu = true ->
  shouldMemo iu = Some true /\ exists d, In d (dependenciesList iu).
Proof.
  unfold shouldMemoize, dependenciesList.
  destruct (shouldMemo iu) as [[|]|]; try discriminate.
  destruct (dependencies iu) as [[|d ds]|]; try discriminate.
  intros _. split; auto. exists d. now left.
Qed.

Lemma analyze_dependencies_below func info :
  wellFormed func -> analyze func = Ok info ->
  forall id iu, JsMap.get info id = Some iu ->
  forall d, In d (dependenciesList iu) -> d < id.
Proof.
  intros [D B] E id info0 G.
  pose proof (dense_NoDup D) as ND.
  assert (K : In id (JsMap.keys func)).
  { rewrite <- (@analyze_keys func info ND E). eapply get_Some_key; eauto. }
  apply in_map_iff in K. destruct K as ([id' instr] & <- & I). simpl in *.
  destruct (@analyze_dependencies_of func info ND E _ _ _ I G) as [Dd _].
  unfold dependenciesList. rewrite Dd. intros d Id.
  apply dependenciesOf_In in Id. destruct Id as [U _]. eapply B; eauto.
Qed.

(** What [codegenJS] does with the block of a span that starts at an
    instruction to memoize. *)
Lemma codegenStep_block func info scope instr iu stmts n :
  wellFormed func -> analyze func = Ok info ->
  r_start scope < r_end scope ->
  In (r_start scope, instr) func ->
  JsMap.get info (r_start scope) = Some iu ->
  shouldMemoize iu = true ->
  exists computation,
    JsMap.get func (r_start scope) = Some instr /\
    instrToExpression instr func = Ok computation /\
    codegenStep func info (stmts, n)
      (pruneBlock (RBlock (makeBlock func info scope))) =
    Ok (stmts ++ [memoDeclaration n computation
                    (getDependencyNames
                       (prunedDeps (makeBlock func info scope)) func)],
        n + 1).
Proof.
  intros W A P I G Sm.
  pose proof (dense_NoDup (proj1 W)) as ND.
  pose proof (@In_get _ _ _ func _ _ ND I) as Gf.
  destruct (@instrToExpression_ok func W _ _ I) as (computation & C).
  exists computation. split; [exact Gf|]. split; [exact C|].
  destruct (@shouldMemoize_true iu Sm) as (Flag & d & Id).
  cbn [pruneBlock codegenStep instrs deps].
  fold (prunedDeps (makeBlock func info scope)).
  assert (Dp : In d (prunedDeps (makeBlock func info scope))).
  { unfold prunedDeps. apply filter_In. split.
    - apply makeBlock_deps. exists (r_start scope), instr, iu.
      repeat split; auto. unfold idsOf. apply in_seq. lia.
    - destruct (JsMap.has _ d) eqn:Hd; auto.
      apply has_In in Hd. rewrite makeBlock_instrs in Hd.
      apply entriesIn_keys, in_seq in Hd.
      pose proof (@analyze_dependencies_below func info W A _ _ G d Id). lia. }
  assert (Sz : (0 <? JsSet.size (prunedDeps (makeBlock func info scope))) = true).
  { apply Nat.ltb_lt. unfold JsSet.size.
    destruct (prunedDeps _); [destruct Dp | simpl; lia]. }
  rewrite Sz.
  assert (Mo : mainOperationOf info (instrs (makeBlock func info scope)) =
               Some (r_start scope, instr)).
  { rewrite makeBlock_instrs.
    replace (S (r_end scope) - r_start scope) with (S (r_end scope - r_start scope)) by lia.
    cbn [seq entriesIn flat_map]. fold (entriesIn func (seq (S (r_start scope)) (r_end scope - r_start scope))).
    rewrite Gf. cbn [app mainOperationOf]. now rewrite G, Flag. }
  rewrite Mo, C. reflexivity.
Qed.

Lemma filter_noBlock hir :
  forallb (fun ri => negb (isBlock ri)) hir = true -> filter isBlock hir = [].
Proof.
  induction hir as [|ri hir IH]; simpl; auto.
  destruct (isBlock ri); simpl; [discriminate | exact IH].
Qed.

Lemma scopes_fold_blocks func info scopes : forall hir s hir' s',
  Forall (fun r => r_start r < r_end r) scopes ->
  foldM (scopeStep func info) scopes (hir, s) = Ok (hir', s') ->
  filter isBlock hir' =
    filter isBlock hir ++ map (fun sc => RBlock (makeBlock func info sc)) scopes.
Proof.
  induction scopes as [|scope scopes IH]; intros hir s hir' s' P F; cbn [foldM] in F.
  - injection F as <- <-. simpl. now rewrite app_nil_r.
  - inversion P as [|? ? Ps P']; subst.
    rewrite scopeStep_proper in F by exact Ps. cbn [bindR] in F.
    rewrite (IH _ _ _ _ P' F), !filter_app.
    rewrite (filter_noBlock _ (passThrough_noBlock func s (r_start scope))).
    cbn [filter isBlock map app]. now rewrite <- app_assoc.
Qed.

Lemma codegen_blocks_only func info hir : forall state,
  foldM (codegenStep func info) (map pruneBlock hir) state =
  foldM (codegenStep func info) (map pruneBlock (filter isBlock hir)) state.
Proof.
  induction hir as [|[b|id instr] hir IH]; intros state; cbn [map filter isBlock foldM].
  - reflexivity.
  - destruct (codegenStep func info state (pruneBlock (RBlock b))); simpl; auto.
  - cbn [pruneBlock]. rewrite codegenStep_passThrough. cbn [bindR]. apply IH.
Qed.

Lemma codegen_spans func info :
  wellFormed func -> analyze func = Ok info ->
  forall spans stmts n,
    (forall span, In span spans ->
       r_start span < r_end span /\
       exists instr iu,
         In (r_start span, instr) func /\
         JsMap.get info (r_start span) = Some iu /\
         shouldMemoize iu = true) ->
    exists extra,
      foldM (codegenStep func info)
            (map pruneBlock (map (fun sc => RBlock (makeBlock func info sc)) spans))
            (stmts, n) = Ok (stmts ++ extra, n + length spans) /\
      length extra = length spans /\
      forall j span, nth_error spans j = Some span ->
        exists instr computation,
          JsMap.get func (r_start span) = Some instr /\
          instrToExpression instr func = Ok computation /\
          nth_error extra j =
            Some (memoDeclaration (n + j) computation
                    (getDependencyNames
                       (prunedDeps (makeBlock func info span)) func)).
Proof.
  intros W A. induction spans as [|span spans IH]; intros stmts n Good.
  - exists []. cbn [map foldM length]. rewrite app_nil_r, Nat.add_0_r.
    split; [reflexivity|]. split; [reflexivity|].
    intros [|j] sp E; discriminate E.
  - destruct (Good span (or_introl eq_refl)) as (P & instr & iu & I & G & Sm).
    destruct (@codegenStep_block func info span instr iu stmts n W A P I G Sm)
      as (computation & Gf & C & Step).
    destruct (IH (stmts ++ [memoDeclaration n computation
                              (getDependencyNames
                                 (prunedDeps (makeBlock func info span)) func)])
                 (n + 1)) as (extra & F & L & Nth).
    { intros sp Is. apply Good. now right. }
    eexists (_ :: extra). cbn [map foldM]. rewrite Step. cbn [bindR].
    rewrite F. rewrite <- app_assoc. cbn [app length].
    split; [f_equal; f_equal; lia|]. split; [now rewrite L|].
    intros [|j] sp E; cbn [nth_error] in E |- *.
    + injection E as <-. rewrite Nat.add_0_r. eauto.
    + destruct (Nth j sp E) as (i' & c' & G' & C' & N').
      exists i', c'. split; auto. split; auto.
      rewrite N'. do 2 f_equal. lia.
Qed.

Lemma codegenJS_scopes func info :
  wellFormed func -> analyze func = Ok info ->
  exists spans generated,
    getInstructionScopeRanges func info = Some spans /\
    codegenJS func info = Some (Ok generated) /\
    length generated = length spans /\
    forall k span, nth_error spans k = Some span ->
      exists instr computation,
        JsMap.get func (r_start span) = Some instr /\
        instrToExpression instr func = Ok computation /\
        nth_error generated k =
          Some (memoDeclaration k computation
                  (getDependencyNames
                     (prunedDeps (makeBlock func info span)) func)).
Proof.
  intros W A.
  destruct (@scope_ranges_start_at_memo func info W A) as (spans & G & Asc & P & Good).
  unfold codegenJS, makeReactiveInstrs. rewrite G.
  unfold reactiveInstrsFrom.
  destruct (@scopes_fold func info spans [] 0 Asc P) as (hir & s & F & _ & _).
  { intros r _. lia. }
  { reflexivity. }
  rewrite F. cbn [bindR fst snd].
  pose proof (@scopes_fold_blocks func info spans [] 0 hir s P F) as B.
  cbn [filter app] in B.
  destruct (@codegen_spans func info W A spans [] 0) as (extra & Fc & L & Nth).
  { intros span Is. split.
    - rewrite Forall_forall in P. now apply P.
    - apply (Good span Is). }
  exists spans, extra. split; [reflexivity|]. split.
  - unfold codegenFrom. rewrite codegen_blocks_only, filter_app, B.
    rewrite (filter_noBlock _ (passThrough_noBlock func s (JsMap.size func))).
    rewrite app_nil_r, Fc. reflexivity.
  - split; [exact L|]. intros k span E.
    destruct (Nth k span E) as (i & c & ? & ? & ?). exists i, c. auto.
Qed.

(** X14. On a well-formed body every merged scope yields exactly one generated
    statement, in scope order: the k-th statement is
    [const memoized<k> = useMemo(() => e, [names])], where [e] is the
    expression of the first instruction of the k-th scope and [names] are
    the names of the dependencies of its block that come from outside it. *)
Theorem every_scope_is_memoized (func : FunctionBody) (info : ValueInfos) :
  wellFormed func -> analyze func = Ok info ->
  exists spans generated,
    getInstructionScopeRanges func info = Some spans /\
    codegenJS func info = Some (Ok generated) /\
    length generated = length spans /\
    forall k span, nth_error spans k = Some span ->
      exists instr computation,
        JsMap.get func (r_start span) = Some instr /\
        instrToExpression instr func = Ok computation /\
        nth_error generated k =
          Some (memoDeclaration k computation
                  (getDependencyNames
                     (prunedDeps (makeBlock func info span)) func)).
Proof. apply codegenJS_scopes. Qed.

Lemma every_scope_is_memoized_witness :
  wellFormed memoExample_body /\
  exists spans generated,
    getInstructionScopeRanges memoExample_body memoExample_info = Some spans /\
    codegenJS memoExample_body memoExample_info = Some (Ok generated) /\
    length generated = length spans /\
    forall k span, nth_error spans k = Some span ->
      exists instr computation,
        JsMap.get memoExample_body (r_start span) = Some instr /\
        instrToExpression instr memoExample_body = Ok computation /\
        nth_error generated k =
          Some (memoDeclaration k computation
                  (getDependencyNames
                     (prunedDeps (makeBlock memoExample_body memoExample_info span))
                     memoExample_body)).
Proof.
  split; [exact memoExample_wellFormed|].
  exact (@every_scope_is_memoized memoExample_body memoExample_info
           memoExample_wellFormed eq_refl).
Defined.

(* ================================================================== *)
(** ** The visitor *)

Lemma compileFunction_lowered func body log :
  forallb wellTyped (fn_body func) = true ->
  readInstructions func = Ok (body, log) ->
  exists info generated,
    analyze body = Ok info /\
    codegenJS body info = Some (Ok generated) /\
    compileFunction func =
      Some (Ok {| out_body := generated ++ map rewriteStatement (fn_body func);
                  hasAnyOptimizations :=
                    (0 <? length generated)
                    || existsb statementRewritten (fn_body func) |}).
Proof.
  intros T R.
  pose proof (@readInstructions_wellFormed func body log T R) as W.
  destruct (@analyze_lowered func body log T R) as (info & A).
  destruct (@codegenJS_scopes body info W A) as (spans & generated & _ & C & _).
  exists info, generated. split; [exact A|]. split; [exact C|].
  unfold compileFunction. rewrite R, A, C.
  destruct generated; reflexivity.
Qed.

(** X15. Once a function whose statements are typed as Babel types them lowers
    without error, the rest of the visitor cannot fail: the analysis and the
    code generation return, and the new body is the generated declarations
    followed by the original statements, each after step 4. *)
Theorem compileFunction_succeeds (func : FunctionDeclaration)
    (body : FunctionBody) (log : list LogLine) :
  forallb wellTyped (fn_body func) = true ->
  readInstructions func = Ok (body, log) ->
  exists info generated,
    analyze body = Ok info /\
    codegenJS body info = Some (Ok generated) /\
    compileFunction func =
      Some (Ok {| out_body := generated ++ map rewriteStatement (fn_body func);
                  hasAnyOptimizations :=
                    (0 <? length generated)
                    || existsb statementRewritten (fn_body func) |}).
Proof. apply compileFunction_lowered. Qed.

Lemma compileFunction_succeeds_witness :
  exists info generated,
    analyze memoExample_body = Ok info /\
    codegenJS memoExample_body info = Some (Ok generated) /\
    compileFunction memoExample =
      Some (Ok {| out_body := generated ++ map rewriteStatement (fn_body memoExample);
                  hasAnyOptimizations :=
                    (0 <? length generated)
                    || existsb statementRewritten (fn_body memoExample) |}).
Proof.
  exact (@compileFunction_succeeds memoExample memoExample_body
           [LogInstr 1 (LoadConstant "g");
            LogInstr 2 (Object [("x"%string, RValue 0)]);
            LogInstr 3 (Call 1 None [RValue 2]);
            LogInstr 4 (Return (Some 3))] eq_refl eq_refl).
Defined.

Lemma rewriteDeclarator_fixed decl :
  rewriteDeclarator decl = decl ->
  match decl with
  | VariableDeclarator _ (Some init) => isExpensiveMethodCall init = false
  | _ => True
  end.
Proof.
  destruct decl; auto. destruct init as [init|]; auto. simpl.
  destruct (isExpensiveMethodCall init) eqn:E; auto.
  intros H. injection H as H. rewrite <- H in E. discriminate E.
Qed.

Lemma map_fixed {A} (f : A -> A) l : map f l = l -> forall x, In x l -> f x = x.
Proof.
  induction l as [|a l IH]; simpl; intros E x I; [destruct I|].
  injection E as Ea El. destruct I as [<-|I]; auto.
Qed.

Lemma rewriteStatement_fixed stmt :
  rewriteStatement stmt = stmt -> statementRewritten stmt = false.
Proof.
  destruct stmt; auto. simpl.
  destruct (hasExpensiveOperation declarations) eqn:E; auto.
  intros H. injection H as H.
  unfold hasExpensiveOperation in E. apply existsb_exists in E.
  destruct E as (decl & I & X).
  pose proof (@rewriteDeclarator_fixed decl (@map_fixed _ rewriteDeclarator declarations H decl I)) as F.
  destruct decl; try discriminate. destruct init; [|discriminate]. congruence.
Qed.

(** X16. [hasAnyOptimizations], which decides whether the import of [useMemo]
    is added, is false exactly when the visitor leaves the body of the
    function as it was. *)
Theorem hasAnyOptimizations_iff_changed (func : FunctionDeclaration)
    (compiled : Compiled) :
  compileFunction func = Some (Ok compiled) ->
  (hasAnyOptimizations compiled = false <-> out_body compiled = fn_body func).
Proof.
  unfold compileFunction.
  destruct (readInstructions func) as [[instrs log]|]; [|discriminate].
  destruct (analyze instrs) as [info|]; [|discriminate].
  destruct (codegenJS instrs info) as [[generated|]|]; try discriminate.
  intros E. injection E as <-. cbn [hasAnyOptimizations out_body].
  destruct generated as [|g generated].
  - cbn [length Nat.ltb Nat.leb orb]. split.
    + apply rewriteStatement_unchanged.
    + intros H. destruct (existsb statementRewritten (fn_body func)) eqn:E; auto.
      apply existsb_exists in E. destruct E as (stmt & I & X).
      rewrite (@rewriteStatement_fixed stmt (@map_fixed _ rewriteStatement (fn_body func) H stmt I)) in X. discriminate X.
  - split; [discriminate|]. intros H. apply (f_equal (@length Node)) in H.
    rewrite length_app, length_map in H. simpl in H. lia.
Qed.

Lemma hasAnyOptimizations_iff_changed_witness :
  hasAnyOptimizations
    {| out_body := fn_body returnsGlobal; hasAnyOptimizations := false |} = false <->
  out_body {| out_body := fn_body returnsGlobal; hasAnyOptimizations := false |}
    = fn_body returnsGlobal.
Proof.
  exact (@hasAnyOptimizations_iff_changed returnsGlobal _ eq_refl).
Defined.

Lemma rewriteDeclarator_not_expensive decl :
  match rewriteDeclarator decl with
  | VariableDeclarator _ (Some init) => isExpensiveMethodCall init = false
  | _ => True
  end.
Proof.
  destruct decl; simpl; auto. destruct init as [init|]; simpl; auto.
  destruct (isExpensiveMethodCall init) eqn:E; simpl; auto.
Qed.

(** X17. Step 4 wraps nothing twice: a statement it has rewritten holds no
    expensive method call as an initializer any more, so running step 4 on
    its own output changes nothing. *)
Theorem rewriteStatement_idempotent (stmt : Node) :
  statementRewritten (rewriteStatement stmt) = false /\
  rewriteStatement (rewriteStatement stmt) = rewriteStatement stmt.
Proof.
  assert (F : statementRewritten (rewriteStatement stmt) = false).
  { destruct stmt; auto. simpl.
    destruct (hasExpensiveOperation declarations) eqn:E; simpl; auto.
    unfold hasExpensiveOperation.
    destruct (existsb _ (map rewriteDeclarator declarations)) eqn:X; auto.
    apply existsb_exists in X. destruct X as (d & I & Xd).
    apply in_map_iff in I. destruct I as (d0 & <- & _).
    pose proof (rewriteDeclarator_not_expensive d0) as N.
    destruct (rewriteDeclarator d0); try discriminate.
    destruct init; [congruence | discriminate]. }
  split; [exact F|].
  destruct (rewriteStatement stmt) eqn:R; auto.
  simpl in F |- *. now rewrite F.
Qed.

Lemma entriesIn_has func ids k v :
  In k ids -> JsMap.get func k = Some v ->
  In k (JsMap.keys (entriesIn func ids)).
Proof.
  intros I G. unfold entriesIn, JsMap.keys. apply in_map_iff.
  exists (k, v). split; [reflexivity|]. apply in_flat_map.
  exists k. split; [exact I|]. rewrite G. now left.
Qed.

(** X18. The dependency array of a scope: on a well-formed body the dependencies
    that [codegenJS] keeps for the block of a span are exactly the
    may-change ids from before the span that an instruction of the span
    consumes. *)
Theorem block_dependencies_come_from_outside (func : FunctionBody)
    (info : ValueInfos) (scope : Range) (d : InstrId) :
  wellFormed func -> analyze func = Ok info ->
  (In d (prunedDeps (makeBlock func info scope)) <->
   d < r_start scope /\
   In d (getValuesThatMayChange func) /\
   exists i instr,
     r_start scope <= i <= r_end scope /\ In (i, instr) func /\
     In d (eachValue instr)).
Proof.
  intros W A. pose proof W as [D B].
  pose proof (dense_NoDup D) as ND.
  unfold prunedDeps. rewrite filter_In, makeBlock_deps, makeBlock_instrs.
  fold (idsOf scope). split.
  - intros [(i & instr & iu & Ii & Gf & Gi & Id) Out].
    pose proof (get_Some_In _ _ Gf) as If.
    destruct (@analyze_dependencies_of func info ND A _ _ _ If Gi) as [Dd _].
    unfold dependenciesList in Id. rewrite Dd in Id.
    apply dependenciesOf_In in Id. destruct Id as [U M].
    pose proof (B _ _ If _ U) as Lt.
    pose proof (@dense_In_lt _ func i instr D If) as Li.
    unfold idsOf in Ii. apply in_seq in Ii.
    split; [|split; [exact M|]].
    + destruct (Nat.lt_ge_cases d (r_start scope)) as [?|Ge]; auto.
      destruct (@dense_get _ func d D) as (v & Gd & _); [lia|].
      assert (Hd : JsMap.has (entriesIn func (idsOf scope)) d = true).
      { apply has_In. apply entriesIn_has with v; auto.
        unfold idsOf. apply in_seq. lia. }
      rewrite Hd in Out. discriminate Out.
    + exists i, instr. split; [lia|]. auto.
  - intros (Lt & M & i & instr & Ii & If & U).
    pose proof (@In_get _ _ _ func _ _ ND If) as Gf.
    assert (K : In i (JsMap.keys info)).
    { rewrite (@analyze_keys func info ND A). eapply get_Some_key; eauto. }
    apply key_get_Some in K. destruct K as (iu & Gi).
    destruct (@analyze_dependencies_of func info ND A _ _ _ If Gi) as [Dd _].
    split.
    + exists i, instr, iu. split; [unfold idsOf; apply in_seq; lia|].
      split; [exact Gf|]. split; [exact Gi|].
      unfold dependenciesList. rewrite Dd. apply dependenciesOf_In. auto.
    + destruct (JsMap.has _ d) eqn:Hd; auto.
      apply has_In, entriesIn_keys in Hd. unfold idsOf in Hd.
      apply in_seq in Hd. lia.
Qed.

Lemma block_dependencies_come_from_outside_witness :
  wellFormed memoExample_body /\
  (In 0 (prunedDeps (makeBlock memoExample_body memoExample_info
                       {| r_start := 2; r_end := 3 |})) <->
   0 < 2 /\
   In 0 (getValuesThatMayChange memoExample_body) /\
   exists i instr,
     2 <= i <= 3 /\ In (i, instr) memoExample_body /\ In 0 (eachValue instr)).
Proof.
  split; [exact memoExample_wellFormed|].
  exact (@block_dependencies_come_from_outside memoExample_body memoExample_info
           {| r_start := 2; r_end := 3 |} 0 memoExample_wellFormed eq_refl).
Defined.

Lemma of_list_fold (l : list string) : forall acc,
  NoDup acc ->
  NoDup (fold_left JsSet.add l acc) /\
  forall x, In x (fold_left JsSet.add l acc) <-> In x acc \/ In x l.
Proof.
  induction l as [|a l IH]; intros acc ND; simpl.
  - split; auto. intros x. tauto.
  - destruct (IH (JsSet.add acc a)) as [ND' M]; [now apply add_NoDup|].
    split; auto. intros x. rewrite M, add_In. intuition congruence.
Qed.

(** X19. The dependency array that step 4 writes lists each identifier that
    [extractIdentifiers] meets in the wrapped call once, whichever the number
    of its occurrences, except the five excluded names. *)
Theorem memoDependencies_spec (originalCall : Node) :
  NoDup (memoDependencies originalCall) /\
  forall name,
    In name (memoDependencies originalCall) <->
    In name (traverse originalCall) /\
    ~ In name ["item"; "Math"; "console"; "window"; "document"]%string.
Proof.
  unfold memoDependencies, extractIdentifiers, JsSet.of_list.
  destruct (@of_list_fold (traverse originalCall) [] (NoDup_nil _)) as [ND M].
  split; [now apply NoDup_filter|].
  intros name. rewrite filter_In, M. simpl In at 1.
  assert (X : negb (strIn name excludeList) = true <->
              ~ In name ["item"; "Math"; "console"; "window"; "document"]%string).
  { unfold strIn. rewrite negb_true_iff. split.
    - intros F I. assert (T : existsb (String.eqb name) excludeList = true).
      { apply existsb_exists. exists name. split; [exact I | apply String.eqb_refl]. }
      congruence.
    - intros N. destruct (existsb _ excludeList) eqn:E; auto.
      apply existsb_exists in E. destruct E as (y & I & Ey).
      apply String.eqb_eq in Ey. subst. contradiction. }
  rewrite X. tauto.
Qed.

(* ================================================================== *)
(** ** The import of [useMemo] *)

Lemma importsName_app name l l' :
  importsName name (l ++ l') = importsName name l || importsName name l'.
Proof. apply existsb_app. Qed.

Lemma importsName_ensure name name' l :
  importsName name (ensureImported name' l) =
  importsName name l || String.eqb name' name.
Proof.
  unfold ensureImported. destruct (importsName name' l) eqn:E.
  - destruct (String.eqb_spec name' name) as [->|N].
    + now rewrite E.
    + now rewrite orb_false_r.
  - rewrite importsName_app. simpl. now rewrite orb_false_r.
Qed.

Lemma ensureImported_fixed name l :
  importsName name l = true -> ensureImported name l = l.
Proof. unfold ensureImported. now intros ->. Qed.

Lemma updateReactImport_None body :
  updateReactImport body = None <-> reactImport body = None.
Proof.
  unfold reactImport. induction body as [|stmt body IH]; simpl; [tauto|].
  destruct stmt as [specifiers source|node]; simpl.
  - destruct (String.eqb source "react"); [split; discriminate|].
    destruct (updateReactImport body); simpl in *.
    + split; [discriminate|]. intros H. apply IH in H. discriminate H.
    + rewrite <- IH. tauto.
  - destruct (updateReactImport body); simpl in *.
    + split; [discriminate|]. intros H. apply IH in H. discriminate H.
    + rewrite <- IH. tauto.
Qed.

Lemma updateReactImport_Some body body' :
  updateReactImport body = Some body' ->
  exists specifiers,
    reactImport body = Some specifiers /\
    reactImport body' =
      Some (ensureImported "useState" (ensureImported "useMemo" specifiers)) /\
    filter (fun stmt => negb (isReactImport stmt)) body' =
      filter (fun stmt => negb (isReactImport stmt)) body /\
    length body' = length body.
Proof.
  unfold reactImport. revert body'.
  induction body as [|stmt body IH]; intros body'; simpl; [discriminate|].
  destruct stmt as [specifiers source|node]; simpl.
  - destruct (String.eqb source "react") eqn:E.
    + intros H. injection H as <-. exists specifiers. simpl. rewrite E. simpl. auto.
    + destruct (updateReactImport body) as [b|]; [|discriminate].
      simpl. intros H. injection H as <-.
      destruct (IH b eq_refl) as (sp & R & R' & F & L).
      exists sp. simpl. rewrite E. simpl. rewrite F, L. auto.
  - destruct (updateReactImport body) as [b|]; [|discriminate].
    simpl. intros H. injection H as <-.
    destruct (IH b eq_refl) as (sp & R & R' & F & L).
    exists sp. simpl. rewrite F, L. auto.
Qed.

(** X20. After step 5 of an optimized function the program has an import
    declaration from ["react"], and the first one imports [useMemo]; the
    statements that are not imports from ["react"] are the same as before,
    in the same order, and at most one statement is added. Without an
    optimization the program is left as it is. *)
Theorem useMemo_is_imported (body : list ProgramStatement) :
  (exists specifiers,
     reactImport (addUseMemoImport true body) = Some specifiers /\
     importsName "useMemo" specifiers = true) /\
  filter (fun stmt => negb (isReactImport stmt)) (addUseMemoImport true body) =
    filter (fun stmt => negb (isReactImport stmt)) body /\
  length body <= length (addUseMemoImport true body) <= S (length body) /\
  addUseMemoImport false body = body.
Proof.
  unfold addUseMemoImport.
  destruct (updateReactImport body) as [body'|] eqn:U.
  - destruct (@updateReactImport_Some body body' U) as (sp & R & R' & F & L).
    split; [|split; [exact F|split; [lia | reflexivity]]].
    eexists. split; [exact R'|].
    rewrite !importsName_ensure. simpl. now rewrite ?orb_false_r, ?orb_true_r.
  - split; [|split; [reflexivity|split; [simpl; lia | reflexivity]]].
    eexists. split; reflexivity.
Qed.

(** X21. Step 5 run for a second optimized function of the same file: on a
    program with no import from ["react"] the first run adds
    [import { useMemo } from "react"] and the second adds [useState] to it;
    on a program that has one the second run changes nothing; in both cases
    a third run changes nothing. *)
Theorem repeated_import_update (body : list ProgramStatement) :
  (reactImport body = None ->
   addUseMemoImport true (addUseMemoImport true body) =
     ImportDeclaration [namedSpecifier "useMemo"; namedSpecifier "useState"]
       "react" :: body) /\
  (reactImport body <> None ->
   addUseMemoImport true (addUseMemoImport true body) =
     addUseMemoImport true body) /\
  addUseMemoImport true (addUseMemoImport true (addUseMemoImport true body)) =
    addUseMemoImport true (addUseMemoImport true body).
Proof.
  assert (Stable : forall b b', updateReactImport b = Some b' ->
                     updateReactImport b' = Some b').
  { induction b as [|stmt b IH]; intros b'; simpl; [discriminate|].
    destruct stmt as [specifiers source|node].
    - destruct (String.eqb source "react") eqn:E.
      + intros H. injection H as <-. simpl. rewrite E.
        set (sp := ensureImported "useState" (ensureImported "useMemo" specifiers)).
        assert (M : importsName "useMemo" sp = true).
        { unfold sp. rewrite !importsName_ensure. simpl. now rewrite ?orb_false_r, ?orb_true_r. }
        assert (S : importsName "useState" sp = true).
        { unfold sp. rewrite !importsName_ensure. simpl. now rewrite ?orb_false_r, ?orb_true_r. }
        rewrite (ensureImported_fixed _ _ M), (ensureImported_fixed _ _ S).
        reflexivity.
      + destruct (updateReactImport b) as [b0|]; [|discriminate].
        simpl. intros H. injection H as <-. simpl. rewrite E.
        now rewrite (IH b0 eq_refl).
    - destruct (updateReactImport b) as [b0|]; [|discriminate].
      simpl. intros H. injection H as <-. simpl.
      now rewrite (IH b0 eq_refl). }
  assert (Has : forall b, reactImport b <> None ->
                  addUseMemoImport true (addUseMemoImport true b) =
                  addUseMemoImport true b).
  { intros b N. unfold addUseMemoImport.
    destruct (updateReactImport b) as [b'|] eqn:U.
    - now rewrite (Stable _ _ U).
    - apply updateReactImport_None in U. contradiction. }
  assert (Fresh : forall b, reactImport b = None ->
                    addUseMemoImport true (addUseMemoImport true b) =
                    ImportDeclaration
                      [namedSpecifier "useMemo"; namedSpecifier "useState"]
                      "react" :: b).
  { intros b N. apply updateReactImport_None in N.
    unfold addUseMemoImport. rewrite N. reflexivity. }
  split; [apply Fresh|]. split; [apply Has|].
  apply Has. unfold addUseMemoImport.
  destruct (updateReactImport body) as [body'|] eqn:U.
  - destruct (@updateReactImport_Some body body' U) as (sp & _ & R' & _).
    rewrite R'. discriminate.
  - discriminate.
Qed.

Lemma repeated_import_update_witness :
  reactImport [OtherStatement (Identifier "x")] = None /\
  addUseMemoImport true (addUseMemoImport true [OtherStatement (Identifier "x")]) =
    [ImportDeclaration [namedSpecifier "useMemo"; namedSpecifier "useState"] "react";
     OtherStatement (Identifier "x")].
Proof.
  split; [reflexivity|].
  exact (proj1 (repeated_import_update [OtherStatement (Identifier "x")]) eq_refl).
Defined.

(* ================================================================== *)
(** ** When lowering throws *)

Lemma Decides_ret {A} (a : A) : Decides (ret a) true.
Proof. intros st. unfold ret. eauto. Qed.

Lemma Decides_throw {A} msg : Decides (@throw A msg) false.
Proof. intros st. unfold throw. eauto. Qed.

Lemma Decides_emit instr : Decides (emit instr) true.
Proof. intros st. rewrite emit_total. eauto. Qed.

Lemma Decides_consoleLog line : Decides (consoleLog line) true.
Proof. intros st. unfold consoleLog. eauto. Qed.

Lemma Decides_stateSize : Decides stateSize true.
Proof. intros st. unfold stateSize. eauto. Qed.

Lemma Decides_bind {A B} (m : Lower A) (k : A -> Lower B) b1 b2 :
  Decides m b1 -> (forall a, Decides (k a) b2) -> Decides (bind m k) (b1 && b2).
Proof.
  intros Hm Hk st. unfold bind. specialize (Hm st). destruct b1; simpl.
  - destruct Hm as (a & st1 & ->). apply Hk.
  - destruct Hm as (msg & ->). destruct b2; eauto.
Qed.

Lemma Decides_eq {A} (m : Lower A) b b' : Decides m b -> b = b' -> Decides m b'.
Proof. now intros H <-. Qed.

Lemma Decides_then {A B} (m : Lower A) (k : A -> Lower B) b :
  Decides m b -> (forall a, Decides (k a) true) -> Decides (bind m k) b.
Proof.
  intros Hm Hk. apply Decides_eq with (b && true).
  - now apply Decides_bind.
  - apply andb_true_r.
Qed.

Section DecidingLoops.
Variable lower : Node -> Lower InstrId.

Lemma Decides_lowerOperand value :
  Decides (lower value) (lowerable value) ->
  Decides (lowerOperand lower value) (lowerable value).
Proof.
  intros H. destruct value; simpl;
    try apply Decides_ret;
    (apply Decides_then; [exact H | intros; apply Decides_ret]).
Qed.

Lemma Decides_lowerArguments args : forall acc,
  (forall a, In a args -> Decides (lower a) (lowerable a)) ->
  Decides (lowerArguments lower args acc) (forallb lowerable args).
Proof.
  induction args as [|arg args IH]; intros acc H; simpl.
  - apply Decides_ret.
  - apply Decides_bind.
    + apply Decides_lowerOperand, H. now left.
    + intros v. apply IH. intros a I. apply H. now right.
Qed.

Lemma Decides_lowerProperties props : forall acc,
  (forall k v, In (ObjectProperty k v) props -> Decides (lower v) (lowerable v)) ->
  Decides (lowerProperties lower props acc)
          (forallb (propertyLowerable lowerable) props).
Proof.
  induction props as [|prop props IH]; intros acc H.
  - apply Decides_ret.
  - assert (H' : forall k v, In (ObjectProperty k v) props ->
                             Decides (lower v) (lowerable v))
      by (intros k v I; apply (H k v); now right).
    destruct prop; cbn [lowerProperties forallb propertyLowerable andb]; auto.
    destruct prop1; try apply Decides_throw.
    apply Decides_bind.
    + apply Decides_lowerOperand, (H (Identifier name)). now left.
    + intros v. now apply IH.
Qed.

Lemma Decides_lowerDeclarators decls : forall last,
  (forall lv i, In (VariableDeclarator lv (Some i)) decls ->
                Decides (lower i) (lowerable i)) ->
  Decides (lowerDeclarators lower decls last)
          (forallb (declaratorLowerable lowerable) decls).
Proof.
  induction decls as [|d decls IH]; intros last H.
  - apply Decides_ret.
  - assert (H' : forall lv i, In (VariableDeclarator lv (Some i)) decls ->
                              Decides (lower i) (lowerable i))
      by (intros lv i I; apply (H lv i); now right).
    destruct d; cbn [lowerDeclarators forallb declaratorLowerable andb]; auto.
    destruct init as [init|].
    + assert (Hi : Decides (lower init) (lowerable init)) by (apply (H id init); now left).
      destruct id; cbn [andb].
      * apply Decides_bind; [exact Hi|]. intros v.
        apply Decides_eq with (true && forallb (declaratorLowerable lowerable) decls);
          [|reflexivity].
        apply Decides_bind; [apply Decides_emit|]. intros c. now apply IH.
      * apply Decides_bind; [exact Hi|]. intros v.
        apply Decides_eq with (true && forallb (declaratorLowerable lowerable) decls);
          [|reflexivity].
        apply Decides_bind; [apply Decides_emit|]. intros c. now apply IH.
      * apply Decides_eq with (true && forallb (declaratorLowerable lowerable) decls);
          [|reflexivity].
        apply Decides_bind; [apply Decides_consoleLog|]. intros _. now apply IH.
    + destruct id; apply Decides_throw.
Qed.
End DecidingLoops.

Lemma Decides_lowerBabelInstr :
  forall k n, nodeSize n < k -> Decides (lowerBabelInstr n) (lowerable n).
Proof.
  induction k as [|k IH]; intros n Sz; [lia|].
  assert (Fallback : forall type instr,
             Decides (consoleLog (LogSkipInstruction type) ;;; emit instr)%lower true).
  { intros type instr. apply Decides_then; [apply Decides_consoleLog|].
    intros _. apply Decides_emit. }
  destruct n; cbn [lowerBabelInstr lowerable]; cbn [nodeSize] in Sz;
    try apply Decides_emit; try apply Fallback.
  - (* Identifier *)
    intros st. destruct (getDeclaration (st_body st) name).
    + unfold ret. eauto.
    + rewrite emit_total. eauto.
  - (* MemberExpression *)
    apply Decides_bind; [apply IH; lia|]. intros o.
    apply Decides_then; [|intros; apply Decides_emit].
    destruct n2; try apply Decides_throw; apply Decides_ret.
  - (* ObjectExpression *)
    apply Decides_then; [|intros; apply Decides_emit].
    apply Decides_lowerProperties. intros key v I. apply IH.
    apply nodeSize_In in I. simpl in I. lia.
  - (* CallExpression *)
    apply Decides_bind.
    + destruct n;
        try (apply Decides_then; [apply IH; cbn [nodeSize] in *; lia
                                 | intros; apply Decides_ret]).
      apply Decides_bind; [apply IH; cbn [nodeSize] in *; lia|]. intros r.
      destruct n2; try apply Decides_throw; apply Decides_ret.
    + intros target. apply Decides_then; [|intros; apply Decides_emit].
      apply Decides_lowerArguments. intros a I. apply IH.
      apply nodeSize_In in I. lia.
  - (* ReturnStatement *)
    destruct argument as [arg|]; [|apply Decides_emit].
    apply Decides_then; [apply IH; lia | intros; apply Decides_emit].
  - (* VariableDeclaration *)
    apply Decides_eq with (true && forallb (declaratorLowerable lowerable) declarations);
      [|reflexivity].
    apply Decides_bind; [apply Decides_stateSize|]. intros last.
    apply Decides_lowerDeclarators. intros lv i I. apply IH.
    apply nodeSize_In in I. simpl in I. lia.
  - (* ExpressionStatement *)
    apply IH. lia.
Qed.

Lemma Decides_lowerStatements stmts :
  Decides (lowerStatements stmts) (forallb lowerable stmts).
Proof.
  induction stmts as [|s stmts IH]; cbn [lowerStatements forallb].
  - apply Decides_ret.
  - apply Decides_bind; [|intros; exact IH].
    apply (@Decides_lowerBabelInstr (S (nodeSize s))). lia.
Qed.

Lemma lowerPatternProperties_decides properties : forall instrs,
  if forallb patternPropertyLowerable properties
  then exists instrs', lowerPatternProperties properties instrs = Ok instrs'
  else exists msg, lowerPatternProperties properties instrs = Throw msg.
Proof.
  induction properties as [|[[name|type]|type] properties IH]; intros instrs; simpl;
    eauto; apply IH.
Qed.

Lemma lowerParams_decides params : forall instrs,
  if forallb paramLowerable params
  then exists instrs', foldM lowerParam params instrs = Ok instrs'
  else exists msg, foldM lowerParam params instrs = Throw msg.
Proof.
  induction params as [|param params IH]; intros instrs; cbn [forallb foldM]; eauto.
  destruct param as [name|properties|type]; cbn [paramLowerable lowerParam andb bindR].
  - apply IH.
  - pose proof (lowerPatternProperties_decides properties instrs) as P.
    destruct (forallb patternPropertyLowerable properties); cbn [andb].
    + destruct P as (instrs' & ->). cbn [bindR]. apply IH.
    + destruct P as (msg & ->). cbn [bindR]. eauto.
  - eauto.
Qed.

(** X22. Lowering throws on syntax only, and on this syntax exactly: a member
    access whose property is neither an identifier nor a number or string
    literal, a method call whose property is not an identifier, an object
    property whose key is not an identifier, a declarator without
    initializer, and, in the parameters, anything but an identifier or an
    object pattern of identifier keys. Everything else is lowered, whatever
    the state. *)
Theorem lowering_throws_exactly :
  (forall n st,
     lowerable n = true <-> exists id st', lowerBabelInstr n st = Ok (id, st')) /\
  (forall func,
     forallb paramLowerable (fn_params func)
     && forallb lowerable (fn_body func) = true <->
     exists body log, readInstructions func = Ok (body, log)).
Proof.
  split.
  - intros n st.
    pose proof (@Decides_lowerBabelInstr (S (nodeSize n)) n (Nat.lt_succ_diag_r _) st) as D.
    destruct (lowerable n).
    + split; auto.
    + split; [discriminate|]. intros (id & st' & E).
      destruct D as (msg & T). congruence.
  - intros func. unfold readInstructions.
    pose proof (lowerParams_decides (fn_params func) []) as P.
    destruct (forallb paramLowerable (fn_params func)); cbn [andb].
    + destruct P as (instrs & ->). cbn [bindR].
      pose proof (Decides_lowerStatements (fn_body func)
                    {| st_body := instrs; st_console := [] |}) as D.
      destruct (forallb lowerable (fn_body func)).
      * destruct D as (u & st' & ->). split; eauto.
      * destruct D as (msg & ->). split; [discriminate|].
        intros (body & log & E). discriminate E.
    + destruct P as (msg & ->). cbn [bindR]. split; [discriminate|].
      intros (body & log & E). discriminate E.
Qed.

(* ================================================================== *)
(** ** Errors and placeholders *)

Lemma lowerBabelInstr_Throw n st :
  lowerable n = false -> exists msg, lowerBabelInstr n st = Throw msg.
Proof.
  intros L.
  pose proof (@Decides_lowerBabelInstr (S (nodeSize n)) n (Nat.lt_succ_diag_r _) st) as D.
  now rewrite L in D.
Qed.

Lemma lowerBabelInstr_returns n st :
  lowerable n = true -> exists id st', lowerBabelInstr n st = Ok (id, st').
Proof.
  intros L.
  pose proof (@Decides_lowerBabelInstr (S (nodeSize n)) n (Nat.lt_succ_diag_r _) st) as D.
  now rewrite L in D.
Qed.

Lemma readInstructions_returns func :
  forallb paramLowerable (fn_params func) = true ->
  forallb lowerable (fn_body func) = true ->
  exists body log, readInstructions func = Ok (body, log).
Proof.
  intros P B. unfold readInstructions.
  pose proof (lowerParams_decides (fn_params func) []) as Dp. rewrite P in Dp.
  destruct Dp as (instrs & ->). cbn [bindR].
  pose proof (Decides_lowerStatements (fn_body func)
                {| st_body := instrs; st_console := [] |}) as D.
  rewrite B in D. destruct D as (u & st' & ->). eauto.
Qed.

Lemma readInstructions_Throw_param func param :
  In param (fn_params func) -> paramLowerable param = false ->
  exists msg, readInstructions func = Throw msg.
Proof.
  intros I L. unfold readInstructions.
  pose proof (lowerParams_decides (fn_params func) []) as Dp.
  destruct (forallb paramLowerable (fn_params func)) eqn:F.
  - rewrite forallb_forall in F. rewrite (F param I) in L. discriminate L.
  - destruct Dp as (msg & ->). cbn [bindR]. eauto.
Qed.

Lemma lowerProperties_skip lower member after :
  (forall key value, member <> ObjectProperty key value) ->
  forall before propertyValues st,
    lowerProperties lower (before ++ member :: after) propertyValues st =
    lowerProperties lower (before ++ after) propertyValues st.
Proof.
  intros N. induction before as [|prop before IH]; intros propertyValues st.
  - cbn [app]. destruct member; try reflexivity.
    exfalso. eapply N. reflexivity.
  - cbn [app]. destruct prop; cbn [lowerProperties]; auto.
    destruct prop1; try reflexivity.
    unfold bind. destruct (lowerOperand lower prop2 st) as [[v st1]|]; auto.
Qed.

(** C9, as the code has it. Lowering throws, and [readInstructions] with
    it, on a declarator without initializer and on a destructured parameter
    with a key that is not an identifier; but also on a member access whose
    property is not an identifier, a number or a string literal, on a
    method call whose property is not an identifier, on an object property
    whose key is not an identifier, and on a parameter that is neither an
    identifier nor an object pattern of identifier keys; and on nothing
    else. A node of a kind that [lowerBabelInstr] has no branch for, when
    it is the node lowered, gives the placeholder
    [LoadConstant "unsupported_<type>"] at the next id, with the line
    "Skipping unsupported instruction" logged before it. A declarator whose
    pattern is neither an identifier nor an array pattern leaves the line
    "Skipping unsupported pattern" and no instruction, its initializer not
    lowered; a member of an object literal that is not a property leaves
    nothing at all. The body of every function that lowers is analyzed
    without error. *)
Theorem lowering_errors_and_placeholders :
  (forall kind declarations lv st,
      In (VariableDeclarator lv None) declarations ->
      exists msg,
        lowerBabelInstr (VariableDeclaration kind declarations) st = Throw msg) /\
  (forall func kind declarations lv,
      In (VariableDeclaration kind declarations) (fn_body func) ->
      In (VariableDeclarator lv None) declarations ->
      exists msg, readInstructions func = Throw msg) /\
  (forall func properties type,
      In (ParamObjectPattern properties) (fn_params func) ->
      In (PatObjectProperty (KeyOther type)) properties ->
      exists msg, readInstructions func = Throw msg) /\
  (forall object property computed st,
      propertyNameSupported property = false ->
      exists msg,
        lowerBabelInstr (MemberExpression object property computed) st =
          Throw msg) /\
  (forall object property computed arguments st,
      isIdentifier property = false ->
      exists msg,
        lowerBabelInstr
          (CallExpression (MemberExpression object property computed) arguments)
          st = Throw msg) /\
  (forall properties key value st,
      In (ObjectProperty key value) properties ->
      isIdentifier key = false ->
      exists msg, lowerBabelInstr (ObjectExpression properties) st = Throw msg) /\
  (forall func param,
      In param (fn_params func) -> paramLowerable param = false ->
      exists msg, readInstructions func = Throw msg) /\
  (forall func s,
      In s (fn_body func) -> lowerable s = false ->
      exists msg, readInstructions func = Throw msg) /\
  (forall n st,
      lowerable n = true ->
      exists id st', lowerBabelInstr n st = Ok (id, st')) /\
  (forall func,
      forallb paramLowerable (fn_params func) = true ->
      forallb lowerable (fn_body func) = true ->
      exists body log, readInstructions func = Ok (body, log)) /\
  (forall n st,
      isUnmodeled n = true ->
      lowerBabelInstr n st =
        Ok (JsMap.size (st_body st),
            {| st_body := JsMap.set (st_body st) (JsMap.size (st_body st))
                            (LoadConstant ("unsupported_" ++ nodeType n));
               st_console := st_console st
                             ++ [LogSkipInstruction (nodeType n);
                                 LogInstr (JsMap.size (st_body st))
                                   (LoadConstant ("unsupported_" ++ nodeType n))] |})) /\
  (forall kind type init declarations st,
      lowerBabelInstr
        (VariableDeclaration kind
           (VariableDeclarator (LOther type) (Some init) :: declarations)) st =
      lowerBabelInstr (VariableDeclaration kind declarations)
        {| st_body := st_body st;
           st_console := st_console st ++ [LogSkipPattern type] |}) /\
  (forall before member after st,
      (forall key value, member <> ObjectProperty key value) ->
      lowerBabelInstr (ObjectExpression (before ++ member :: after)) st =
      lowerBabelInstr (ObjectExpression (before ++ after)) st) /\
  (forall func body log,
      forallb wellTyped (fn_body func) = true ->
      readInstructions func = Ok (body, log) ->
      exists info, analyze body = Ok info).
Proof.
  repeat match goal with |- _ /\ _ => split end.
  - intros. eapply lowerVariableDeclaration_Throw; eauto.
  - intros func kind declarations lv I1 I2.
    apply readInstructions_Throw_statement with (1 := I1).
    intros st. eapply lowerVariableDeclaration_Throw; eauto.
  - intros func properties type I1 I2. unfold readInstructions.
    destruct (@lowerParams_Throw (fn_params func) (ParamObjectPattern properties)
                [] I1) as (msg & ->).
    + intros instrs. simpl. eapply lowerPatternProperties_Throw; eauto.
    + simpl. eauto.
  - intros object property computed st P. apply lowerBabelInstr_Throw.
    cbn [lowerable]. rewrite P. apply andb_false_r.
  - intros object property computed arguments st P. apply lowerBabelInstr_Throw.
    cbn [lowerable]. rewrite P. now rewrite andb_false_r.
  - intros properties key value st I K. apply lowerBabelInstr_Throw.
    cbn [lowerable].
    destruct (forallb (propertyLowerable lowerable) properties) eqn:F; auto.
    rewrite forallb_forall in F. specialize (F _ I).
    destruct key; discriminate.
  - apply readInstructions_Throw_param.
  - intros func s I L. apply readInstructions_Throw_statement with (1 := I).
    intros st. now apply lowerBabelInstr_Throw.
  - apply lowerBabelInstr_returns.
  - apply readInstructions_returns.
  - apply lower_unmodeled.
  - reflexivity.
  - intros before member after st N. cbn [lowerBabelInstr]. unfold bind.
    now rewrite (@lowerProperties_skip lowerBabelInstr member after N before [] st).
  - apply analyze_lowered.
Qed.

Lemma lowering_errors_and_placeholders_witness :
  (exists msg, readInstructions noInitializer = Throw msg) /\
  (exists msg, readInstructions stringKeyParam = Throw msg) /\
  (exists msg, readInstructions computedAccess = Throw msg) /\
  (exists body log, readInstructions destructured = Ok (body, log)) /\
  (exists info, analyze scenarioA_body = Ok info).
Proof.
  destruct lowering_errors_and_placeholders
    as (_ & A & B & _ & _ & _ & _ & C & _ & R & _ & _ & _ & D).
  split; [|split; [|split; [|split]]].
  - apply (A noInitializer "let"%string
             [VariableDeclarator (LIdentifier "v") None] (LIdentifier "v"));
      simpl; auto.
  - apply (B stringKeyParam [PatObjectProperty (KeyOther "StringLiteral")]
             "StringLiteral"%string); simpl; auto.
  - apply (C computedAccess
             (ReturnStatement
                (Some (MemberExpression (Identifier "a")
                         (BinaryExpression "+" (Identifier "b") (NumericLiteral 1%Z))
                         true)))); [simpl; auto | reflexivity].
  - apply (R destructured); reflexivity.
  - apply (D scenarioA scenarioA_body
             [LogInstr 2 (LoadConstant "function");
              LogInstr 3 (Call 0 (Some "map"%string) [RValue 2]);
              LogInstr 4 (Declare_ "c" 3); LogInstr 5 (Return (Some 4))]);
      reflexivity.
Defined.

(** The claim as the specification states it fails on
    [function U(a, b) { return a[b + 1]; }]: the binary expression is of a
    kind that lowering has no branch for, and lowering throws; on
    [function D(o) { const { p } = o; }], where the object pattern leaves a
    log line and no placeholder; and on
    [function E(a) { return { ...a }; }], where the spread member leaves
    neither. *)
Lemma unmodeled_kinds_throw_or_leave_nothing :
  isUnmodeled (BinaryExpression "+" (Identifier "b") (NumericLiteral 1%Z)) = true /\
  readInstructions computedAccess =
    Throw "Unsupported property type: BinaryExpression" /\
  readInstructions destructured =
    Ok ([(0, Param "o")], [LogSkipPattern "ObjectPattern"]) /\
  isUnmodeled (SpreadElement (Identifier "a")) = true /\
  readInstructions spreadMember =
    Ok ([(0, Param "a"); (1, Object []); (2, Return (Some 1))],
        [LogInstr 1 (Object []); LogInstr 2 (Return (Some 1))]).
Proof. repeat split; reflexivity. Qed.


(** X23. [codegenJS] memoizes a value only if a later call consumes it: on a
    well-formed body it generates a declaration exactly when the analysis
    marks some instruction for memoization and records a mutator for it. An
    expensive value that nothing mutates yields no generated statement. *)
Theorem codegen_needs_a_mutator (func : FunctionBody) (info : ValueInfos)
    (generated : list Node) :
  wellFormed func -> analyze func = Ok info ->
  codegenJS func info = Some (Ok generated) ->
  (generated <> [] <->
   exists id iu, JsMap.get info id = Some iu /\
                 shouldMemoize iu = true /\ mutatorsOf iu <> []).
Proof.
  intros W A C. pose proof W as [D B].
  destruct (@codegenJS_scopes func info W A) as (spans & generated' & G & C' & L & _).
  rewrite C in C'. injection C' as <-.
  destruct (getInstructionScopeRanges_spec func info)
    as (sets & spans' & M & G' & _ & _ & _ & Cover & Ends).
  rewrite G in G'. injection G' as <-.
  destruct (mutatingSetsOf_spec func info) as (sets' & M' & Cls & Pairs).
  rewrite M in M'. injection M' as <-.
  split.
  - intros N.
    assert (Ns : exists span, In span spans).
    { destruct spans as [|span spans]; [|exists span; now left].
      destruct generated; [contradiction | discriminate L]. }
    destruct Ns as (span & Is). destruct (Ends span Is) as [(s & Isets & _) _].
    destruct (Cls s Isets) as (Ls & NDs & Cs).
    assert (Ix : exists x, In x s) by (destruct s as [|x s]; [simpl in Ls; lia | exists x; now left]).
    destruct Ix as (x & Ix).
    destruct (@two_members s x Ls NDs Ix) as (y & Iy & Nyx).
    assert (Cxy : Connected (flat_map (stepEdges info) func) x y) by (apply (Cs x Ix), Iy).
    destruct (Connected_endpoints Cxy) as [->|[(z & Ez) _]]; [contradiction|].
    assert (X : exists e, In e (flat_map (stepEdges info) func)).
    { destruct Ez as [E|E]; eexists; exact E. }
    destruct X as ([a b] & Ie).
    destruct (@stepEdges_In info func (a, b) Ie) as (u & instr & iu & Iu & Gu & Sm & Iun).
    exists u, iu. split; [exact Gu|]. split; [exact Sm|].
    apply unionEdges_In in Iun. destruct Iun as (rest & E & Len & _).
    destruct (mutatorsOf iu); [simpl in Len; lia | discriminate].
  - intros (u & iu & Gu & Sm & Nm).
    assert (Im : exists m, In m (mutatorsOf iu))
      by (destruct (mutatorsOf iu) as [|m ms]; [contradiction | exists m; now left]).
    destruct Im as (m & Im).
    pose proof (dense_NoDup D) as ND.
    assert (K : In u (JsMap.keys func)).
    { rewrite <- (@analyze_keys func info ND A). eapply get_Some_key; eauto. }
    apply in_map_iff in K. destruct K as ([u' instr] & E & Iu). simpl in E. subst u'.
    pose proof (@analyze_mutators_of func info A u iu Gu m) as Mu.
    apply Mu in Im as Im'. destruct Im' as (_ & ci & Ic & _ & U).
    assert (Lt : u < m) by (eapply B; eauto).
    assert (Cum : Connected (flat_map (stepEdges info) func) u m).
    { apply (@unionEdges_connect _ (mutatorsOf iu ++ [u])).
      - apply (@stepEdges_sub info func u instr iu Iu Gu Sm).
      - apply in_or_app. right. now left.
      - apply in_or_app. now left. }
    destruct (Pairs u m) as (s & Is & Ius & _); [lia | exact Cum |].
    destruct (Cover s Is) as (span & Ispan & _).
    intros ->. simpl in L. destruct spans; [destruct Ispan | discriminate L].
Qed.

Lemma codegen_needs_a_mutator_witness :
  wellFormed memoExample_body /\
  ([memoDeclaration 0
      (ObjectExpression [ObjectProperty (Identifier "x") (Identifier "unknown")])
      ["a"%string]] <> [] <->
   exists id iu, JsMap.get memoExample_info id = Some iu /\
                 shouldMemoize iu = true /\ mutatorsOf iu <> []).
Proof.
  split; [exact memoExample_wellFormed|].
  exact (@codegen_needs_a_mutator memoExample_body memoExample_info _
           memoExample_wellFormed eq_refl eq_refl).
Defined.

(** X24. Step 4 and the analysis agree on method calls: an initializer that
    step 4 wraps in [useMemo] is lowered to a [Call] that
    [isExpensiveOperation] accepts. *)
Theorem wrapped_call_is_expensive (init : Node) (st : LowerState)
    (id : InstrId) (st' : LowerState) :
  isExpensiveMethodCall init = true ->
  lowerBabelInstr init st = Ok (id, st') ->
  exists receiver name arguments,
    JsMap.get (st_body st') id = Some (Call receiver (Some name) arguments) /\
    isExpensiveOperation (Call receiver (Some name) arguments) (st_body st') = true.
Proof.
  intros X E.
  destruct init; try discriminate X.
  destruct init; try discriminate X.
  destruct init2; try discriminate X.
  cbn [isExpensiveMethodCall] in X. cbn [lowerBabelInstr] in E.
  apply bind_Ok in E. destruct E as (target & st1 & E1 & E2).
  apply bind_Ok in E1. destruct E1 as (receiverValue & st0 & _ & E1).
  unfold ret in E1. injection E1 as <- <-.
  apply bind_Ok in E2. destruct E2 as (argumentValues & st2 & _ & E2).
  cbn [fst snd] in E2. rewrite emit_total in E2. injection E2 as <- <-.
  exists receiverValue, name, argumentValues. cbn [st_body].
  split; [apply get_set_same|].
  rewrite isExpensiveOperation_method; [exact X|].
  intros ->. discriminate X.
Qed.

Lemma wrapped_call_is_expensive_witness :
  exists receiver name arguments,
    JsMap.get [(0, Param "a"); (1, Param "b"); (2, LoadConstant "function");
               (3, Call 0 (Some "map"%string) [RValue 2])] 3 =
      Some (Call receiver (Some name) arguments) /\
    isExpensiveOperation (Call receiver (Some name) arguments)
      [(0, Param "a"); (1, Param "b"); (2, LoadConstant "function");
       (3, Call 0 (Some "map"%string) [RValue 2])] = true.
Proof.
  exact (@wrapped_call_is_expensive scenarioA_call
           {| st_body := [(0, Param "a"); (1, Param "b")]; st_console := [] |}
           3
           {| st_body := [(0, Param "a"); (1, Param "b");
                          (2, LoadConstant "function");
                          (3, Call 0 (Some "map"%string) [RValue 2])];
              st_console := [LogInstr 2 (LoadConstant "function");
                             LogInstr 3 (Call 0 (Some "map"%string) [RValue 2])] |}
           eq_refl eq_refl).
Defined.
